(** * sqlbatch: a batch of SQL commands in one transaction

    Shallow embedding of the three [Batch] functions of the repository:

    - [Handler.Batch]  (src/sqlbatch.go, first unit): opens the transaction
      itself, defers [tx.Rollback()], commits at the end;
    - [Sqlbatch.Batch] (src/sqlbatch.go, second unit): receives the
      transaction, returns the results slice, defers [rows.Close()];
    - [Part001.Batch]  (src/unnamed/part_001): the same with the older field
      names [Memo], [Scan], [ScanOnce] and without the deferred close.

    The collaborators of package database/sql ([sql.DB], [sql.Tx],
    [sql.Result], [sql.Rows]) and the caller's closures are inputs of the
    model: every call the Go code makes to one of them is a transformer of an
    abstract world [W], and is recorded in a trace. *)

From Stdlib Require Import ZArith.
From stdpp Require Import base tactics option list strings pretty gmap.

Local Open Scope Z_scope.
Local Open Scope string_scope.
Local Open Scope list_scope.

(** Go's [error]: [None] is [nil]. *)
Definition error := string.

(** [const expectedDifferentAffectedRows] and its use through [fmt.Errorf]
    with the verb %v on two int64 values and a string. *)
Definition expectedDifferentAffectedRows (expected affected : Z) (query : string) : error :=
  "Expected to affect " +:+ pretty expected +:+ " rows, but " +:+ pretty affected
    +:+ " rows affected for query: `" +:+ query +:+ "`".

(** No character of the string is a space: the decimal numerals of the
    message are delimited by the spaces around them. *)
Fixpoint no_space (s : string) : bool :=
  match s with
  | EmptyString => true
  | String a s' => bool_decide (a ≠ Ascii.Space) && no_space s'
  end.

(** A call that yields [(value, error)] in Go. *)
Inductive res (A : Type) : Type :=
| Ok (a : A)
| Fail (e : error).
Arguments Ok {A} a.
Arguments Fail {A} e.

(** State of a [sql.Tx] as database/sql keeps it (its [done] flag): the
    first [Commit] or [Rollback] reaches the driver and finishes the
    transaction; on a finished transaction both answer [ErrTxDone] and do
    nothing. *)
Inductive txstatus := TxOpen | TxDone.

Definition ErrTxDone : error :=
  "sql: transaction has already been committed or rolled back".

(** How a statement of a function body ends. [Done a]: the statement
    completed with [a]; [Return e]: the function executed
    [return results, err] with [err = e]. *)
Inductive outcome (A : Type) : Type :=
| Done (a : A)
| Return (e : error).
Arguments Done {A} a.
Arguments Return {A} e.

(** [interface{}] holding values of [V]: [None] is the nil interface, an
    unset result slot. *)
Abbreviation iface V := (option V).

(** What [rows.Scan] delivers for the current row. *)
Abbreviation Row V := (list (iface V)).

Section Model.

(** [V]: what an [interface{}] may hold; [W]: the database together with the
    state captured by the caller's closures. *)
Context {V W : Type}.

Local Abbreviation iface := (iface V).
Local Abbreviation Row := (Row V).

(** [sql.Result], of which only [RowsAffected] is used. *)
Record Result := { RowsAffected : res Z }.

(** [sql.Rows] as returned by [tx.Query]: the rows [Next] will deliver, the
    fault (if any) that ends the iteration instead of exhaustion, and the
    answer of the first [Close]. *)
Record Rows := {
  rows_data : list Row;
  rows_fault : option error;
  rows_closeErr : option error
}.

(** [sql.Tx]. *)
Record Tx := {
  tx_Exec : string -> list iface -> W -> res Result * W;
  tx_Query : string -> list iface -> W -> res Rows * W;
  tx_Commit : W -> option error * W;
  tx_Rollback : W -> option error * W
}.

(** Every call made to a collaborator or to a callback; [i] is the index of
    the command on whose behalf it is made. *)
Inductive event :=
| EvBegin
| EvArgsFunc (i : nat) (results : list iface)
| EvExec (i : nat) (query : string) (args : list iface)
| EvRowsAffected (i : nat)
| EvQuery (i : nat) (query : string) (args : list iface)
| EvNext (i : nat) (more : bool)
| EvReadOne (i : nat) (row : Row)
| EvReadAll (i : nat) (memo : iface) (row : Row)
| EvErr (i : nat)
| EvClose (i : nat)
| EvCommit     (* the driver's commit, on an open transaction *)
| EvRollback   (* the driver's rollback, on an open transaction *)
| EvTxDone.    (* a Commit or Rollback call answered with ErrTxDone *)

(** The machine state: the world, the trace so far, the status of the
    transaction, and what belongs to the running call of [Batch]: the cursors
    it has opened and not yet closed (by command index), the [results] slice
    and the stack of deferred [rows.Close()] calls (most recent first). *)
Record state := {
  world : W;
  trace : list event;
  txs : txstatus;
  opened : gset nat;
  results : list iface;
  deferred : list (nat * Rows)
}.

Definition set_world (w : W) (s : state) : state :=
  {| world := w; trace := trace s; txs := txs s; opened := opened s;
     results := results s; deferred := deferred s |}.

Definition log (ev : event) (s : state) : state :=
  {| world := world s; trace := trace s ++ [ev]; txs := txs s; opened := opened s;
     results := results s; deferred := deferred s |}.

Definition set_txs (t : txstatus) (s : state) : state :=
  {| world := world s; trace := trace s; txs := t; opened := opened s;
     results := results s; deferred := deferred s |}.

Definition set_opened (o : gset nat) (s : state) : state :=
  {| world := world s; trace := trace s; txs := txs s; opened := o;
     results := results s; deferred := deferred s |}.

Definition set_results (r : list iface) (s : state) : state :=
  {| world := world s; trace := trace s; txs := txs s; opened := opened s;
     results := r; deferred := deferred s |}.

Definition set_deferred (d : list (nat * Rows)) (s : state) : state :=
  {| world := world s; trace := trace s; txs := txs s; opened := opened s;
     results := results s; deferred := d |}.

(** ** The monad of a function body *)
Definition M (A : Type) : Type := state -> outcome A * state.

Definition ret {A} (a : A) : M A := fun s => (Done a, s).

Definition bind {A B} (m : M A) (k : A -> M B) : M B :=
  fun s => match m s with
           | (Done a, s') => k a s'
           | (Return e, s') => (Return e, s')
           end.

Definition return_err {A} (e : error) : M A := fun s => (Return e, s).

Definition emit (ev : event) : M unit := fun s => (Done tt, log ev s).

(** [if err != nil { return results, err }] *)
Definition check {A} (r : res A) : M A :=
  match r with
  | Ok a => ret a
  | Fail e => return_err e
  end.

Definition check_nil (e : option error) : M unit :=
  match e with
  | None => ret tt
  | Some e => return_err e
  end.

(** ** Calls to the collaborators *)

(** [tx.Exec(command.Query, args...)] followed by the [err != nil] test. *)
Definition call_Exec (tx : Tx) (i : nat) (query : string) (args : list iface) : M Result :=
  fun s => let '(r, w) := tx_Exec tx query args (world s) in
           check r (set_world w (log (EvExec i query args) s)).

(** [result.RowsAffected()] followed by the [err != nil] test. *)
Definition call_RowsAffected (i : nat) (result : Result) : M Z :=
  fun s => check (RowsAffected result) (log (EvRowsAffected i) s).

(** [tx.Query(command.Query, args...)] followed by the [err != nil] test; on
    success the cursor of command [i] is open. *)
Definition call_Query (tx : Tx) (i : nat) (query : string) (args : list iface) : M Rows :=
  fun s => let '(r, w) := tx_Query tx query args (world s) in
           let s' := set_world w (log (EvQuery i query args) s) in
           match r with
           | Ok rows => (Done rows, set_opened ({[i]} ∪ opened s') s')
           | Fail e => (Return e, s')
           end.

(** [rows.Close()]: the first call releases the cursor and answers
    [rows_closeErr]; [Close] is idempotent, later calls answer nil. *)
Definition call_Close (i : nat) (rows : Rows) : M (option error) :=
  fun s => let s' := log (EvClose i) s in
           if decide (i ∈ opened s)
           then (Done (rows_closeErr rows), set_opened (opened s ∖ {[i]}) s')
           else (Done None, s').

(** [defer rows.Close()] *)
Definition defer_Close (i : nat) (rows : Rows) : M unit :=
  fun s => (Done tt, set_deferred ((i, rows) :: deferred s) s).

(** The deferred calls run when the function returns, last deferred first;
    what they return is dropped. *)
Fixpoint run_deferred_list (d : list (nat * Rows)) (s : state) : state :=
  match d with
  | [] => s
  | (i, rows) :: d' => run_deferred_list d' (call_Close i rows s).2
  end.

Definition run_deferred (s : state) : state :=
  run_deferred_list (deferred s) (set_deferred [] s).

(** [results[i] = v]: [i] ranges over the commands and [results] has their
    length, so the index is in range (see [sql_begins_results] and
    [p1_begins_results]); out of range Go would panic, where stdpp's insert
    does nothing. *)
Definition set_slot (i : nat) (v : iface) : M unit :=
  fun s => (Done tt, set_results (<[i:=v]> (results s)) s).

(** [tx.Commit()] *)
Definition call_Commit (tx : Tx) : M (option error) :=
  fun s => match txs s with
           | TxOpen => let '(e, w) := tx_Commit tx (world s) in
                       (Done e, set_txs TxDone (set_world w (log EvCommit s)))
           | TxDone => (Done (Some ErrTxDone), log EvTxDone s)
           end.

(** [tx.Rollback()] *)
Definition call_Rollback (tx : Tx) : M (option error) :=
  fun s => match txs s with
           | TxOpen => let '(e, w) := tx_Rollback tx (world s) in
                       (Done e, set_txs TxDone (set_world w (log EvRollback s)))
           | TxDone => (Done (Some ErrTxDone), log EvTxDone s)
           end.

(** The error a function returns: nil when its body ran to the end. *)
Definition returned {A} (o : outcome A) : option error :=
  match o with
  | Done _ => None
  | Return e => Some e
  end.

End Model.

Arguments Result : clear implicits.
Arguments Rows V : clear implicits.
Arguments Tx V W : clear implicits.
Arguments event V : clear implicits.
Arguments state V W : clear implicits.
Arguments M V W A : clear implicits.

Declare Scope batch_scope.
Delimit Scope batch_scope with batch.
Notation "'do' x <- m ; k" := (bind m (fun x => k))
  (at level 10, x name, m at level 100, k at level 200) : batch_scope.
Notation "m ;; k" := (bind m (fun _ => k))
  (at level 100, k at level 200, right associativity) : batch_scope.

Local Open Scope batch_scope.

(** * src/sqlbatch.go, second unit: [Batch(tx, commands)] *)
Module Sqlbatch.
Section WithTypes.
Context {V W : Type}.
Local Abbreviation iface := (iface V).
Local Abbreviation Row := (Row V).
Local Abbreviation Rows := (Rows V).
Local Abbreviation Tx := (Tx V W).
Local Abbreviation state := (state V W).
Local Abbreviation M := (M V W).

(** [type Command struct]; a nil func field is [None]. [Affect] is an int64,
    on which the code only compares. *)
Record Command := {
  Query : string;
  ArgsFunc : option (list iface -> W -> list iface * W);
  Args : list iface;
  Init : iface;
  ReadAll : option (iface -> Row -> W -> (iface * option error) * W);
  ReadOne : option (Row -> W -> (iface * option error) * W);
  Affect : Z
}.

(** [command.ArgsFunc(results)]: the callback is given the slice to read;
    what else it does goes to the world. *)
Definition call_ArgsFunc (i : nat) (f : list iface -> W -> list iface * W) : M (list iface) :=
  fun s => let '(args, w) := f (results s) (world s) in
           (Done args, set_world w (log (EvArgsFunc i (results s)) s)).

(** [command.ReadOne(rows.Scan)] followed by the [err != nil] test. *)
Definition call_ReadOne (i : nat) (f : Row -> W -> (iface * option error) * W) (row : Row) : M iface :=
  fun s => let '((result, err), w) := f row (world s) in
           let s' := set_world w (log (EvReadOne i row) s) in
           match err with
           | Some e => (Return e, s')
           | None => (Done result, s')
           end.

(** [memo, err = command.ReadAll(memo, rows.Scan)] followed by the
    [err != nil] test. *)
Definition call_ReadAll (i : nat) (f : iface -> Row -> W -> (iface * option error) * W)
    (memo : iface) (row : Row) : M iface :=
  fun s => let '((memo', err), w) := f memo row (world s) in
           let s' := set_world w (log (EvReadAll i memo row) s) in
           match err with
           | Some e => (Return e, s')
           | None => (Done memo', s')
           end.

(** [for rows.Next() { memo, err = command.ReadAll(memo, rows.Scan); ... }]
    over the rows the cursor still has to deliver. *)
Fixpoint read_all_loop (i : nat) (f : iface -> Row -> W -> (iface * option error) * W)
    (memo : iface) (pending : list Row) : M iface :=
  match pending with
  | [] => emit (EvNext i false);; ret memo
  | row :: rest =>
      emit (EvNext i true);;
      do memo' <- call_ReadAll i f memo row;
      read_all_loop i f memo' rest
  end.

(** The rows of a read command up to [rows.Err()]; yields what [rows.Err()]
    answers: the fault of the cursor once [Next] has answered false, nil
    before. *)
Definition read_rows (i : nat) (command : Command) (rows : Rows) : M (option error) :=
  match ReadOne command with
  | Some readOne =>
      match rows_data rows with
      | row :: _ =>
          emit (EvNext i true);;
          do result <- call_ReadOne i readOne row;
          set_slot i result;;
          ret None
      | [] => emit (EvNext i false);; ret (rows_fault rows)
      end
  | None =>
      match ReadAll command with
      | Some readAll =>
          do memo <- read_all_loop i readAll (Init command) (rows_data rows);
          set_slot i memo;;
          ret (rows_fault rows)
      | None => ret None
      end
  end.

(** [args := command.Args; if command.ArgsFunc != nil { args = ... }] *)
Definition resolve_args (i : nat) (command : Command) : M (list iface) :=
  match ArgsFunc command with
  | Some f => call_ArgsFunc i f
  | None => ret (Args command)
  end.

(** The branch [command.Affect != 0]. *)
Definition write_check (tx : Tx) (i : nat) (command : Command) (args : list iface) : M unit :=
  do result <- call_Exec tx i (Query command) args;
  do affected <- call_RowsAffected i result;
  let expected := if decide (Affect command < 0) then 0 else Affect command in
  if decide (expected ≠ affected)
  then return_err (expectedDifferentAffectedRows expected affected (Query command))
  else ret tt.

(** The [else] branch. *)
Definition read (tx : Tx) (i : nat) (command : Command) (args : list iface) : M unit :=
  do rows <- call_Query tx i (Query command) args;
  defer_Close i rows;;
  do lasterr <- read_rows i command rows;
  emit (EvErr i);;
  check_nil lasterr;;
  do err <- call_Close i rows;
  check_nil err.

(** The body of [for i, command := range commands]. *)
Definition command_body (tx : Tx) (i : nat) (command : Command) : M unit :=
  do args <- resolve_args i command;
  if decide (Affect command ≠ 0)
  then write_check tx i command args
  else read tx i command args.

Fixpoint loop (tx : Tx) (i : nat) (commands : list Command) : M unit :=
  match commands with
  | [] => ret tt
  | command :: rest => command_body tx i command;; loop tx (S i) rest
  end.

(** [results := make([]interface{}, len(commands))], no cursor opened and
    nothing deferred yet. *)
Definition enter (commands : list Command) (s : state) : state :=
  set_opened ∅ (set_deferred [] (set_results (replicate (length commands) None) s)).

(** [func Batch(tx *sql.Tx, commands []Command) ([]interface{}, error)];
    the third component is the state the call leaves behind. *)
Definition Batch (tx : Tx) (commands : list Command) (s : state)
    : list iface * option error * state :=
  let '(o, s1) := loop tx 0 commands (enter commands s) in
  let s2 := run_deferred s1 in
  (results s2, returned o, s2).

End WithTypes.
Arguments Command V W : clear implicits.
End Sqlbatch.

(** * src/unnamed/part_001: [Batch(tx, commands)], earlier field names *)
Module Part001.
Section WithTypes.
Context {V W : Type}.
Local Abbreviation iface := (iface V).
Local Abbreviation Row := (Row V).
Local Abbreviation Rows := (Rows V).
Local Abbreviation Tx := (Tx V W).
Local Abbreviation state := (state V W).
Local Abbreviation M := (M V W).

(** [type Command struct] *)
Record Command := {
  Query : string;
  ArgsFunc : option (list iface -> W -> list iface * W);
  Args : list iface;
  Memo : iface;
  Scan : option (iface -> Row -> W -> (iface * option error) * W);
  ScanOnce : option (Row -> W -> (iface * option error) * W);
  Affect : Z
}.

(** [command.ArgsFunc(results)]: the callback is given the slice to read;
    what else it does goes to the world. *)
Definition call_ArgsFunc (i : nat) (f : list iface -> W -> list iface * W) : M (list iface) :=
  fun s => let '(args, w) := f (results s) (world s) in
           (Done args, set_world w (log (EvArgsFunc i (results s)) s)).

(** [command.ScanOnce(rows.Scan)] followed by the [err != nil] test. *)
Definition call_ScanOnce (i : nat) (f : Row -> W -> (iface * option error) * W) (row : Row) : M iface :=
  fun s => let '((result, err), w) := f row (world s) in
           let s' := set_world w (log (EvReadOne i row) s) in
           match err with
           | Some e => (Return e, s')
           | None => (Done result, s')
           end.

(** [memo, err = command.Scan(memo, rows.Scan)] followed by the [err != nil]
    test. *)
Definition call_Scan (i : nat) (f : iface -> Row -> W -> (iface * option error) * W)
    (memo : iface) (row : Row) : M iface :=
  fun s => let '((memo', err), w) := f memo row (world s) in
           let s' := set_world w (log (EvReadAll i memo row) s) in
           match err with
           | Some e => (Return e, s')
           | None => (Done memo', s')
           end.

(** [for rows.Next() { memo, err = command.Scan(memo, rows.Scan); ... }] *)
Fixpoint scan_loop (i : nat) (f : iface -> Row -> W -> (iface * option error) * W)
    (memo : iface) (pending : list Row) : M iface :=
  match pending with
  | [] => emit (EvNext i false);; ret memo
  | row :: rest =>
      emit (EvNext i true);;
      do memo' <- call_Scan i f memo row;
      scan_loop i f memo' rest
  end.

(** The rows of a read command up to [rows.Err()]; yields what [rows.Err()]
    answers. *)
Definition read_rows (i : nat) (command : Command) (rows : Rows) : M (option error) :=
  match ScanOnce command with
  | Some scanOnce =>
      match rows_data rows with
      | row :: _ =>
          emit (EvNext i true);;
          do result <- call_ScanOnce i scanOnce row;
          set_slot i result;;
          ret None
      | [] => emit (EvNext i false);; ret (rows_fault rows)
      end
  | None =>
      match Scan command with
      | Some scan =>
          do memo <- scan_loop i scan (Memo command) (rows_data rows);
          set_slot i memo;;
          ret (rows_fault rows)
      | None => ret None
      end
  end.

(** [args := command.Args; if command.ArgsFunc != nil { args = ... }] *)
Definition resolve_args (i : nat) (command : Command) : M (list iface) :=
  match ArgsFunc command with
  | Some f => call_ArgsFunc i f
  | None => ret (Args command)
  end.

(** The branch [command.Affect != 0]. *)
Definition write_check (tx : Tx) (i : nat) (command : Command) (args : list iface) : M unit :=
  do result <- call_Exec tx i (Query command) args;
  do affected <- call_RowsAffected i result;
  let expected := if decide (Affect command < 0) then 0 else Affect command in
  if decide (expected ≠ affected)
  then return_err (expectedDifferentAffectedRows expected affected (Query command))
  else ret tt.

(** The [else] branch. *)
Definition read (tx : Tx) (i : nat) (command : Command) (args : list iface) : M unit :=
  do rows <- call_Query tx i (Query command) args;
  do lasterr <- read_rows i command rows;
  emit (EvErr i);;
  match lasterr with
  | Some e => (do _ <- call_Close i rows; return_err e)
  | None => (do err <- call_Close i rows; check_nil err)
  end.

(** The body of [for i, command := range commands]. *)
Definition command_body (tx : Tx) (i : nat) (command : Command) : M unit :=
  do args <- resolve_args i command;
  if decide (Affect command ≠ 0)
  then write_check tx i command args
  else read tx i command args.

Fixpoint loop (tx : Tx) (i : nat) (commands : list Command) : M unit :=
  match commands with
  | [] => ret tt
  | command :: rest => command_body tx i command;; loop tx (S i) rest
  end.

(** [results := make([]interface{}, len(commands))] *)
Definition enter (commands : list Command) (s : state) : state :=
  set_opened ∅ (set_deferred [] (set_results (replicate (length commands) None) s)).

(** [func Batch(tx *sql.Tx, commands []Command) ([]interface{}, error)] *)
Definition Batch (tx : Tx) (commands : list Command) (s : state)
    : list iface * option error * state :=
  let '(o, s1) := loop tx 0 commands (enter commands s) in
  (results s1, returned o, s1).

End WithTypes.
Arguments Command V W : clear implicits.
End Part001.

(** * src/sqlbatch.go, first unit: [Handler.Batch(commands)] *)
Module Handler.
Section WithTypes.
Context {V W : Type}.
Local Abbreviation iface := (iface V).
Local Abbreviation Row := (Row V).
Local Abbreviation Rows := (Rows V).
Local Abbreviation Tx := (Tx V W).
Local Abbreviation state := (state V W).
Local Abbreviation M := (M V W).

(** [type Command struct]; the callbacks of this unit communicate through
    what they capture, that is through [W]. *)
Record Command := {
  Query : string;
  ArgsFunc : option (W -> list iface * W);
  Args : list iface;
  ScanOnce : option (Row -> W -> option error * W);
  Scan : option (Row -> W -> option error * W);
  Affect : Z
}.

(** [sql.DB], of which only [Begin] is used. *)
Record DB := { db_Begin : W -> res Tx * W }.

(** [type Handler struct] *)
Record Handler := { db : DB }.

(** [func New(db *sql.DB) Handler] *)
Definition New (d : DB) : Handler := {| db := d |}.

(** [command.ArgsFunc()] *)
Definition call_ArgsFunc (i : nat) (f : W -> list iface * W) : M (list iface) :=
  fun s => let '(args, w) := f (world s) in
           (Done args, set_world w (log (EvArgsFunc i []) s)).

(** [err = command.ScanOnce(rows.Scan)] followed by the [err != nil] test. *)
Definition call_ScanOnce (i : nat) (f : Row -> W -> option error * W) (row : Row) : M unit :=
  fun s => let '(err, w) := f row (world s) in
           check_nil err (set_world w (log (EvReadOne i row) s)).

(** [err = command.Scan(rows.Scan)] followed by the [err != nil] test. *)
Definition call_Scan (i : nat) (f : Row -> W -> option error * W) (row : Row) : M unit :=
  fun s => let '(err, w) := f row (world s) in
           check_nil err (set_world w (log (EvReadAll i None row) s)).

(** [for rows.Next() { err = command.Scan(rows.Scan); ... }] *)
Fixpoint scan_loop (i : nat) (f : Row -> W -> option error * W) (pending : list Row) : M unit :=
  match pending with
  | [] => emit (EvNext i false)
  | row :: rest =>
      emit (EvNext i true);;
      call_Scan i f row;;
      scan_loop i f rest
  end.

(** The rows of a read command up to [rows.Err()]; yields what [rows.Err()]
    answers. *)
Definition read_rows (i : nat) (command : Command) (rows : Rows) : M (option error) :=
  match ScanOnce command with
  | Some scanOnce =>
      match rows_data rows with
      | row :: _ =>
          emit (EvNext i true);;
          call_ScanOnce i scanOnce row;;
          ret None
      | [] => emit (EvNext i false);; ret (rows_fault rows)
      end
  | None =>
      match Scan command with
      | Some scan =>
          scan_loop i scan (rows_data rows);;
          ret (rows_fault rows)
      | None => ret None
      end
  end.

(** [args := command.Args; if command.ArgsFunc != nil { args = ... }] *)
Definition resolve_args (i : nat) (command : Command) : M (list iface) :=
  match ArgsFunc command with
  | Some f => call_ArgsFunc i f
  | None => ret (Args command)
  end.

(** The branch [command.Affect != 0]. *)
Definition write_check (tx : Tx) (i : nat) (command : Command) (args : list iface) : M unit :=
  do result <- call_Exec tx i (Query command) args;
  do affected <- call_RowsAffected i result;
  let expected := if decide (Affect command < 0) then 0 else Affect command in
  if decide (expected ≠ affected)
  then return_err (expectedDifferentAffectedRows expected affected (Query command))
  else ret tt.

(** The [else] branch. *)
Definition read (tx : Tx) (i : nat) (command : Command) (args : list iface) : M unit :=
  do rows <- call_Query tx i (Query command) args;
  do lasterr <- read_rows i command rows;
  emit (EvErr i);;
  match lasterr with
  | Some e => (do _ <- call_Close i rows; return_err e)
  | None => (do err <- call_Close i rows; check_nil err)
  end.

(** The body of [for _, command := range commands]; the index only labels
    the trace. *)
Definition command_body (tx : Tx) (i : nat) (command : Command) : M unit :=
  do args <- resolve_args i command;
  if decide (Affect command ≠ 0)
  then write_check tx i command args
  else read tx i command args.

Fixpoint loop (tx : Tx) (i : nat) (commands : list Command) : M unit :=
  match commands with
  | [] => ret tt
  | command :: rest => command_body tx i command;; loop tx (S i) rest
  end.

(** The statements after [defer tx.Rollback()]: the loop, then
    [tx.Commit()], whose answer is dropped, then [return nil]. *)
Definition body (tx : Tx) (commands : list Command) : M unit :=
  loop tx 0 commands;;
  do _ <- call_Commit tx;
  ret tt.

(** A transaction that [Begin] has just delivered is open; the call has
    opened no cursor yet. This unit has no results slice and defers no
    [rows.Close()]. *)
Definition enter (s : state) : state :=
  set_txs TxOpen (set_opened ∅ (set_deferred [] (set_results [] s))).

(** [func (handler Handler) Batch(commands []Command) error]; the second
    component is the state the call leaves behind. The deferred
    [tx.Rollback()] runs on every return that follows it. *)
Definition Batch (handler : Handler) (commands : list Command) (s : state)
    : option error * state :=
  let '(r, w) := db_Begin (db handler) (world s) in
  let s0 := set_world w (log EvBegin s) in
  match r with
  | Fail e => (Some e, s0)
  | Ok tx =>
      let '(o, s1) := body tx commands (enter s0) in
      (returned o, (call_Rollback tx s1).2)
  end.

End WithTypes.
Arguments Command V W : clear implicits.
Arguments DB V W : clear implicits.
Arguments Handler V W : clear implicits.
End Handler.

(** * Vocabulary of the properties *)
Section Vocabulary.
Context {V W : Type}.
Local Abbreviation iface := (iface V).
Local Abbreviation Row := (Row V).
Local Abbreviation event := (event V).
Local Abbreviation state := (state V W).
Local Abbreviation M := (M V W).

(** The command on whose behalf a call is made. *)
Definition ev_cmd (ev : event) : option nat :=
  match ev with
  | EvArgsFunc i _ | EvExec i _ _ | EvRowsAffected i | EvQuery i _ _
  | EvNext i _ | EvReadOne i _ | EvReadAll i _ _ | EvErr i | EvClose i => Some i
  | EvBegin | EvCommit | EvRollback | EvTxDone => None
  end.

(** A call is made for a command whose index satisfies [P]. *)
Definition ev_of (P : nat -> Prop) (ev : event) : Prop :=
  exists j, ev_cmd ev = Some j /\ P j.

(** The driver's commits and rollbacks. *)
Definition finalizes (ev : event) : bool :=
  match ev with
  | EvCommit | EvRollback => true
  | _ => false
  end.

(** The rows handed to the one-row callback of command [i], in call order. *)
Definition readOne_calls (i : nat) (evs : list event) : list Row :=
  omap (fun ev => match ev with
                  | EvReadOne j row => if decide (i = j) then Some row else None
                  | _ => None
                  end) evs.

(** The accumulators and rows handed to the every-row callback of command
    [i], in call order. *)
Definition readAll_calls (i : nat) (evs : list event) : list (iface * Row) :=
  omap (fun ev => match ev with
                  | EvReadAll j memo row => if decide (i = j) then Some (memo, row) else None
                  | _ => None
                  end) evs.

(** What a piece of code run for the commands in [P] may change: it appends
    calls made for those commands to the trace, leaves the transaction status
    alone, keeps the length of [results] and every slot outside [P]; it
    defers closes, opens and closes cursors for the commands in [K] only. *)
Definition frame (P K : nat -> Prop) (s s' : state) : Prop :=
  (exists evs, trace s' = trace s ++ evs /\ Forall (ev_of P) evs) /\
  txs s' = txs s /\
  length (results s') = length (results s) /\
  (forall j, ~ P j -> results s' !! j = results s !! j) /\
  (exists d, deferred s' = d ++ deferred s /\ Forall (fun p => K p.1) d) /\
  (forall j, ~ K j -> (j ∈ opened s' <-> j ∈ opened s)).

Definition within (P K : nat -> Prop) {A} (m : M A) : Prop :=
  forall s, frame P K s (m s).2.

(** No command at all: the [K] of code that touches no cursor. *)
Definition none : nat -> Prop := fun _ => False.

(** The calls a run appended to the trace. *)
Definition appended (s s' : state) : list event :=
  drop (length (trace s)) (trace s').

(** Every cursor the call has open is scheduled to be closed when the call
    returns. *)
Definition covered (s : state) : Prop :=
  forall j, j ∈ opened s -> j ∈ (deferred s).*1.

(** An invariant of the state that a piece of code keeps, however it ends. *)
Definition preserves (I : state -> Prop) {A} (m : M A) : Prop :=
  forall s, I s -> I (m s).2.

(** A call of the trace is not a call of a row callback of command [i]. *)
Definition no_call (i : nat) (ev : event) : Prop :=
  match ev with
  | EvReadOne j _ | EvReadAll j _ _ => j ≠ i
  | _ => True
  end.

(** A call of the trace is a [rows.Close()]. *)
Definition is_close (ev : event) : Prop := exists j, ev = EvClose j.

End Vocabulary.

(** * Vocabulary on [Sqlbatch.Batch] *)
Section SqlbatchVocabulary.
Context {V W : Type}.
Local Abbreviation iface := (iface V).
Local Abbreviation Row := (Row V).
Local Abbreviation Tx := (Tx V W).
Local Abbreviation state := (state V W).
Local Abbreviation Command := (Sqlbatch.Command V W).

(** Command [i] of the batch begins in state [s1]: the commands before it
    have run to their end without error, and left [s1]. *)
Definition sql_begins (tx : Tx) (commands : list Command) (s : state) (i : nat) (s1 : state) : Prop :=
  Sqlbatch.loop tx 0 (take i commands) (Sqlbatch.enter commands s) = (Done tt, s1).

(** The calls of [ReadAll] that a left fold over [rows] makes, from the
    accumulator [memo] in the world [w]: each row in order, with the
    accumulator the previous call returned, up to the first call that returns
    an error. *)
Fixpoint fold_calls (f : iface -> Row -> W -> (iface * option error) * W)
    (memo : iface) (rows : list Row) (w : W) : list (iface * Row) :=
  match rows with
  | [] => []
  | row :: rest =>
      (memo, row) ::
      match f memo row w with
      | ((memo', None), w') => fold_calls f memo' rest w'
      | ((_, Some _), _) => []
      end
  end.

(** The first error a call of that fold returns, if any. *)
Fixpoint fold_error (f : iface -> Row -> W -> (iface * option error) * W)
    (memo : iface) (rows : list Row) (w : W) : option error :=
  match rows with
  | [] => None
  | row :: rest =>
      match f memo row w with
      | ((memo', None), w') => fold_error f memo' rest w'
      | ((_, Some e), _) => Some e
      end
  end.

(** The left fold itself: the accumulator and the world after the last
    row. *)
Definition fold_step (f : iface -> Row -> W -> (iface * option error) * W)
    (acc : iface * W) (row : Row) : iface * W :=
  let '((memo', _), w') := f acc.1 row acc.2 in (memo', w').

Definition fold_ReadAll (f : iface -> Row -> W -> (iface * option error) * W)
    (init : iface) (rows : list Row) (w : W) : iface * W :=
  fold_left (fold_step f) rows (init, w).

(** What the row callback of a read command answers on the rows of its
    cursor, in the world [w] the query left: the first error it returns
    ([ReadOne] is called on the first row only and takes precedence over
    [ReadAll]). *)
Definition decode_error (c : Command) (rows : Rows V) (w : W) : option error :=
  match Sqlbatch.ReadOne c, Sqlbatch.ReadAll c with
  | Some f, _ =>
      match rows_data rows with
      | row :: _ => (f row w).1.2
      | [] => None
      end
  | None, Some f => fold_error f (Sqlbatch.Init c) (rows_data rows) w
  | None, None => None
  end.

(** What [rows.Err()] answers after the rows have been read without a
    callback error: the fault of the cursor, provided [Next] has answered
    false. *)
Definition cursor_error (c : Command) (rows : Rows V) : option error :=
  match Sqlbatch.ReadOne c, Sqlbatch.ReadAll c with
  | Some _, _ =>
      match rows_data rows with
      | _ :: _ => None
      | [] => rows_fault rows
      end
  | None, Some _ => rows_fault rows
  | None, None => None
  end.

(** The value a read command stores in its slot, if it stores one. *)
Definition stored (c : Command) (rows : Rows V) (w : W) : option iface :=
  match Sqlbatch.ReadOne c, Sqlbatch.ReadAll c with
  | Some f, _ =>
      match rows_data rows with
      | row :: _ =>
          match f row w with
          | ((result, None), _) => Some result
          | ((_, Some _), _) => None
          end
      | [] => None
      end
  | None, Some f =>
      match fold_error f (Sqlbatch.Init c) (rows_data rows) w with
      | None => Some (fold_ReadAll f (Sqlbatch.Init c) (rows_data rows) w).1
      | Some _ => None
      end
  | None, None => None
  end.

(** An error arises while command [c], of index [i], is processed from the
    state [s]: the statement fails, the affected rows cannot be had or are
    not the expected number, a row callback fails, the iteration of the
    cursor ends on a fault, or the release of the cursor fails. *)
Inductive sql_fault (tx : Tx) (i : nat) (c : Command) (s : state) : error -> Prop :=
| fault_Exec args s' e w :
    Sqlbatch.resolve_args i c s = (Done args, s') ->
    Sqlbatch.Affect c ≠ 0 ->
    tx_Exec tx (Sqlbatch.Query c) args (world s') = (Fail e, w) ->
    sql_fault tx i c s e
| fault_RowsAffected args s' result e w :
    Sqlbatch.resolve_args i c s = (Done args, s') ->
    Sqlbatch.Affect c ≠ 0 ->
    tx_Exec tx (Sqlbatch.Query c) args (world s') = (Ok result, w) ->
    RowsAffected result = Fail e ->
    sql_fault tx i c s e
| fault_mismatch args s' result affected w :
    Sqlbatch.resolve_args i c s = (Done args, s') ->
    Sqlbatch.Affect c ≠ 0 ->
    tx_Exec tx (Sqlbatch.Query c) args (world s') = (Ok result, w) ->
    RowsAffected result = Ok affected ->
    affected ≠ Z.max (Sqlbatch.Affect c) 0 ->
    sql_fault tx i c s
      (expectedDifferentAffectedRows (Z.max (Sqlbatch.Affect c) 0) affected (Sqlbatch.Query c))
| fault_Query args s' e w :
    Sqlbatch.resolve_args i c s = (Done args, s') ->
    Sqlbatch.Affect c = 0 ->
    tx_Query tx (Sqlbatch.Query c) args (world s') = (Fail e, w) ->
    sql_fault tx i c s e
| fault_decode args s' rows e w :
    Sqlbatch.resolve_args i c s = (Done args, s') ->
    Sqlbatch.Affect c = 0 ->
    tx_Query tx (Sqlbatch.Query c) args (world s') = (Ok rows, w) ->
    decode_error c rows w = Some e ->
    sql_fault tx i c s e
| fault_iteration args s' rows e w :
    Sqlbatch.resolve_args i c s = (Done args, s') ->
    Sqlbatch.Affect c = 0 ->
    tx_Query tx (Sqlbatch.Query c) args (world s') = (Ok rows, w) ->
    decode_error c rows w = None ->
    cursor_error c rows = Some e ->
    sql_fault tx i c s e
| fault_release args s' rows e w :
    Sqlbatch.resolve_args i c s = (Done args, s') ->
    Sqlbatch.Affect c = 0 ->
    tx_Query tx (Sqlbatch.Query c) args (world s') = (Ok rows, w) ->
    decode_error c rows w = None ->
    cursor_error c rows = None ->
    rows_closeErr rows = Some e ->
    sql_fault tx i c s e.

(** The calls of the row callbacks a read command makes on the rows of its
    cursor. *)
Definition one_calls (c : Command) (rows : Rows V) : list Row :=
  match Sqlbatch.ReadOne c with
  | Some _ => take 1 (rows_data rows)
  | None => []
  end.

Definition all_calls (c : Command) (rows : Rows V) (w : W) : list (iface * Row) :=
  match Sqlbatch.ReadOne c, Sqlbatch.ReadAll c with
  | None, Some f => fold_calls f (Sqlbatch.Init c) (rows_data rows) w
  | _, _ => []
  end.

(** How a read command ends once its query has delivered [rows]. *)
Definition read_error (c : Command) (rows : Rows V) (w : W) : option error :=
  match decode_error c rows w with
  | Some e => Some e
  | None =>
      match cursor_error c rows with
      | Some e => Some e
      | None => rows_closeErr rows
      end
  end.

(** How a write-check command ends once [tx.Exec] has answered [r]. *)
Definition write_error (c : Command) (r : res Result) : option error :=
  match r with
  | Fail e => Some e
  | Ok result =>
      match RowsAffected result with
      | Fail e => Some e
      | Ok affected =>
          let expected := Z.max (Sqlbatch.Affect c) 0 in
          if decide (affected = expected) then None
          else Some (expectedDifferentAffectedRows expected affected (Sqlbatch.Query c))
      end
  end.

(** [results] after a read command. *)
Definition store (i : nat) (v : option iface) (results : list iface) : list iface :=
  match v with
  | Some x => <[i:=x]> results
  | None => results
  end.

(** The outcome of a body that returns the error [e], if any. *)
Definition ended (e : option error) : outcome unit :=
  match e with
  | Some e => Return e
  | None => Done tt
  end.

End SqlbatchVocabulary.

(** * Vocabulary on [Part001.Batch] *)
Section Part001Vocabulary.
Context {V W : Type}.

(** Command [i] of the batch begins in state [s1]. *)
Definition p1_begins (tx : Tx V W) (commands : list (Part001.Command V W)) (s : state V W)
    (i : nat) (s1 : state V W) : Prop :=
  Part001.loop tx 0 (take i commands) (Part001.enter commands s) = (Done tt, s1).

End Part001Vocabulary.

(** * Vocabulary of the further properties *)
Section Further.
Context {V W : Type}.
Local Abbreviation iface := (iface V).
Local Abbreviation Row := (Row V).
Local Abbreviation Rows := (Rows V).
Local Abbreviation event := (event V).
Local Abbreviation state := (state V W).

(** The calls of a trace made for command [i], in order. *)
Definition calls_of (i : nat) (evs : list event) : list event :=
  filter (fun ev => ev_cmd ev = Some i) evs.

(** The results handed to the [ArgsFunc] of command [i], in call order. *)
Definition argsFunc_calls (i : nat) (evs : list event) : list (list iface) :=
  omap (fun ev => match ev with
                  | EvArgsFunc j rs => if decide (i = j) then Some rs else None
                  | _ => None
                  end) evs.

(** The answers of [rows.Next()] to command [i], in call order. *)
Definition next_calls (i : nat) (evs : list event) : list bool :=
  omap (fun ev => match ev with
                  | EvNext j more => if decide (i = j) then Some more else None
                  | _ => None
                  end) evs.

(** A call other than [rows.Close()]. *)
Definition not_close (ev : event) : bool :=
  match ev with
  | EvClose _ => false
  | _ => true
  end.

(** The calls of [for rows.Next() { ... ReadAll ... }] on the rows [rows],
    from the accumulator [memo] in the world [w]. *)
Fixpoint fold_events (i : nat) (f : iface -> Row -> W -> (iface * option error) * W)
    (memo : iface) (rows : list Row) (w : W) : list event :=
  match rows with
  | [] => [EvNext i false]
  | row :: rest =>
      EvNext i true :: EvReadAll i memo row ::
      match f memo row w with
      | ((memo', None), w') => fold_events i f memo' rest w'
      | ((_, Some _), _) => []
      end
  end.

(** The calls a read command of src/sqlbatch.go makes on its cursor up to
    [rows.Err()]. *)
Definition rows_events (i : nat) (c : Sqlbatch.Command V W) (rows : Rows) (w : W) : list event :=
  match Sqlbatch.ReadOne c, Sqlbatch.ReadAll c with
  | Some _, _ =>
      match rows_data rows with
      | [] => [EvNext i false]
      | row :: _ => [EvNext i true; EvReadOne i row]
      end
  | None, Some f => fold_events i f (Sqlbatch.Init c) (rows_data rows) w
  | None, None => []
  end.

(** The calls from [rows.Err()] on: none after a callback error, then
    [rows.Err()], then [rows.Close()] unless the cursor ended on a fault. *)
Definition end_events (i : nat) (c : Sqlbatch.Command V W) (rows : Rows) (w : W) : list event :=
  match decode_error c rows w with
  | Some _ => []
  | None =>
      EvErr i ::
      match cursor_error c rows with
      | Some _ => []
      | None => [EvClose i]
      end
  end.

(** The call of [ArgsFunc], if the command has one. *)
Definition args_events (i : nat) (c : Sqlbatch.Command V W) (results : list iface) : list event :=
  match Sqlbatch.ArgsFunc c with
  | Some _ => [EvArgsFunc i results]
  | None => []
  end.

(** The arguments of the statement. *)
Definition args_of (c : Sqlbatch.Command V W) (results : list iface) (w : W) : list iface :=
  match Sqlbatch.ArgsFunc c with
  | Some f => (f results w).1
  | None => Sqlbatch.Args c
  end.

(** The command of src/sqlbatch.go that a command of src/unnamed/part_001
    is, field by field. *)
Definition to_sql (c : Part001.Command V W) : Sqlbatch.Command V W := {|
  Sqlbatch.Query := Part001.Query c;
  Sqlbatch.ArgsFunc := Part001.ArgsFunc c;
  Sqlbatch.Args := Part001.Args c;
  Sqlbatch.Init := Part001.Memo c;
  Sqlbatch.ReadAll := Part001.Scan c;
  Sqlbatch.ReadOne := Part001.ScanOnce c;
  Sqlbatch.Affect := Part001.Affect c
|}.

(** Two states agree on what a caller of [Batch] can observe besides the
    cursors: the world, the results, the status of the transaction, and the
    calls other than [rows.Close()]. *)
Definition agree (s s' : state) : Prop :=
  world s = world s' /\ results s = results s' /\ txs s = txs s' /\
  filter not_close (trace s) = filter not_close (trace s').

(** The statement of a command as the driver sees it: [tx.Exec] for a
    write-check command, [tx.Query] for a read command. *)
Definition execution (i : nat) (c : Sqlbatch.Command V W) (args : list iface) : event :=
  if decide (Sqlbatch.Affect c ≠ 0)
  then EvExec i (Sqlbatch.Query c) args
  else EvQuery i (Sqlbatch.Query c) args.

(** The state without its deferred calls. *)
Definition forget (s : state) : state := set_deferred [] s.

(** A piece of code neither reads nor changes the deferred calls. *)
Definition defer_free {A} (m : M V W A) : Prop :=
  forall d s, m (set_deferred d s) = ((m s).1, set_deferred d (m s).2).

(** Two pieces of code, run from states that differ in their deferred calls
    only, end alike: both run to their end with the same value, in states
    that again differ in their deferred calls only, or both return the same
    error, in states that [agree]. *)
Definition alike {A} (m1 m2 : M V W A) : Prop :=
  forall s p, forget s = forget p ->
    match (m1 s).1, (m2 p).1 with
    | Done a, Done b => a = b /\ forget (m1 s).2 = forget (m2 p).2
    | Return e1, Return e2 => e1 = e2 /\ agree (m1 s).2 (m2 p).2
    | _, _ => False
    end.

(** A read command of src/unnamed/part_001, of index [i] and begun in the
    state [s], has its row callback return the error [e]. *)
Definition p1_leak (tx : Tx V W) (i : nat) (c : Part001.Command V W) (s : state) (e : error) : Prop :=
  exists args sa rows w,
    Part001.Affect c = 0 /\
    Part001.resolve_args i c s = (Done args, sa) /\
    tx_Query tx (Part001.Query c) args (world sa) = (Ok rows, w) /\
    decode_error (to_sql c) rows w = Some e.

(** A row callback of the first unit of src/sqlbatch.go, which returns an
    error only, as a row callback of src/unnamed/part_001 that returns no
    value. *)
Definition valueless (r : option error * W) : (iface * option error) * W :=
  ((None, r.1), r.2).

(** The command of src/unnamed/part_001 that a command of [Handler.Batch]
    is: its callbacks take no results and return no value. *)
Definition to_p1 (c : Handler.Command V W) : Part001.Command V W := {|
  Part001.Query := Handler.Query c;
  Part001.ArgsFunc := (fun f (_ : list iface) w => f w) <$> Handler.ArgsFunc c;
  Part001.Args := Handler.Args c;
  Part001.Memo := None;
  Part001.Scan := (fun f (_ : iface) row w => valueless (f row w)) <$> Handler.Scan c;
  Part001.ScanOnce := (fun f row w => valueless (f row w)) <$> Handler.ScanOnce c;
  Part001.Affect := Handler.Affect c
|}.

(** A call without the results handed to [ArgsFunc], which the callbacks of
    [Handler.Batch] are not given. *)
Definition erase (ev : event) : event :=
  match ev with
  | EvArgsFunc i _ => EvArgsFunc i []
  | _ => ev
  end.

(** A state of [Handler.Batch] and a state of [Part001.Batch] that have the
    same world and the same open cursors, and whose traces, from [base] on,
    hold the same calls. *)
Definition paired (base : list event) (s p : state) : Prop :=
  world s = world p /\ opened s = opened p /\
  exists evs, trace p = base ++ evs /\ trace s = base ++ (erase <$> evs).

(** Two pieces of code, run from paired states, end in paired states, with
    related values or with the same error. *)
Definition paired_runs (base : list event) {A B} (R : A -> B -> Prop)
    (m1 : M V W A) (m2 : M V W B) : Prop :=
  forall s p, paired base s p ->
    match (m1 s).1, (m2 p).1 with
    | Done a, Done b => R a b /\ paired base (m1 s).2 (m2 p).2
    | Return e1, Return e2 => e1 = e2 /\ paired base (m1 s).2 (m2 p).2
    | _, _ => False
    end.
End Further.

(** * Concrete batches

    Values are integers, the world is trivial. The driver reports one
    affected row for every statement; the query [select] has the two rows
    (1) and (2), the query [broken] has the row (1) and then a fault, every
    other query has no row. *)
Module Examples.

Definition rows_of (query : string) : Rows Z :=
  if decide (query = "select")
  then {| rows_data := [[Some 1]; [Some 2]]; rows_fault := None; rows_closeErr := None |}
  else if decide (query = "broken")
  then {| rows_data := [[Some 1]]; rows_fault := Some "connection lost"; rows_closeErr := None |}
  else {| rows_data := []; rows_fault := None; rows_closeErr := None |}.

Definition commit_fails : error := "commit failed".

Definition tx (commit : option error) : Tx Z unit := {|
  tx_Exec _ _ w := (Ok {| RowsAffected := Ok 1 |}, w);
  tx_Query query _ w := (Ok (rows_of query), w);
  tx_Commit w := (commit, w);
  tx_Rollback w := (None, w)
|}.

(** The state before the call: nothing traced yet, the transaction open. *)
Definition start : state Z unit :=
  {| world := tt; trace := []; txs := TxOpen; opened := ∅; results := []; deferred := [] |}.

(** Reads the first column of the row. *)
Definition first_column (row : Row Z) (w : unit) : (iface Z * option error) * unit :=
  match row with
  | Some x :: _ => ((Some x, None), w)
  | _ => ((None, Some "no column"), w)
  end.

(** Adds the first column of the row to the accumulator. *)
Definition add_column (memo : iface Z) (row : Row Z) (w : unit) : (iface Z * option error) * unit :=
  match memo, row with
  | Some m, Some x :: _ => ((Some (m + x), None), w)
  | _, _ => ((memo, Some "not a number"), w)
  end.

(** Fails on every row, after having computed a value. *)
Definition reject (row : Row Z) (w : unit) : (iface Z * option error) * unit :=
  ((Some 7, Some "decode failed"), w).

(** Fails on the second row: on every row once the accumulator is 1. *)
Definition reject_second (memo : iface Z) (row : Row Z) (w : unit)
    : (iface Z * option error) * unit :=
  match memo with
  | Some 0 => ((Some 1, None), w)
  | _ => ((memo, Some "decode failed"), w)
  end.

Definition one : Sqlbatch.Command Z unit := {|
  Sqlbatch.Query := "select"; Sqlbatch.ArgsFunc := None; Sqlbatch.Args := [];
  Sqlbatch.Init := Some 100; Sqlbatch.ReadAll := Some add_column;
  Sqlbatch.ReadOne := Some first_column; Sqlbatch.Affect := 0 |}.

Definition sum : Sqlbatch.Command Z unit := {|
  Sqlbatch.Query := "select"; Sqlbatch.ArgsFunc := None; Sqlbatch.Args := [];
  Sqlbatch.Init := Some 0; Sqlbatch.ReadAll := Some add_column;
  Sqlbatch.ReadOne := None; Sqlbatch.Affect := 0 |}.

Definition none_found : Sqlbatch.Command Z unit := {|
  Sqlbatch.Query := "select nothing"; Sqlbatch.ArgsFunc := None; Sqlbatch.Args := [];
  Sqlbatch.Init := Some 0; Sqlbatch.ReadAll := Some add_column;
  Sqlbatch.ReadOne := Some first_column; Sqlbatch.Affect := 0 |}.

(** Takes its arguments from the results of the commands before it. *)
Definition update : Sqlbatch.Command Z unit := {|
  Sqlbatch.Query := "update"; Sqlbatch.ArgsFunc := Some (fun results w => (take 2 results, w));
  Sqlbatch.Args := [Some 0]; Sqlbatch.Init := None; Sqlbatch.ReadAll := None;
  Sqlbatch.ReadOne := None; Sqlbatch.Affect := 1 |}.

(** Expects no affected row, where the driver reports one. *)
Definition untouched : Sqlbatch.Command Z unit := {|
  Sqlbatch.Query := "delete"; Sqlbatch.ArgsFunc := None; Sqlbatch.Args := [];
  Sqlbatch.Init := None; Sqlbatch.ReadAll := None;
  Sqlbatch.ReadOne := None; Sqlbatch.Affect := -1 |}.

Definition rejecting_one : Sqlbatch.Command Z unit := {|
  Sqlbatch.Query := "select"; Sqlbatch.ArgsFunc := None; Sqlbatch.Args := [];
  Sqlbatch.Init := None; Sqlbatch.ReadAll := None;
  Sqlbatch.ReadOne := Some reject; Sqlbatch.Affect := 0 |}.

Definition rejecting_all : Sqlbatch.Command Z unit := {|
  Sqlbatch.Query := "select"; Sqlbatch.ArgsFunc := None; Sqlbatch.Args := [];
  Sqlbatch.Init := Some 0; Sqlbatch.ReadAll := Some reject_second;
  Sqlbatch.ReadOne := None; Sqlbatch.Affect := 0 |}.

(** Sums the rows of a cursor that ends on a fault. *)
Definition broken_sum : Sqlbatch.Command Z unit := {|
  Sqlbatch.Query := "broken"; Sqlbatch.ArgsFunc := None; Sqlbatch.Args := [];
  Sqlbatch.Init := Some 0; Sqlbatch.ReadAll := Some add_column;
  Sqlbatch.ReadOne := None; Sqlbatch.Affect := 0 |}.

(** A batch whose last command fails on the affected rows. *)
Definition batch : list (Sqlbatch.Command Z unit) := [one; sum; update; untouched].

(** A batch whose commands all succeed. *)
Definition good_batch : list (Sqlbatch.Command Z unit) := [one; none_found; sum; update].

(** A batch whose second command has a failing row callback. *)
Definition rejected_batch : list (Sqlbatch.Command Z unit) := [sum; rejecting_all; update].

(** The state in which command [i] of a batch begins. *)
Definition before (commit : option error) (commands : list (Sqlbatch.Command Z unit)) (i : nat)
    : state Z unit :=
  (Sqlbatch.loop (tx commit) 0 (take i commands) (Sqlbatch.enter commands start)).2.

(** The batch of src/unnamed/part_001 with one read command whose
    [ScanOnce] fails on the row it is given. *)
Definition p1_rejecting : Part001.Command Z unit := {|
  Part001.Query := "select"; Part001.ArgsFunc := None; Part001.Args := [];
  Part001.Memo := None; Part001.Scan := None;
  Part001.ScanOnce := Some reject; Part001.Affect := 0 |}.

Definition p1_read : Part001.Command Z unit := {|
  Part001.Query := "select"; Part001.ArgsFunc := None; Part001.Args := [];
  Part001.Memo := Some 0; Part001.Scan := Some add_column;
  Part001.ScanOnce := None; Part001.Affect := 0 |}.

(** A handler on a database whose [Begin] delivers [tx commit]. *)
Definition handler (commit : option error) : Handler.Handler Z unit :=
  Handler.New {| Handler.db_Begin w := (Ok (tx commit), w) |}.

Definition h_scan (row : Row Z) (w : unit) : option error * unit := (None, w).

Definition h_read : Handler.Command Z unit := {|
  Handler.Query := "select"; Handler.ArgsFunc := None; Handler.Args := [];
  Handler.ScanOnce := None; Handler.Scan := Some h_scan; Handler.Affect := 0 |}.

Definition h_write (n : Z) : Handler.Command Z unit := {|
  Handler.Query := "update"; Handler.ArgsFunc := None; Handler.Args := [];
  Handler.ScanOnce := None; Handler.Scan := None; Handler.Affect := n |}.

End Examples.

(** * More concrete batches *)
Module MoreExamples.

(** A driver on which the statement [bad] and the query [missing] fail; it
    answers the others as [Examples.tx None] does. *)
Definition tx : Tx Z unit := {|
  tx_Exec query _ w :=
    if decide (query = "bad") then (Fail "syntax error", w)
    else (Ok {| RowsAffected := Ok 1 |}, w);
  tx_Query query _ w :=
    if decide (query = "missing") then (Fail "no such table", w)
    else (Ok (Examples.rows_of query), w);
  tx_Commit w := (None, w);
  tx_Rollback w := (None, w)
|}.

(** A write-check command that also has both row callbacks. *)
Definition checked : Sqlbatch.Command Z unit := {|
  Sqlbatch.Query := "update"; Sqlbatch.ArgsFunc := None; Sqlbatch.Args := [Some 5];
  Sqlbatch.Init := Some 0; Sqlbatch.ReadAll := Some Examples.add_column;
  Sqlbatch.ReadOne := Some Examples.first_column; Sqlbatch.Affect := 1 |}.

(** A read command without row callbacks, on a cursor that would end on a
    fault. *)
Definition touch : Sqlbatch.Command Z unit := {|
  Sqlbatch.Query := "broken"; Sqlbatch.ArgsFunc := None; Sqlbatch.Args := [];
  Sqlbatch.Init := None; Sqlbatch.ReadAll := None;
  Sqlbatch.ReadOne := None; Sqlbatch.Affect := 0 |}.

(** Reads the first row of a cursor that would end on a fault. *)
Definition first_of_broken : Sqlbatch.Command Z unit := {|
  Sqlbatch.Query := "broken"; Sqlbatch.ArgsFunc := None; Sqlbatch.Args := [];
  Sqlbatch.Init := None; Sqlbatch.ReadAll := None;
  Sqlbatch.ReadOne := Some Examples.first_column; Sqlbatch.Affect := 0 |}.

(** A read command whose query fails. *)
Definition lost : Sqlbatch.Command Z unit := {|
  Sqlbatch.Query := "missing"; Sqlbatch.ArgsFunc := None; Sqlbatch.Args := [];
  Sqlbatch.Init := Some 0; Sqlbatch.ReadAll := Some Examples.add_column;
  Sqlbatch.ReadOne := None; Sqlbatch.Affect := 0 |}.

Definition batch : list (Sqlbatch.Command Z unit) :=
  [Examples.sum; checked; touch; first_of_broken; lost; Examples.update].

(** The state in which command [i] of [batch] begins. *)
Definition before (i : nat) : state Z unit :=
  (Sqlbatch.loop tx 0 (take i batch) (Sqlbatch.enter batch Examples.start)).2.

(** The command of src/unnamed/part_001 that sums the rows of a cursor that
    ends on a fault. *)
Definition p1_broken_sum : Part001.Command Z unit := {|
  Part001.Query := "broken"; Part001.ArgsFunc := None; Part001.Args := [];
  Part001.Memo := Some 0; Part001.Scan := Some Examples.add_column;
  Part001.ScanOnce := None; Part001.Affect := 0 |}.

End MoreExamples.

(** * Frame lemmas for the collaborator calls *)
Section Frames.
Context {V W : Type}.
Local Abbreviation iface := (iface V).
Local Abbreviation Row := (Row V).
Local Abbreviation Rows := (Rows V).
Local Abbreviation event := (event V).
Local Abbreviation Tx := (Tx V W).
Local Abbreviation state := (state V W).
Local Abbreviation M := (M V W).
Implicit Types (s : state) (P Q K L : nat -> Prop).

Lemma frame_refl P K s : frame P K s s.
Proof.
  unfold frame; split_and!; try done.
  - exists []. by rewrite app_nil_r.
  - by exists [].
Qed.

Lemma frame_trans P K s1 s2 s3 : frame P K s1 s2 -> frame P K s2 s3 -> frame P K s1 s3.
Proof.
  intros ([e1 [T1 F1]] & X1 & L1 & R1 & [d1 [D1 G1]] & O1)
         ([e2 [T2 F2]] & X2 & L2 & R2 & [d2 [D2 G2]] & O2).
  unfold frame. split_and!.
  - exists (e1 ++ e2). rewrite T2, T1, <- app_assoc. split; [done|].
    by apply Forall_app.
  - congruence.
  - congruence.
  - intros j Hj. by rewrite R2, R1.
  - exists (d2 ++ d1). rewrite D2, D1, <- app_assoc. split; [done|].
    by apply Forall_app.
  - intros j Hj. by rewrite O2, O1.
Qed.

Lemma ev_of_mono P Q (ev : event) : (forall j, P j -> Q j) -> ev_of P ev -> ev_of Q ev.
Proof. intros HPQ (j & ? & ?). exists j. auto. Qed.

Lemma ev_of_cmd P i (ev : event) : ev_cmd ev = Some i -> P i -> ev_of P ev.
Proof. intros. by exists i. Qed.

Lemma frame_mono P Q K L s s' :
  (forall j, P j -> Q j) -> (forall j, K j -> L j) -> frame P K s s' -> frame Q L s s'.
Proof.
  intros HPQ HKL ([e [T F]] & X & Len & R & [d [D G]] & O).
  unfold frame. split_and!; try done.
  - exists e. split; [done|]. eapply Forall_impl; [exact F|].
    intros ev. by apply ev_of_mono.
  - intros j Hj. apply R. intros HP. apply Hj. auto.
  - exists d. split; [done|]. eapply Forall_impl; [exact G|]. simpl. auto.
  - intros j Hj. apply O. intros HK. apply Hj. auto.
Qed.

(** Code that touches no cursor leaves the open cursors and the deferred
    calls as they are. *)
Lemma frame_none P s s' :
  frame P none s s' -> opened s' = opened s /\ deferred s' = deferred s.
Proof.
  intros (_ & _ & _ & _ & [d [D G]] & O). split.
  - apply set_eq. intros j. apply O. by intros [].
  - destruct d as [|p d]; [done|]. by inversion G.
Qed.

Lemma frame_log P K (ev : event) s : ev_of P ev -> frame P K s (log ev s).
Proof.
  intros Hev. unfold frame; split_and!; try done.
  - exists [ev]. split; [done|]. by constructor.
  - by exists [].
Qed.

Lemma frame_set_world P K w s : frame P K s (set_world w s).
Proof.
  unfold frame; split_and!; try done.
  - exists []. by rewrite app_nil_r.
  - by exists [].
Qed.

Lemma frame_call P K i (ev : event) w s :
  ev_cmd ev = Some i -> P i -> frame P K s (set_world w (log ev s)).
Proof.
  intros Hev Hi. eapply frame_trans; [|apply frame_set_world].
  apply frame_log. by eapply ev_of_cmd.
Qed.

Lemma frame_set_opened P K (o : gset nat) s :
  (forall j, ~ K j -> (j ∈ o <-> j ∈ opened s)) -> frame P K s (set_opened o s).
Proof.
  intros Ho. unfold frame. split_and!; simpl; try done.
  - exists []. by rewrite app_nil_r.
  - by exists [].
Qed.

Lemma within_ret P K {A} (a : A) : within P K (ret (V:=V) (W:=W) a).
Proof. intros s. apply frame_refl. Qed.

Lemma within_return_err P K {A} e : within P K (return_err (V:=V) (W:=W) (A:=A) e).
Proof. intros s. apply frame_refl. Qed.

Lemma within_bind P K {A B} (m : M A) (k : A -> M B) :
  within P K m -> (forall a, within P K (k a)) -> within P K (bind m k).
Proof.
  intros Hm Hk s. unfold bind. specialize (Hm s).
  destruct (m s) as [[a|e] s1]; simpl in *; [|done].
  eapply frame_trans; [exact Hm|]. apply Hk.
Qed.

Lemma within_mono P Q K L {A} (m : M A) :
  (forall j, P j -> Q j) -> (forall j, K j -> L j) -> within P K m -> within Q L m.
Proof. intros HPQ HKL Hm s. eapply frame_mono; [exact HPQ|exact HKL|]. apply Hm. Qed.

Lemma within_check P K {A} (r : res A) : within P K (check (V:=V) (W:=W) r).
Proof. destruct r; intros s; apply frame_refl. Qed.

Lemma within_check_nil P K (e : option error) : within P K (check_nil (V:=V) (W:=W) e).
Proof. destruct e; intros s; apply frame_refl. Qed.

Lemma within_emit P K (ev : event) : ev_of P ev -> within P K (emit (W:=W) ev).
Proof. intros Hev s. by apply frame_log. Qed.

Lemma within_set_slot P K i (v : iface) : P i -> within P K (set_slot (W:=W) i v).
Proof.
  intros Hi s. unfold frame; split_and!; simpl; try done.
  - exists []. by rewrite app_nil_r.
  - apply length_insert.
  - intros j Hj. apply list_lookup_insert_ne. intros ->. done.
  - by exists [].
Qed.

Lemma within_call_Exec P K (tx : Tx) i query args :
  P i -> within P K (call_Exec tx i query args).
Proof.
  intros Hi s. unfold call_Exec.
  destruct (tx_Exec tx query args (world s)) as [r w].
  eapply frame_trans; [by apply (frame_call P K i (EvExec i query args) w)|].
  apply within_check.
Qed.

Lemma within_call_RowsAffected P K i (result : Result) :
  P i -> within P K (call_RowsAffected (V:=V) (W:=W) i result).
Proof.
  intros Hi s. unfold call_RowsAffected.
  eapply frame_trans; [apply (frame_log P K (EvRowsAffected i)); by eapply ev_of_cmd|].
  apply within_check.
Qed.

Lemma within_call_Query P K (tx : Tx) i query args :
  P i -> K i -> within P K (call_Query tx i query args).
Proof.
  intros Hi Ki s. unfold call_Query.
  destruct (tx_Query tx query args (world s)) as [r w].
  pose proof (frame_call P K i (EvQuery i query args) w s eq_refl Hi) as H0.
  destruct r as [rows|e]; simpl; [|done].
  eapply frame_trans; [exact H0|]. apply frame_set_opened.
  simpl. intros j Hj. rewrite elem_of_union, elem_of_singleton.
  split; [intros [->|?]; done | by right].
Qed.

Lemma within_call_Close P K i (rows : Rows) :
  P i -> K i -> within P K (call_Close (W:=W) i rows).
Proof.
  intros Hi Ki s. unfold call_Close.
  assert (frame P K s (log (EvClose i) s)) as H0.
  { apply (frame_log P K (EvClose i)). by eapply ev_of_cmd. }
  destruct (decide (i ∈ opened s)); simpl; [|done].
  eapply frame_trans; [exact H0|]. apply frame_set_opened.
  simpl. intros j Hj. rewrite elem_of_difference, elem_of_singleton.
  split; [by intros [? _] | intros ?; split; [done | by intros ->]].
Qed.

Lemma within_defer_Close P K i (rows : Rows) :
  K i -> within P K (defer_Close (W:=W) i rows).
Proof.
  intros Ki s. unfold frame; split_and!; simpl; try done.
  - exists []. by rewrite app_nil_r.
  - exists [(i, rows)]. split; [done|]. by constructor.
Qed.

End Frames.

Create HintDb frames discriminated.
#[export] Hint Resolve within_ret within_return_err within_check within_check_nil
  within_emit within_set_slot within_call_Exec within_call_RowsAffected
  within_call_Query within_call_Close within_defer_Close within_bind : frames.
#[export] Hint Extern 1 (ev_of _ _) => (eapply ev_of_cmd; [reflexivity | assumption]) : frames.

(** * Frames of [Sqlbatch.Batch] *)
Section SqlbatchFrames.
Context {V W : Type}.
Local Abbreviation Rows := (Rows V).
Local Abbreviation Tx := (Tx V W).
Local Abbreviation state := (state V W).
Local Abbreviation Command := (Sqlbatch.Command V W).
Implicit Types (s : state) (P K : nat -> Prop) (tx : Tx) (c : Command).

Lemma within_sql_ArgsFunc P K i f :
  P i -> within P K (Sqlbatch.call_ArgsFunc (V:=V) (W:=W) i f).
Proof.
  intros Hi s. unfold Sqlbatch.call_ArgsFunc.
  destruct (f (results s) (world s)) as [args w]. by eapply frame_call.
Qed.

Lemma within_sql_ReadOne P K i f row :
  P i -> within P K (Sqlbatch.call_ReadOne (V:=V) (W:=W) i f row).
Proof.
  intros Hi s. unfold Sqlbatch.call_ReadOne.
  destruct (f row (world s)) as [[result [e|]] w]; by eapply frame_call.
Qed.

Lemma within_sql_ReadAll P K i f memo row :
  P i -> within P K (Sqlbatch.call_ReadAll (V:=V) (W:=W) i f memo row).
Proof.
  intros Hi s. unfold Sqlbatch.call_ReadAll.
  destruct (f memo row (world s)) as [[memo' [e|]] w]; by eapply frame_call.
Qed.

Lemma within_sql_read_all_loop P K i f memo pending :
  P i -> within P K (Sqlbatch.read_all_loop (V:=V) (W:=W) i f memo pending).
Proof.
  intros Hi. revert memo. induction pending as [|row rest IH]; intros memo; simpl.
  - apply within_bind; [|intros; apply within_ret].
    apply within_emit. by eapply ev_of_cmd.
  - apply within_bind; [apply within_emit; by eapply ev_of_cmd|]. intros _.
    apply within_bind; [by apply within_sql_ReadAll|]. intros memo'. apply IH.
Qed.

Lemma within_sql_read_rows P K i c (rows : Rows) :
  P i -> within P K (Sqlbatch.read_rows i c rows).
Proof.
  intros Hi. unfold Sqlbatch.read_rows.
  destruct (Sqlbatch.ReadOne c) as [readOne|].
  - destruct (rows_data rows) as [|row rest].
    + apply within_bind; [apply within_emit; by eapply ev_of_cmd|]. intros _.
      apply within_ret.
    + apply within_bind; [apply within_emit; by eapply ev_of_cmd|]. intros _.
      apply within_bind; [by apply within_sql_ReadOne|]. intros result.
      apply within_bind; [by apply within_set_slot|]. intros _. apply within_ret.
  - destruct (Sqlbatch.ReadAll c) as [readAll|]; [|apply within_ret].
    apply within_bind; [by apply within_sql_read_all_loop|]. intros memo.
    apply within_bind; [by apply within_set_slot|]. intros _. apply within_ret.
Qed.

Lemma within_sql_resolve_args P K i c : P i -> within P K (Sqlbatch.resolve_args i c).
Proof.
  intros Hi. unfold Sqlbatch.resolve_args.
  destruct (Sqlbatch.ArgsFunc c); [by apply within_sql_ArgsFunc | apply within_ret].
Qed.

Lemma within_sql_write_check P K tx i c args :
  P i -> within P K (Sqlbatch.write_check tx i c args).
Proof.
  intros Hi. unfold Sqlbatch.write_check.
  apply within_bind; [by apply within_call_Exec|]. intros result.
  apply within_bind; [by apply within_call_RowsAffected|]. intros affected.
  simpl. case_decide; [apply within_return_err | apply within_ret].
Qed.

Lemma within_sql_read P K tx i c args :
  P i -> K i -> within P K (Sqlbatch.read tx i c args).
Proof.
  intros Hi Ki. unfold Sqlbatch.read.
  apply within_bind; [by apply within_call_Query|]. intros rows.
  apply within_bind; [by apply within_defer_Close|]. intros _.
  apply within_bind; [by apply within_sql_read_rows|]. intros lasterr.
  apply within_bind; [apply within_emit; by eapply ev_of_cmd|]. intros _.
  apply within_bind; [apply within_check_nil|]. intros _.
  apply within_bind; [by apply within_call_Close|]. intros err.
  apply within_check_nil.
Qed.

Lemma within_sql_command_body P K tx i c :
  P i -> K i -> within P K (Sqlbatch.command_body tx i c).
Proof.
  intros Hi Ki. unfold Sqlbatch.command_body.
  apply within_bind; [by apply within_sql_resolve_args|].
  intros args. case_decide; [by apply within_sql_write_check | by apply within_sql_read].
Qed.

Lemma within_sql_loop tx i commands :
  let range := (fun j => i <= j < i + length commands)%nat in
  within range range (Sqlbatch.loop tx i commands).
Proof.
  revert i. induction commands as [|c rest IH]; intros i; simpl.
  - apply within_ret.
  - apply within_bind.
    + apply within_sql_command_body; lia.
    + intros _. eapply within_mono; [| |apply IH]; simpl; lia.
Qed.

(** Running a batch is running a prefix, then the rest with the indexes
    shifted. *)
Lemma sql_loop_app tx i pre post s :
  Sqlbatch.loop tx i (pre ++ post) s =
  bind (Sqlbatch.loop tx i pre) (fun _ => Sqlbatch.loop tx (i + length pre) post) s.
Proof.
  revert i s. induction pre as [|c pre IH]; intros i s; simpl.
  - unfold bind, ret. by rewrite Nat.add_0_r.
  - unfold bind. destruct (Sqlbatch.command_body tx i c s) as [[[]|e] s1]; [|done].
    rewrite IH. unfold bind. by replace (i + S (length pre))%nat with (S i + length pre)%nat by lia.
Qed.

End SqlbatchFrames.

(** * Frames of [Part001.Batch] *)
Section Part001Frames.
Context {V W : Type}.
Local Abbreviation Rows := (Rows V).
Local Abbreviation Tx := (Tx V W).
Local Abbreviation state := (state V W).
Local Abbreviation Command := (Part001.Command V W).
Implicit Types (s : state) (P K : nat -> Prop) (tx : Tx) (c : Command).

Lemma within_p1_ArgsFunc P K i f :
  P i -> within P K (Part001.call_ArgsFunc (V:=V) (W:=W) i f).
Proof.
  intros Hi s. unfold Part001.call_ArgsFunc.
  destruct (f (results s) (world s)) as [args w]. by eapply frame_call.
Qed.

Lemma within_p1_ScanOnce P K i f row :
  P i -> within P K (Part001.call_ScanOnce (V:=V) (W:=W) i f row).
Proof.
  intros Hi s. unfold Part001.call_ScanOnce.
  destruct (f row (world s)) as [[result [e|]] w]; by eapply frame_call.
Qed.

Lemma within_p1_Scan P K i f memo row :
  P i -> within P K (Part001.call_Scan (V:=V) (W:=W) i f memo row).
Proof.
  intros Hi s. unfold Part001.call_Scan.
  destruct (f memo row (world s)) as [[memo' [e|]] w]; by eapply frame_call.
Qed.

Lemma within_p1_scan_loop P K i f memo pending :
  P i -> within P K (Part001.scan_loop (V:=V) (W:=W) i f memo pending).
Proof.
  intros Hi. revert memo.
  induction pending as [|row rest IH]; intros memo; simpl;
    auto 6 using within_p1_Scan with frames.
Qed.

Lemma within_p1_read_rows P K i c (rows : Rows) :
  P i -> within P K (Part001.read_rows i c rows).
Proof.
  intros Hi. unfold Part001.read_rows.
  destruct (Part001.ScanOnce c), (Part001.Scan c), (rows_data rows);
    auto 8 using within_p1_ScanOnce, within_p1_scan_loop with frames.
Qed.

Lemma within_p1_command_body P K tx i c :
  P i -> K i -> within P K (Part001.command_body tx i c).
Proof.
  intros Hi Ki.
  unfold Part001.command_body, Part001.resolve_args, Part001.write_check, Part001.read.
  apply within_bind.
  { destruct (Part001.ArgsFunc c); auto using within_p1_ArgsFunc with frames. }
  intros args. case_decide.
  - do 2 (apply within_bind; [auto with frames|intros ?]).
    simpl. case_decide; auto with frames.
  - do 3 (apply within_bind; [auto using within_p1_read_rows with frames|intros ?]).
    match goal with |- within _ _ (match ?x with _ => _ end) => destruct x end;
      auto 6 with frames.
Qed.

Lemma within_p1_loop tx i commands :
  let range := (fun j => i <= j < i + length commands)%nat in
  within range range (Part001.loop tx i commands).
Proof.
  revert i. induction commands as [|c rest IH]; intros i; simpl.
  - apply within_ret.
  - apply within_bind.
    + apply within_p1_command_body; lia.
    + intros _. eapply within_mono; [| |apply IH]; simpl; lia.
Qed.

Lemma p1_loop_app tx i pre post s :
  Part001.loop tx i (pre ++ post) s =
  bind (Part001.loop tx i pre) (fun _ => Part001.loop tx (i + length pre) post) s.
Proof.
  revert i s. induction pre as [|c pre IH]; intros i s; simpl.
  - unfold bind, ret. by rewrite Nat.add_0_r.
  - unfold bind. destruct (Part001.command_body tx i c s) as [[[]|e] s1]; [|done].
    rewrite IH. unfold bind. by replace (i + S (length pre))%nat with (S i + length pre)%nat by lia.
Qed.

End Part001Frames.

(** * Frames of [Handler.Batch] *)
Section HandlerFrames.
Context {V W : Type}.
Local Abbreviation Rows := (Rows V).
Local Abbreviation Tx := (Tx V W).
Local Abbreviation state := (state V W).
Local Abbreviation Command := (Handler.Command V W).
Implicit Types (s : state) (P K : nat -> Prop) (tx : Tx) (c : Command).

Lemma within_h_ArgsFunc P K i f :
  P i -> within P K (Handler.call_ArgsFunc (V:=V) (W:=W) i f).
Proof.
  intros Hi s. unfold Handler.call_ArgsFunc.
  destruct (f (world s)) as [args w]. by eapply frame_call.
Qed.

Lemma within_h_ScanOnce P K i f row :
  P i -> within P K (Handler.call_ScanOnce (V:=V) (W:=W) i f row).
Proof.
  intros Hi s. unfold Handler.call_ScanOnce.
  destruct (f row (world s)) as [[e|] w]; by eapply frame_call.
Qed.

Lemma within_h_Scan P K i f row :
  P i -> within P K (Handler.call_Scan (V:=V) (W:=W) i f row).
Proof.
  intros Hi s. unfold Handler.call_Scan.
  destruct (f row (world s)) as [[e|] w]; by eapply frame_call.
Qed.

Lemma within_h_scan_loop P K i f pending :
  P i -> within P K (Handler.scan_loop (V:=V) (W:=W) i f pending).
Proof.
  intros Hi. induction pending as [|row rest IH]; simpl;
    auto 6 using within_h_Scan with frames.
Qed.

Lemma within_h_read_rows P K i c (rows : Rows) :
  P i -> within P K (Handler.read_rows i c rows).
Proof.
  intros Hi. unfold Handler.read_rows.
  destruct (Handler.ScanOnce c), (Handler.Scan c), (rows_data rows);
    auto 8 using within_h_ScanOnce, within_h_scan_loop with frames.
Qed.

Lemma within_h_command_body P K tx i c :
  P i -> K i -> within P K (Handler.command_body tx i c).
Proof.
  intros Hi Ki.
  unfold Handler.command_body, Handler.resolve_args, Handler.write_check, Handler.read.
  apply within_bind.
  { destruct (Handler.ArgsFunc c); auto using within_h_ArgsFunc with frames. }
  intros args. case_decide.
  - do 2 (apply within_bind; [auto with frames|intros ?]).
    simpl. case_decide; auto with frames.
  - do 3 (apply within_bind; [auto using within_h_read_rows with frames|intros ?]).
    match goal with |- within _ _ (match ?x with _ => _ end) => destruct x end;
      auto 6 with frames.
Qed.

Lemma within_h_loop tx i commands :
  let range := (fun j => i <= j < i + length commands)%nat in
  within range range (Handler.loop tx i commands).
Proof.
  revert i. induction commands as [|c rest IH]; intros i; simpl.
  - apply within_ret.
  - apply within_bind.
    + apply within_h_command_body; lia.
    + intros _. eapply within_mono; [| |apply IH]; simpl; lia.
Qed.

End HandlerFrames.

(** * Deferred closes *)
Section Deferred.
Context {V W : Type}.
Local Abbreviation Rows := (Rows V).
Local Abbreviation event := (event V).
Local Abbreviation state := (state V W).
Implicit Types (s : state) (d : list (nat * Rows)).

Lemma call_Close_state i (rows : Rows) s :
  let s' := (call_Close i rows s).2 in
  trace s' = trace s ++ [EvClose i] /\ opened s' = opened s ∖ {[i]} /\
  results s' = results s /\ txs s' = txs s /\ world s' = world s /\
  deferred s' = deferred s.
Proof.
  unfold call_Close. destruct (decide (i ∈ opened s)) as [Hin|Hout]; simpl.
  - done.
  - split_and!; try done. apply set_eq. intros j.
    rewrite elem_of_difference, elem_of_singleton. split; [|by intros [? _]].
    intros Hj. split; [done|]. by intros ->.
Qed.

Lemma run_deferred_list_state d s :
  let s' := run_deferred_list d s in
  trace s' = trace s ++ map (fun p => EvClose p.1 : event) d /\
  opened s' = opened s ∖ list_to_set d.*1 /\
  results s' = results s /\ txs s' = txs s /\ world s' = world s /\
  deferred s' = deferred s.
Proof.
  revert s. induction d as [|[i rows] d IH]; intros s; simpl.
  - rewrite app_nil_r. split_and!; try done.
    apply set_eq. intros j. rewrite elem_of_difference. set_unfold. tauto.
  - destruct (IH (call_Close i rows s).2) as (T & O & R & X & Wd & D).
    destruct (call_Close_state i rows s) as (T' & O' & R' & X' & W' & D').
    simpl in *. rewrite T, O, R, X, Wd, D, T', O', R', X', W', D'.
    rewrite <- app_assoc. split_and!; try done.
    apply set_eq. intros j. set_unfold. tauto.
Qed.

Lemma run_deferred_state s :
  let s' := run_deferred s in
  trace s' = trace s ++ map (fun p => EvClose p.1 : event) (deferred s) /\
  opened s' = opened s ∖ list_to_set (deferred s).*1 /\
  results s' = results s /\ txs s' = txs s /\ world s' = world s /\
  deferred s' = [].
Proof. unfold run_deferred. apply (run_deferred_list_state (deferred s) (set_deferred [] s)). Qed.

End Deferred.

(** * Runs of [Sqlbatch.Batch] *)
Section SqlbatchRuns.
Context {V W : Type}.
Local Abbreviation iface := (iface V).
Local Abbreviation Row := (Row V).
Local Abbreviation Rows := (Rows V).
Local Abbreviation event := (event V).
Local Abbreviation Tx := (Tx V W).
Local Abbreviation state := (state V W).
Local Abbreviation M := (M V W).
Local Abbreviation Command := (Sqlbatch.Command V W).
Implicit Types (s : state) (tx : Tx) (c : Command) (commands : list Command).

Lemma bind_unfold {A B} (m : M A) (k : A -> M B) s :
  bind m k s = match m s with
               | (Done a, s') => k a s'
               | (Return e, s') => (Return e, s')
               end.
Proof. done. Qed.

Lemma preserves_bind (I : state -> Prop) {A B} (m : M A) (k : A -> M B) :
  preserves I m -> (forall a, preserves I (k a)) -> preserves I (bind m k).
Proof.
  intros Hm Hk s Hs. rewrite bind_unfold. specialize (Hm s Hs).
  destruct (m s) as [[a|e] s1]; simpl in *; [|done]. by apply Hk.
Qed.

Lemma covered_none P {A} (m : M A) : within P none m -> preserves covered m.
Proof.
  intros Hm s Hs. destruct (frame_none _ _ _ (Hm s)) as [O D].
  unfold covered. by rewrite O, D.
Qed.

Lemma covered_call_Close i (rows : Rows) : preserves covered (call_Close (W:=W) i rows).
Proof.
  intros s Hs j. destruct (call_Close_state i rows s) as (_ & O & _ & _ & _ & D).
  simpl in *. rewrite O, D. rewrite elem_of_difference. intros [Hj _]. by apply Hs.
Qed.

Lemma covered_read tx i c args : preserves covered (Sqlbatch.read tx i c args).
Proof.
  intros s Hs. unfold Sqlbatch.read. rewrite bind_unfold. unfold call_Query.
  destruct (tx_Query tx (Sqlbatch.Query c) args (world s)) as [[rows|e] w]; simpl; [|done].
  rewrite bind_unfold. unfold defer_Close at 1. simpl.
  match goal with |- covered (_ ?s0).2 => assert (covered s0) as Hs0 end.
  { intros j. simpl. rewrite elem_of_union, elem_of_singleton, elem_of_cons.
    intros [->|Hj]; [by left|right]. by apply Hs. }
  revert Hs0. generalize (set_deferred ((i, rows) :: deferred s)
    (set_opened ({[i]} ∪ opened s) (set_world w (log (EvQuery i (Sqlbatch.Query c) args) s)))).
  apply preserves_bind.
  { apply (covered_none (eq i)). by apply within_sql_read_rows. }
  intros lasterr. apply preserves_bind.
  { apply (covered_none (eq i)). apply within_emit. by eapply ev_of_cmd. }
  intros _. apply preserves_bind.
  { apply (covered_none (eq i)). apply within_check_nil. }
  intros _. apply preserves_bind; [apply covered_call_Close|].
  intros err. apply (covered_none (eq i)). apply within_check_nil.
Qed.

Lemma covered_command_body tx i c : preserves covered (Sqlbatch.command_body tx i c).
Proof.
  unfold Sqlbatch.command_body. apply preserves_bind.
  { apply (covered_none (eq i)). by apply within_sql_resolve_args. }
  intros args. case_decide; [|apply covered_read].
  apply (covered_none (eq i)). by apply within_sql_write_check.
Qed.

Lemma covered_loop tx i commands : preserves covered (Sqlbatch.loop tx i commands).
Proof.
  revert i. induction commands as [|c rest IH]; intros i; simpl.
  - by intros s Hs.
  - apply preserves_bind; [apply covered_command_body|]. intros _. apply IH.
Qed.

(** A read that runs to its end has closed its cursor. *)
Lemma read_done_opened tx i c args s s' :
  Sqlbatch.read tx i c args s = (Done tt, s') -> opened s = ∅ -> opened s' = ∅.
Proof.
  unfold Sqlbatch.read. rewrite bind_unfold. unfold call_Query.
  destruct (tx_Query tx (Sqlbatch.Query c) args (world s)) as [[rows|e] w]; simpl; [|done].
  rewrite bind_unfold. unfold defer_Close at 1. simpl.
  rewrite bind_unfold.
  match goal with |- context [Sqlbatch.read_rows i c rows ?s0] =>
    pose proof (within_sql_read_rows (eq i) none i c rows eq_refl s0) as F1;
    destruct (Sqlbatch.read_rows i c rows s0) as [[lasterr|e] s1]; [|done]
  end.
  apply frame_none in F1 as [O1 _]. simpl in O1.
  rewrite bind_unfold. unfold emit at 1.
  rewrite bind_unfold. destruct lasterr as [e|]; simpl; [done|].
  rewrite bind_unfold.
  match goal with |- context [call_Close i rows ?s0] =>
    destruct (call_Close_state i rows s0) as (_ & O2 & _);
    destruct (call_Close i rows s0) as [[err|e] s2]; [|done]
  end.
  simpl in O2. destruct err as [e|]; simpl; [done|].
  intros [= <-] Hs. rewrite O2, O1, Hs. apply set_eq. intros j. set_unfold. tauto.
Qed.

Lemma command_body_done_opened tx i c s s' :
  Sqlbatch.command_body tx i c s = (Done tt, s') -> opened s = ∅ -> opened s' = ∅.
Proof.
  unfold Sqlbatch.command_body. rewrite bind_unfold.
  pose proof (within_sql_resolve_args (eq i) none i c eq_refl s) as F1.
  destruct (Sqlbatch.resolve_args i c s) as [[args|e] s1]; [|done].
  apply frame_none in F1 as [O1 _]. simpl in O1.
  case_decide.
  - pose proof (within_sql_write_check (eq i) none tx i c args eq_refl s1) as F2.
    intros E. rewrite E in F2. apply frame_none in F2 as [O2 _]. simpl in O2. congruence.
  - intros E Hs. eapply read_done_opened; [exact E|]. congruence.
Qed.

Lemma loop_done_opened tx i commands s s' :
  Sqlbatch.loop tx i commands s = (Done tt, s') -> opened s = ∅ -> opened s' = ∅.
Proof.
  revert i s. induction commands as [|c rest IH]; intros i s; simpl.
  - by intros [= <-].
  - rewrite bind_unfold.
    destruct (Sqlbatch.command_body tx i c s) as [[[]|e] s1] eqn:E; [|done].
    intros E' Hs. eapply IH; [exact E'|]. by eapply command_body_done_opened.
Qed.

(** From the state in which command [i] begins, the loop runs the body of
    command [i] and then the commands after it. *)
Lemma sql_loop_at tx commands s i c s1 :
  commands !! i = Some c -> sql_begins tx commands s i s1 ->
  Sqlbatch.loop tx 0 commands (Sqlbatch.enter commands s) =
  bind (Sqlbatch.command_body tx i c)
       (fun _ => Sqlbatch.loop tx (S i) (drop (S i) commands)) s1.
Proof.
  intros Hc Hb. unfold sql_begins in Hb.
  rewrite <- (take_drop_middle commands i c Hc) at 1.
  rewrite sql_loop_app, bind_unfold, Hb. simpl.
  rewrite length_take_le; [done|]. apply lookup_lt_Some in Hc. lia.
Qed.

Lemma sql_begins_frame tx commands s i c s1 :
  commands !! i = Some c -> sql_begins tx commands s i s1 ->
  frame (fun j => j < i)%nat (fun j => j < i)%nat (Sqlbatch.enter commands s) s1.
Proof.
  intros Hc Hb. pose proof (within_sql_loop tx 0 (take i commands) (Sqlbatch.enter commands s)) as F.
  rewrite Hb in F. simpl in F. eapply frame_mono; [| |exact F]; simpl; intros j;
    rewrite length_take; lia.
Qed.

Lemma sql_begins_opened tx commands s i s1 :
  sql_begins tx commands s i s1 -> opened s1 = ∅.
Proof. intros Hb. by eapply loop_done_opened. Qed.

(** When command [i] begins, [results] has one slot per command and the
    slots of command [i] and of the commands after it are unset. *)
Lemma sql_begins_results tx commands s i c s1 :
  commands !! i = Some c -> sql_begins tx commands s i s1 ->
  length (results s1) = length commands /\
  forall j, (i <= j < length commands)%nat -> results s1 !! j = Some None.
Proof.
  intros Hc Hb. destruct (sql_begins_frame _ _ _ _ _ _ Hc Hb) as (_ & _ & L & R & _).
  simpl in *. rewrite length_replicate in L. split; [done|].
  intros j Hj. rewrite R by lia. apply lookup_replicate. split; [done|lia].
Qed.

(** ** The calls a run appends to the trace *)

Lemma appended_eq s s' (evs : list event) : trace s' = trace s ++ evs -> appended s s' = evs.
Proof. intros E. unfold appended. rewrite E. apply drop_app_length. Qed.

Lemma readAll_calls_app i (evs1 evs2 : list event) :
  readAll_calls i (evs1 ++ evs2) = readAll_calls i evs1 ++ readAll_calls i evs2.
Proof. apply omap_app. Qed.

Lemma readOne_calls_app i (evs1 evs2 : list event) :
  readOne_calls i (evs1 ++ evs2) = readOne_calls i evs1 ++ readOne_calls i evs2.
Proof. apply omap_app. Qed.

Lemma readAll_calls_cons i (ev : event) evs :
  readAll_calls i (ev :: evs) = readAll_calls i [ev] ++ readAll_calls i evs.
Proof. apply (readAll_calls_app i [ev] evs). Qed.

Lemma readOne_calls_cons i (ev : event) evs :
  readOne_calls i (ev :: evs) = readOne_calls i [ev] ++ readOne_calls i evs.
Proof. apply (readOne_calls_app i [ev] evs). Qed.

Lemma calls_nil i (evs : list event) :
  Forall (no_call i) evs -> readOne_calls i evs = [] /\ readAll_calls i evs = [].
Proof.
  induction 1 as [|ev evs Hev _ [IH1 IH2]]; [done|].
  rewrite readOne_calls_cons, readAll_calls_cons, IH1, IH2, !app_nil_r.
  unfold readOne_calls, readAll_calls.
  destruct ev; simpl in *; try done; by rewrite decide_False by done.
Qed.

Lemma calls_middle i (evs0 evs1 evs2 : list event) :
  Forall (no_call i) evs0 -> Forall (no_call i) evs2 ->
  readOne_calls i (evs0 ++ evs1 ++ evs2) = readOne_calls i evs1 /\
  readAll_calls i (evs0 ++ evs1 ++ evs2) = readAll_calls i evs1.
Proof.
  intros [H0 H0']%calls_nil [H2 H2']%calls_nil.
  rewrite !readOne_calls_app, !readAll_calls_app, H0, H0', H2, H2'.
  by rewrite !app_nil_r.
Qed.

(** Calls made for other commands, and closes, are no calls of the row
    callbacks of command [i]. *)
Lemma no_call_other i (ev : event) : ev_of (fun j => j ≠ i) ev -> no_call i ev.
Proof. intros (j & Hev & Hj). destruct ev; simpl in *; try done; by injection Hev as ->. Qed.

Lemma no_call_close i (ev : event) : is_close ev -> no_call i ev.
Proof. by intros [j ->]. Qed.

(** ** What the pieces of a read command do *)

Lemma read_all_loop_run i f memo (rows : list Row) s o s' :
  Sqlbatch.read_all_loop i f memo rows s = (o, s') ->
  exists evs, trace s' = trace s ++ evs /\
    readAll_calls i evs = fold_calls f memo rows (world s) /\
    readOne_calls i evs = [] /\
    results s' = results s /\
    match fold_error f memo rows (world s) with
    | Some e => o = Return e
    | None => o = Done (fold_ReadAll f memo rows (world s)).1
    end.
Proof.
  revert memo s. induction rows as [|row rest IH]; intros memo s; simpl.
  - intros [= <- <-]. exists [EvNext i false]. done.
  - rewrite bind_unfold. unfold emit at 1. rewrite bind_unfold.
    unfold Sqlbatch.call_ReadAll at 1. simpl. unfold fold_ReadAll. simpl.
    destruct (f memo row (world s)) as [[memo' [e|]] w] eqn:Ef; simpl.
    + intros [= <- <-]. exists [EvNext i true; EvReadAll i memo row].
      unfold readAll_calls, readOne_calls. simpl. rewrite decide_True by done.
      split_and!; try done. by rewrite <- app_assoc.
    + intros E. destruct (IH _ _ E) as (evs & T & RA & RO & R & O). simpl in *.
      exists ([EvNext i true; EvReadAll i memo row] ++ evs).
      rewrite readAll_calls_app, readOne_calls_app, RA, RO.
      unfold readAll_calls, readOne_calls. simpl. rewrite decide_True by done.
      assert (fold_step f (memo, world s) row = (memo', w)) as ->
        by (unfold fold_step; simpl; by rewrite Ef).
      split_and!; try done. rewrite T. by rewrite <- !app_assoc.
Qed.

(** The rows of a read command: the calls of the callbacks, what is stored
    in the slot, and how it ends. *)
Lemma read_rows_run i c (rows : Rows) s o s' :
  Sqlbatch.read_rows i c rows s = (o, s') ->
  exists evs, trace s' = trace s ++ evs /\
    match Sqlbatch.ReadOne c, Sqlbatch.ReadAll c with
    | Some f, _ =>
        readAll_calls i evs = [] /\
        match rows_data rows with
        | [] => readOne_calls i evs = [] /\ o = Done (rows_fault rows) /\
                results s' = results s
        | row :: _ =>
            readOne_calls i evs = [row] /\
            match f row (world s) with
            | ((result, None), _) =>
                o = Done None /\ results s' = <[i:=result]> (results s)
            | ((_, Some e), _) => o = Return e /\ results s' = results s
            end
        end
    | None, Some f =>
        readOne_calls i evs = [] /\
        readAll_calls i evs = fold_calls f (Sqlbatch.Init c) (rows_data rows) (world s) /\
        match fold_error f (Sqlbatch.Init c) (rows_data rows) (world s) with
        | Some e => o = Return e /\ results s' = results s
        | None =>
            o = Done (rows_fault rows) /\
            results s' =
              <[i:=(fold_ReadAll f (Sqlbatch.Init c) (rows_data rows) (world s)).1]> (results s)
        end
    | None, None => evs = [] /\ o = Done None /\ results s' = results s
    end.
Proof.
  unfold Sqlbatch.read_rows.
  destruct (Sqlbatch.ReadOne c) as [f|]; [|destruct (Sqlbatch.ReadAll c) as [f|]].
  - destruct (rows_data rows) as [|row rest].
    + intros [= <- <-]. by exists [EvNext i false].
    + rewrite bind_unfold. unfold emit at 1. rewrite bind_unfold.
      unfold Sqlbatch.call_ReadOne at 1. simpl.
      destruct (f row (world s)) as [[result [e|]] w]; simpl;
        intros [= <- <-]; exists [EvNext i true; EvReadOne i row];
        unfold readAll_calls, readOne_calls; simpl; rewrite decide_True by done;
        split_and!; try done; by rewrite <- app_assoc.
  - rewrite bind_unfold.
    destruct (Sqlbatch.read_all_loop i f (Sqlbatch.Init c) (rows_data rows) s)
      as [[memo|e] s1] eqn:E;
      destruct (read_all_loop_run _ _ _ _ _ _ _ E) as (evs & T & RA & RO & R & O);
      intros [= <- <-]; exists evs;
      destruct (fold_error f (Sqlbatch.Init c) (rows_data rows) (world s)) as [e'|];
      try done; simpl.
    + injection O as <-. by rewrite R.
    + by injection O as <-.
  - intros [= <- <-]. exists []. by rewrite app_nil_r.
Qed.

(** ** The batch around one command *)

Lemma resolve_args_run i c s :
  exists args s' evs, Sqlbatch.resolve_args i c s = (Done args, s') /\
    trace s' = trace s ++ evs /\ Forall (no_call i) evs /\
    results s' = results s /\ opened s' = opened s /\ deferred s' = deferred s.
Proof.
  unfold Sqlbatch.resolve_args, Sqlbatch.call_ArgsFunc.
  destruct (Sqlbatch.ArgsFunc c) as [f|].
  - destruct (f (results s) (world s)) as [args w].
    eexists _, _, [EvArgsFunc i (results s)]. split_and!; try done. by repeat constructor.
  - eexists _, _, []. split_and!; try done. by rewrite app_nil_r.
Qed.

(** The batch seen from command [i]: what [Batch] returns is decided by the
    body of command [i] and, when that ends without error, by the commands
    after it. *)
Lemma sql_Batch_at tx commands s i c s1 o2 s2 :
  commands !! i = Some c -> sql_begins tx commands s i s1 ->
  Sqlbatch.command_body tx i c s1 = (o2, s2) ->
  exists (o3 : outcome unit) s3,
    Sqlbatch.Batch tx commands s = (results s3, returned o3, run_deferred s3) /\
    frame (fun j => i < j)%nat (fun j => i < j)%nat s2 s3 /\
    match o2 with
    | Return e => o3 = Return e /\ s3 = s2
    | Done _ => True
    end.
Proof.
  intros Hc Hb E. unfold Sqlbatch.Batch.
  rewrite (sql_loop_at _ _ _ _ _ _ Hc Hb), bind_unfold, E.
  destruct o2 as [[]|e].
  - pose proof (within_sql_loop tx (S i) (drop (S i) commands) s2) as F.
    destruct (Sqlbatch.loop tx (S i) (drop (S i) commands) s2) as [o3 s3].
    exists o3, s3. destruct (run_deferred_state s3) as (_ & _ & -> & _).
    split_and!; try done. eapply frame_mono; [| |exact F]; simpl; lia.
  - exists (Return e), s2. destruct (run_deferred_state s2) as (_ & _ & -> & _).
    split_and!; try done. apply frame_refl.
Qed.

(** The trace of the whole call, cut at command [i]. *)
Lemma sql_Batch_trace tx commands s i c s1 o2 s2 :
  commands !! i = Some c -> sql_begins tx commands s i s1 ->
  Sqlbatch.command_body tx i c s1 = (o2, s2) ->
  exists evs1 evs2 evs3,
    trace s1 = trace s ++ evs1 /\ trace s2 = trace s1 ++ evs2 /\
    trace (Sqlbatch.Batch tx commands s).2 = trace s2 ++ evs3 /\
    Forall (ev_of (fun j => j < i)%nat) evs1 /\
    Forall (ev_of (eq i)) evs2 /\
    Forall (fun ev => ev_of (fun j => i < j)%nat ev \/ is_close ev) evs3 /\
    (forall e, o2 = Return e -> Forall is_close evs3).
Proof.
  intros Hc Hb E.
  destruct (sql_begins_frame _ _ _ _ _ _ Hc Hb) as ([evs1 [T1 F1]] & _).
  pose proof (within_sql_command_body (eq i) (eq i) tx i c eq_refl eq_refl s1) as F2.
  rewrite E in F2. destruct F2 as ([evs2 [T2 F2]] & _).
  destruct (sql_Batch_at _ _ _ _ _ _ _ _ Hc Hb E) as (o3 & s3 & -> & ([evs3 [T3 F3]] & _) & Ho).
  destruct (run_deferred_state s3) as (T4 & _). simpl in *.
  exists evs1, evs2, (evs3 ++ map (fun p => EvClose p.1 : event) (deferred s3)).
  assert (Forall is_close (map (fun p => EvClose p.1 : event) (deferred s3))) as Hcl.
  { apply Forall_map, Forall_forall. intros p _. by exists p.1. }
  split_and!; try done.
  - by rewrite T4, T3, app_assoc.
  - apply Forall_app. split.
    + eapply Forall_impl; [exact F3|]. by left.
    + eapply Forall_impl; [exact Hcl|]. by right.
  - intros e ->. destruct Ho as [_ ->].
    assert (evs3 = []) as ->; [|done].
    apply (app_inv_head (trace s2)). by rewrite app_nil_r.
Qed.

(** ** One command, from what the collaborators answer *)

Lemma read_rows_spec i c (rows : Rows) s o s' :
  Sqlbatch.read_rows i c rows s = (o, s') ->
  exists evs, trace s' = trace s ++ evs /\
    readOne_calls i evs = one_calls c rows /\
    readAll_calls i evs = all_calls c rows (world s) /\
    results s' = store i (stored c rows (world s)) (results s) /\
    o = match decode_error c rows (world s) with
        | Some e => Return e
        | None => Done (cursor_error c rows)
        end.
Proof.
  intros E. destruct (read_rows_run _ _ _ _ _ _ E) as (evs & T & H).
  exists evs. split; [done|]. revert H.
  unfold one_calls, all_calls, stored, decode_error, cursor_error.
  destruct (Sqlbatch.ReadOne c) as [f|]; [|destruct (Sqlbatch.ReadAll c) as [f|]].
  - destruct (rows_data rows) as [|row rest]; [by intros (-> & -> & -> & ->)|].
    destruct (f row (world s)) as [[result [e|]] w]; by intros (-> & -> & -> & ->).
  - destruct (fold_error f (Sqlbatch.Init c) (rows_data rows) (world s));
      by intros (-> & -> & -> & ->).
  - by intros (-> & -> & ->).
Qed.

(** The end of a read: [rows.Err()], then [rows.Close()]. *)
Lemma read_end_spec i (rows : Rows) lasterr s o s' :
  i ∈ opened s ->
  bind (emit (EvErr i)) (fun _ => bind (check_nil lasterr) (fun _ =>
    bind (call_Close i rows) (fun err => check_nil err))) s = (o, s') ->
  exists evs, trace s' = trace s ++ evs /\ Forall (no_call i) evs /\
    results s' = results s /\
    o = ended (match lasterr with Some e => Some e | None => rows_closeErr rows end).
Proof.
  intros Hi. rewrite bind_unfold. unfold emit at 1. rewrite bind_unfold.
  destruct lasterr as [e|]; simpl.
  - intros [= <- <-]. exists [EvErr i]. split_and!; try done. by repeat constructor.
  - rewrite bind_unfold. unfold call_Close. simpl. rewrite decide_True by done.
    destruct (rows_closeErr rows) as [e|]; simpl; intros [= <- <-];
      exists [EvErr i; EvClose i]; simpl; rewrite <- app_assoc;
      split_and!; try done; by repeat constructor.
Qed.

(** A read command, from the answer of [tx.Query]. *)
Lemma read_command_spec tx i c s args sa rows w o s' :
  Sqlbatch.Affect c = 0 ->
  Sqlbatch.resolve_args i c s = (Done args, sa) ->
  tx_Query tx (Sqlbatch.Query c) args (world sa) = (Ok rows, w) ->
  Sqlbatch.command_body tx i c s = (o, s') ->
  exists evs, trace s' = trace s ++ evs /\
    readOne_calls i evs = one_calls c rows /\
    readAll_calls i evs = all_calls c rows w /\
    results s' = store i (stored c rows w) (results s) /\
    o = ended (read_error c rows w).
Proof.
  intros Ha Hargs Hq. unfold Sqlbatch.command_body.
  destruct (resolve_args_run i c s) as (args' & sa' & evs0 & E0 & T0 & N0 & R0 & _).
  rewrite Hargs in E0. injection E0 as <- <-.
  rewrite bind_unfold, Hargs, decide_False by (by intros []).
  unfold Sqlbatch.read. rewrite bind_unfold. unfold call_Query. rewrite Hq. simpl.
  rewrite bind_unfold. unfold defer_Close at 1. simpl. rewrite bind_unfold.
  match goal with |- context [Sqlbatch.read_rows i c rows ?s0] => set (s0' := s0) end.
  pose proof (within_sql_read_rows (eq i) none i c rows eq_refl s0') as F1.
  destruct (Sqlbatch.read_rows i c rows s0') as [o_r s_r] eqn:Er.
  apply frame_none in F1 as [O1 _]. simpl in O1.
  destruct (read_rows_spec _ _ _ _ _ _ Er) as (evs1 & T1 & RO & RA & R1 & ->).
  simpl in *. unfold read_error.
  assert (Forall (no_call i) (evs0 ++ [EvQuery i (Sqlbatch.Query c) args])) as N0'.
  { apply Forall_app. split; [done|]. by repeat constructor. }
  destruct (decode_error c rows w) as [e|].
  - intros [= <- <-]. exists ((evs0 ++ [EvQuery i (Sqlbatch.Query c) args]) ++ evs1 ++ []).
    destruct (calls_middle i _ evs1 [] N0') as [-> ->]; [done|].
    rewrite T1, T0, R1, R0, app_nil_r, <- !app_assoc. done.
  - intros E2. apply read_end_spec in E2 as (evs2 & T2 & N2 & R2 & ->).
    2:{ rewrite O1. set_unfold. by left. }
    exists ((evs0 ++ [EvQuery i (Sqlbatch.Query c) args]) ++ evs1 ++ evs2).
    destruct (calls_middle i _ evs1 evs2 N0' N2) as [-> ->].
    rewrite T2, T1, T0, R2, R1, R0, <- !app_assoc.
    by split_and!.
Qed.

(** A write-check command, from the answer of [tx.Exec]. *)
Lemma write_command_spec tx i c s args sa r w o s' :
  Sqlbatch.Affect c ≠ 0 ->
  Sqlbatch.resolve_args i c s = (Done args, sa) ->
  tx_Exec tx (Sqlbatch.Query c) args (world sa) = (r, w) ->
  Sqlbatch.command_body tx i c s = (o, s') ->
  exists evs, trace s' = trace s ++ evs /\ Forall (no_call i) evs /\
    results s' = results s /\
    o = ended (write_error c r).
Proof.
  intros Ha Hargs He. unfold Sqlbatch.command_body.
  destruct (resolve_args_run i c s) as (args' & sa' & evs0 & E0 & T0 & N0 & R0 & _).
  rewrite Hargs in E0. injection E0 as <- <-.
  rewrite bind_unfold, Hargs, decide_True by done.
  unfold Sqlbatch.write_check. rewrite bind_unfold. unfold call_Exec. rewrite He.
  unfold write_error.
  destruct r as [result|e]; simpl.
  - rewrite bind_unfold. unfold call_RowsAffected.
    assert (Forall (no_call i) (evs0 ++ [EvExec i (Sqlbatch.Query c) args; EvRowsAffected i])) as N.
    { apply Forall_app. split; [done|]. by repeat constructor. }
    destruct (RowsAffected result) as [affected|e]; simpl.
    + assert ((if decide (Sqlbatch.Affect c < 0) then 0 else Sqlbatch.Affect c)
              = Z.max (Sqlbatch.Affect c) 0) as -> by (case_decide; lia).
      do 2 case_decide; try congruence; intros [= <- <-];
        exists (evs0 ++ [EvExec i (Sqlbatch.Query c) args; EvRowsAffected i]);
        simpl; by rewrite T0, <- !app_assoc.
    + intros [= <- <-]. exists (evs0 ++ [EvExec i (Sqlbatch.Query c) args; EvRowsAffected i]).
      simpl. by rewrite T0, <- !app_assoc.
  - intros [= <- <-]. exists (evs0 ++ [EvExec i (Sqlbatch.Query c) args]).
    simpl. rewrite T0, <- !app_assoc. split_and!; try done.
    apply Forall_app. split; [done|]. by repeat constructor.
Qed.

(** A read command whose query fails. *)
Lemma query_fail_spec tx i c s args sa e w :
  Sqlbatch.Affect c = 0 ->
  Sqlbatch.resolve_args i c s = (Done args, sa) ->
  tx_Query tx (Sqlbatch.Query c) args (world sa) = (Fail e, w) ->
  Sqlbatch.command_body tx i c s =
    (Return e, set_world w (log (EvQuery i (Sqlbatch.Query c) args) sa)).
Proof.
  intros Ha Hargs Hq. unfold Sqlbatch.command_body.
  rewrite bind_unfold, Hargs, decide_False by (by intros []).
  unfold Sqlbatch.read. rewrite bind_unfold. unfold call_Query. by rewrite Hq.
Qed.

(** The faults are exactly the ways in which the body of a command returns
    an error. *)
Lemma sql_fault_returns tx i c s e :
  sql_fault tx i c s e <-> exists s', Sqlbatch.command_body tx i c s = (Return e, s').
Proof.
  split.
  - destruct (Sqlbatch.command_body tx i c s) as [o s'] eqn:E. intros Hf. exists s'.
    destruct Hf as [args sa e w Hargs Ha He|args sa result e w Hargs Ha He Hr
      |args sa result affected w Hargs Ha He Hr Hne|args sa e w Hargs Ha Hq
      |args sa rows e w Hargs Ha Hq Hd|args sa rows e w Hargs Ha Hq Hd Hc
      |args sa rows e w Hargs Ha Hq Hd Hc Hr].
    + destruct (write_command_spec _ _ _ _ _ _ _ _ _ _ Ha Hargs He E) as (_ & _ & _ & _ & ->).
      done.
    + destruct (write_command_spec _ _ _ _ _ _ _ _ _ _ Ha Hargs He E) as (_ & _ & _ & _ & ->).
      simpl. by rewrite Hr.
    + destruct (write_command_spec _ _ _ _ _ _ _ _ _ _ Ha Hargs He E) as (_ & _ & _ & _ & ->).
      simpl. rewrite Hr. by rewrite decide_False by done.
    + rewrite (query_fail_spec _ _ _ _ _ _ _ _ Ha Hargs Hq) in E. by injection E as <- <-.
    + destruct (read_command_spec _ _ _ _ _ _ _ _ _ _ Ha Hargs Hq E) as (_ & _ & _ & _ & _ & ->).
      unfold read_error. by rewrite Hd.
    + destruct (read_command_spec _ _ _ _ _ _ _ _ _ _ Ha Hargs Hq E) as (_ & _ & _ & _ & _ & ->).
      unfold read_error. by rewrite Hd, Hc.
    + destruct (read_command_spec _ _ _ _ _ _ _ _ _ _ Ha Hargs Hq E) as (_ & _ & _ & _ & _ & ->).
      unfold read_error. by rewrite Hd, Hc, Hr.
  - intros [s' E].
    destruct (resolve_args_run i c s) as (args & sa & _ & Hargs & _).
    destruct (decide (Sqlbatch.Affect c = 0)) as [Ha|Ha].
    + destruct (tx_Query tx (Sqlbatch.Query c) args (world sa)) as [[rows|e'] w] eqn:Hq.
      * destruct (read_command_spec _ _ _ _ _ _ _ _ _ _ Ha Hargs Hq E) as (_ & _ & _ & _ & _ & Ho).
        unfold read_error in Ho.
        destruct (decode_error c rows w) as [e1|] eqn:Hd.
        { injection Ho as ->. by eapply fault_decode. }
        destruct (cursor_error c rows) as [e2|] eqn:Hc.
        { injection Ho as ->. by eapply fault_iteration. }
        destruct (rows_closeErr rows) as [e3|] eqn:Hr; [|done].
        injection Ho as ->. by eapply fault_release.
      * rewrite (query_fail_spec _ _ _ _ _ _ _ _ Ha Hargs Hq) in E. injection E as -> _.
        by eapply fault_Query.
    + destruct (tx_Exec tx (Sqlbatch.Query c) args (world sa)) as [r w] eqn:He.
      destruct (write_command_spec _ _ _ _ _ _ _ _ _ _ Ha Hargs He E) as (_ & _ & _ & _ & Ho).
      destruct r as [result|e']; simpl in Ho.
      * destruct (RowsAffected result) as [affected|e'] eqn:Hr.
        -- case_decide as Hd; [done|]. injection Ho as ->. by eapply fault_mismatch.
        -- injection Ho as ->. by eapply fault_RowsAffected.
      * injection Ho as ->. by eapply fault_Exec.
Qed.

(** ** Slot and callback calls of command [i] in what [Batch] returns *)

Lemma sql_Batch_slot tx commands s i c s1 o2 s2 :
  commands !! i = Some c -> sql_begins tx commands s i s1 ->
  Sqlbatch.command_body tx i c s1 = (o2, s2) ->
  (Sqlbatch.Batch tx commands s).1.1 !! i = results s2 !! i.
Proof.
  intros Hc Hb E.
  destruct (sql_Batch_at _ _ _ _ _ _ _ _ Hc Hb E) as (o3 & s3 & -> & (_ & _ & _ & R & _) & _).
  simpl. apply R. lia.
Qed.

Lemma sql_Batch_calls tx commands s i c s1 o2 s2 evs :
  commands !! i = Some c -> sql_begins tx commands s i s1 ->
  Sqlbatch.command_body tx i c s1 = (o2, s2) ->
  trace s2 = trace s1 ++ evs ->
  readOne_calls i (appended s (Sqlbatch.Batch tx commands s).2) = readOne_calls i evs /\
  readAll_calls i (appended s (Sqlbatch.Batch tx commands s).2) = readAll_calls i evs.
Proof.
  intros Hc Hb E T.
  destruct (sql_Batch_trace _ _ _ _ _ _ _ _ Hc Hb E)
    as (evs1 & evs2 & evs3 & T1 & T2 & T3 & F1 & F2 & F3 & _).
  rewrite T in T2. apply app_inv_head in T2. subst evs2.
  rewrite (appended_eq s _ (evs1 ++ evs ++ evs3))
    by (by rewrite T3, T, T1, <- !app_assoc).
  apply calls_middle.
  - eapply Forall_impl; [exact F1|]. intros ev Hev. apply no_call_other.
    revert Hev. apply ev_of_mono. lia.
  - eapply Forall_impl; [exact F3|]. intros ev [Hev|Hev]; [|by apply no_call_close].
    apply no_call_other. revert Hev. apply ev_of_mono. lia.
Qed.

(** A fold in which no call fails visits every row. *)
Lemma fold_calls_rows (f : iface -> Row -> W -> (iface * option error) * W) memo rows w :
  fold_error f memo rows w = None -> (fold_calls f memo rows w).*2 = rows.
Proof.
  revert memo w. induction rows as [|row rest IH]; intros memo w; simpl; [done|].
  destruct (f memo row w) as [[memo' [e|]] w']; [done|].
  intros H. simpl. f_equal. by apply IH.
Qed.

(** A callback error leaves nothing to store. *)
Lemma decode_error_stored c (rows : Rows) w e :
  decode_error c rows w = Some e -> stored c rows w = None.
Proof.
  unfold decode_error, stored.
  destruct (Sqlbatch.ReadOne c) as [f|]; [|destruct (Sqlbatch.ReadAll c) as [f|]]; [| |done].
  - destruct (rows_data rows) as [|row rest]; [done|].
    by destruct (f row w) as [[result [e'|]] w'].
  - by intros ->.
Qed.

(** The first two calls of a command that has an [ArgsFunc]. *)
Lemma command_first_calls tx i c s f :
  Sqlbatch.ArgsFunc c = Some f ->
  let args := (f (results s) (world s)).1 in
  exists rest,
    trace (Sqlbatch.command_body tx i c s).2 =
    trace s ++ EvArgsFunc i (results s)
      :: (if decide (Sqlbatch.Affect c ≠ 0)
          then EvExec i (Sqlbatch.Query c) args
          else EvQuery i (Sqlbatch.Query c) args) :: rest.
Proof.
  intros Hf. unfold Sqlbatch.command_body. rewrite bind_unfold.
  unfold Sqlbatch.resolve_args, Sqlbatch.call_ArgsFunc. rewrite Hf.
  destruct (f (results s) (world s)) as [args w]. simpl. case_decide.
  - unfold Sqlbatch.write_check. rewrite bind_unfold. unfold call_Exec. simpl.
    destruct (tx_Exec tx (Sqlbatch.Query c) args w) as [[result|e] w'].
    + simpl.
      match goal with |- context [bind ?m ?k ?s0] =>
        assert (within (eq i) none (bind m k)) as F
      end.
      { apply within_bind; [by apply within_call_RowsAffected|]. intros affected.
        simpl. case_decide; [apply within_return_err | apply within_ret]. }
      match type of F with within _ _ ?m =>
        match goal with |- context [m ?s0] => destruct (F s0) as ([evs [T _]] & _) end
      end.
      exists evs. rewrite T. simpl. by rewrite <- !app_assoc.
    + exists []. simpl. by rewrite <- !app_assoc.
  - unfold Sqlbatch.read. rewrite bind_unfold. unfold call_Query. simpl.
    destruct (tx_Query tx (Sqlbatch.Query c) args w) as [[rows|e] w'].
    + simpl.
      match goal with |- context [bind ?m ?k ?s0] =>
        assert (within (eq i) (eq i) (bind m k)) as F
      end.
      { apply within_bind; [by apply within_defer_Close|]. intros _.
        apply within_bind; [by apply within_sql_read_rows|]. intros lasterr.
        apply within_bind; [apply within_emit; by eapply ev_of_cmd|]. intros _.
        apply within_bind; [apply within_check_nil|]. intros _.
        apply within_bind; [by apply within_call_Close|]. intros err.
        apply within_check_nil. }
      match type of F with within _ _ ?m =>
        match goal with |- context [m ?s0] => destruct (F s0) as ([evs [T _]] & _) end
      end.
      exists evs. rewrite T. simpl. by rewrite <- !app_assoc.
    + exists []. simpl. by rewrite <- !app_assoc.
Qed.

(** ** Commands that are reached and commands that are not *)

Lemma sql_begins_next tx commands s i c s1 s2 :
  commands !! i = Some c -> sql_begins tx commands s i s1 ->
  Sqlbatch.command_body tx i c s1 = (Done tt, s2) ->
  sql_begins tx commands s (S i) s2.
Proof.
  unfold sql_begins. intros Hc Hb E.
  rewrite (take_S_r _ _ _ Hc), sql_loop_app, bind_unfold, Hb. simpl.
  rewrite length_take_le by (apply lookup_lt_Some in Hc; lia).
  by rewrite bind_unfold, E.
Qed.

(** Either command [i] begins, or [Batch] has returned an error before: then
    every call is made for an earlier command or is a deferred close, and
    the slots from [i] on are unset. *)
Lemma sql_reach tx commands s i c :
  commands !! i = Some c ->
  (exists s1, sql_begins tx commands s i s1) \/
  (is_Some (Sqlbatch.Batch tx commands s).1.2 /\
   Forall (fun ev => ev_of (fun j => j < i)%nat ev \/ is_close ev)
     (appended s (Sqlbatch.Batch tx commands s).2) /\
   forall j, (i <= j < length commands)%nat ->
     (Sqlbatch.Batch tx commands s).1.1 !! j = Some None).
Proof.
  revert c. induction i as [|k IH]; intros c Hc.
  - left. by exists (Sqlbatch.enter commands s).
  - assert (is_Some (commands !! k)) as [c' Hc'].
    { apply lookup_lt_is_Some. apply lookup_lt_Some in Hc. lia. }
    destruct (IH c' Hc') as [[s1 Hb]|(He & F & R)].
    + destruct (Sqlbatch.command_body tx k c' s1) as [[[]|e] s2] eqn:E.
      { left. exists s2. by eapply sql_begins_next. }
      right.
      destruct (sql_Batch_trace _ _ _ _ _ _ _ _ Hc' Hb E)
        as (evs1 & evs2 & evs3 & T1 & T2 & T3 & F1 & F2 & _ & Hcl).
      specialize (Hcl e eq_refl).
      pose proof (within_sql_command_body (eq k) (eq k) tx k c' eq_refl eq_refl s1) as Fr.
      rewrite E in Fr. destruct Fr as (_ & _ & _ & R2 & _). simpl in R2.
      destruct (sql_Batch_at _ _ _ _ _ _ _ _ Hc' Hb E) as (o3 & s3 & HB & _ & -> & ->).
      rewrite HB in *. simpl in *. split_and!.
      * by eexists.
      * rewrite (appended_eq s (run_deferred s2) (evs1 ++ evs2 ++ evs3))
          by (by rewrite T3, T2, T1, <- !app_assoc).
        rewrite !Forall_app. split_and!.
        -- eapply Forall_impl; [exact F1|]. intros ev Hev. left. revert Hev.
           apply ev_of_mono. lia.
        -- eapply Forall_impl; [exact F2|]. intros ev Hev. left. revert Hev.
           apply ev_of_mono. lia.
        -- eapply Forall_impl; [exact Hcl|]. by right.
      * intros j Hj. rewrite R2 by lia.
        apply (sql_begins_results _ _ _ _ _ _ Hc' Hb). lia.
    + right. split_and!; [done| |].
      * eapply Forall_impl; [exact F|]. intros ev [Hev|Hev]; [left|by right].
        revert Hev. apply ev_of_mono. lia.
      * intros j Hj. apply R. lia.
Qed.

(** However the batch runs, the one-row callback of a command is called at
    most once, and a command that has one never has its every-row callback
    called. *)
Lemma sql_calls_bound tx commands s i c :
  commands !! i = Some c ->
  let calls := appended s (Sqlbatch.Batch tx commands s).2 in
  (length (readOne_calls i calls) <= 1)%nat /\
  (is_Some (Sqlbatch.ReadOne c) -> readAll_calls i calls = []).
Proof.
  intros Hc calls. subst calls.
  destruct (sql_reach tx commands s i c Hc) as [[s1 Hb]|(_ & F & _)].
  - destruct (Sqlbatch.command_body tx i c s1) as [o2 s2] eqn:E.
    destruct (resolve_args_run i c s1) as (args & sa & evs0 & Hargs & T0 & N0 & _).
    destruct (decide (Sqlbatch.Affect c = 0)) as [Ha|Ha].
    + destruct (tx_Query tx (Sqlbatch.Query c) args (world sa)) as [[rows|e] w] eqn:Hq.
      * destruct (read_command_spec _ _ _ _ _ _ _ _ _ _ Ha Hargs Hq E)
          as (evs & T & RO & RA & _).
        destruct (sql_Batch_calls _ _ _ _ _ _ _ _ _ Hc Hb E T) as [-> ->].
        rewrite RO, RA. unfold one_calls, all_calls. split.
        -- destruct (Sqlbatch.ReadOne c); [rewrite length_take|simpl]; lia.
        -- by intros [f ->].
      * rewrite (query_fail_spec _ _ _ _ _ _ _ _ Ha Hargs Hq) in E. injection E as <- <-.
        assert (trace (set_world w (log (EvQuery i (Sqlbatch.Query c) args) sa))
                = trace s1 ++ (evs0 ++ [EvQuery i (Sqlbatch.Query c) args])) as T
          by (simpl; by rewrite T0, <- app_assoc).
        destruct (sql_Batch_calls _ _ _ _ _ _ _ _ _ Hc Hb
                    (query_fail_spec _ _ _ _ _ _ _ _ Ha Hargs Hq) T) as [-> ->].
        assert (Forall (no_call i) (evs0 ++ [EvQuery i (Sqlbatch.Query c) args])) as N.
        { apply Forall_app. split; [done|]. by repeat constructor. }
        destruct (calls_nil i _ N) as [-> ->]. simpl. split; [lia|done].
    + destruct (tx_Exec tx (Sqlbatch.Query c) args (world sa)) as [r w] eqn:He.
      destruct (write_command_spec _ _ _ _ _ _ _ _ _ _ Ha Hargs He E) as (evs & T & N & _).
      destruct (sql_Batch_calls _ _ _ _ _ _ _ _ _ Hc Hb E T) as [-> ->].
      destruct (calls_nil i _ N) as [-> ->]. simpl. split; [lia|done].
  - assert (Forall (no_call i) (appended s (Sqlbatch.Batch tx commands s).2)) as N.
    { eapply Forall_impl; [exact F|]. intros ev [Hev|Hev]; [|by apply no_call_close].
      apply no_call_other. revert Hev. apply ev_of_mono. lia. }
    destruct (calls_nil i _ N) as [-> ->]. simpl. split; [lia|done].
Qed.

End SqlbatchRuns.

(** * Runs of [Part001.Batch] *)
Section Part001Runs.
Context {V W : Type}.
Local Abbreviation Tx := (Tx V W).
Local Abbreviation state := (state V W).
Local Abbreviation Command := (Part001.Command V W).
Implicit Types (s : state) (tx : Tx) (c : Command) (commands : list Command).

Lemma p1_begins_results tx commands s i c s1 :
  commands !! i = Some c -> p1_begins tx commands s i s1 ->
  length (results s1) = length commands /\
  forall j, (i <= j < length commands)%nat -> results s1 !! j = Some None.
Proof.
  intros Hc Hb.
  pose proof (within_p1_loop tx 0 (take i commands) (Part001.enter commands s)) as F.
  rewrite Hb in F. destruct F as (_ & _ & L & R & _). simpl in *.
  rewrite length_replicate in L. split; [done|].
  intros j Hj. rewrite R by (rewrite length_take; lia).
  apply lookup_replicate. split; [done|lia].
Qed.

Lemma p1_begins_next tx commands s i c s1 s2 :
  commands !! i = Some c -> p1_begins tx commands s i s1 ->
  Part001.command_body tx i c s1 = (Done tt, s2) ->
  p1_begins tx commands s (S i) s2.
Proof.
  unfold p1_begins. intros Hc Hb E.
  rewrite (take_S_r _ _ _ Hc), p1_loop_app, bind_unfold, Hb. simpl.
  rewrite length_take_le by (apply lookup_lt_Some in Hc; lia).
  by rewrite bind_unfold, E.
Qed.

(** When the body of command [i] returns an error, [Batch] returns it with
    the results as they are. *)
Lemma p1_Batch_return tx commands s i c s1 e s2 :
  commands !! i = Some c -> p1_begins tx commands s i s1 ->
  Part001.command_body tx i c s1 = (Return e, s2) ->
  Part001.Batch tx commands s = (results s2, Some e, s2).
Proof.
  intros Hc Hb E. unfold Part001.Batch, p1_begins in *.
  rewrite <- (take_drop_middle commands i c Hc) at 1.
  rewrite p1_loop_app, bind_unfold, Hb. simpl.
  rewrite length_take_le by (apply lookup_lt_Some in Hc; lia).
  by rewrite bind_unfold, E.
Qed.

(** Either command [i] begins, or [Batch] has returned an error before and
    the slots from [i] on are unset. *)
Lemma p1_reach tx commands s i c :
  commands !! i = Some c ->
  (exists s1, p1_begins tx commands s i s1) \/
  (is_Some (Part001.Batch tx commands s).1.2 /\
   forall j, (i <= j < length commands)%nat ->
     (Part001.Batch tx commands s).1.1 !! j = Some None).
Proof.
  revert c. induction i as [|k IH]; intros c Hc.
  - left. by exists (Part001.enter commands s).
  - assert (is_Some (commands !! k)) as [c' Hc'].
    { apply lookup_lt_is_Some. apply lookup_lt_Some in Hc. lia. }
    destruct (IH c' Hc') as [[s1 Hb]|(He & R)].
    + destruct (Part001.command_body tx k c' s1) as [[[]|e] s2] eqn:E.
      { left. exists s2. by eapply p1_begins_next. }
      right. rewrite (p1_Batch_return _ _ _ _ _ _ _ _ Hc' Hb E). simpl.
      split; [by eexists|]. intros j Hj.
      pose proof (within_p1_command_body (eq k) (eq k) tx k c' eq_refl eq_refl s1) as Fr.
      rewrite E in Fr. destruct Fr as (_ & _ & _ & R2 & _). simpl in R2.
      rewrite R2 by lia. apply (p1_begins_results _ _ _ _ _ _ Hc' Hb). lia.
    + right. split; [done|]. intros j Hj. apply R. lia.
Qed.

End Part001Runs.

(** * Commit and rollback *)
Section Finalization.
Context {V W : Type}.
Local Abbreviation event := (event V).
Local Abbreviation Tx := (Tx V W).
Local Abbreviation state := (state V W).
Implicit Types (s : state) (tx : Tx).

(** Calls made for a command are neither commits nor rollbacks. *)
Lemma finalizes_ev_of P (evs : list event) :
  Forall (ev_of P) evs -> filter finalizes evs = [].
Proof.
  induction 1 as [|ev evs (j & Hev & _) _ IH]; [done|].
  rewrite filter_cons, IH. by destruct ev.
Qed.

Lemma finalizes_close (evs : list event) :
  Forall is_close evs -> filter finalizes evs = [].
Proof.
  induction 1 as [|ev evs [j ->] _ IH]; [done|]. by rewrite filter_cons, IH.
Qed.

(** The statements of [Handler.Batch] after the deferral of the rollback,
    on an open transaction. *)
Lemma h_body_run tx (commands : list (Handler.Command V W)) s :
  txs s = TxOpen ->
  exists evs sl,
    Forall (ev_of (fun _ => True)) evs /\
    trace sl = trace s ++ evs /\ txs sl = TxOpen /\
    ((Handler.loop tx 0 commands s = (Done tt, sl) /\
      Handler.body tx commands s =
        (Done tt, set_txs TxDone (set_world (tx_Commit tx (world sl)).2 (log EvCommit sl))))
     \/
     (exists e, Handler.loop tx 0 commands s = (Return e, sl) /\
                Handler.body tx commands s = (Return e, sl))).
Proof.
  intros Hs. unfold Handler.body. rewrite bind_unfold.
  destruct (within_h_loop tx 0 commands s) as ([evs [T F]] & X & _).
  destruct (Handler.loop tx 0 commands s) as [[[]|e] sl]; simpl in *.
  - exists evs, sl. rewrite X. split_and!; try done.
    { eapply Forall_impl; [exact F|]. intros ev. by apply ev_of_mono. }
    left. split; [done|]. rewrite bind_unfold. unfold call_Commit. rewrite X, Hs.
    by destruct (tx_Commit tx (world sl)).
  - exists evs, sl. rewrite X. split_and!; try done.
    { eapply Forall_impl; [exact F|]. intros ev. by apply ev_of_mono. }
    right. by exists e.
Qed.

(** The trace and the final status of [Handler.Batch] once [Begin] has
    delivered a transaction. *)
Lemma h_Batch_run (handler : Handler.Handler V W) commands s tx w :
  Handler.db_Begin (Handler.db handler) (world s) = (Ok tx, w) ->
  let s0 := Handler.enter (set_world w (log EvBegin s)) in
  let sf := (Handler.Batch handler commands s).2 in
  exists evs sl,
    Forall (ev_of (fun _ => True)) evs /\
    trace sl = trace s ++ EvBegin :: evs /\
    txs sf = TxDone /\
    ((Handler.loop tx 0 commands s0 = (Done tt, sl) /\
      appended s sf = EvBegin :: evs ++ [EvCommit; EvTxDone] /\
      (Handler.Batch handler commands s).1 = None)
     \/
     (exists e, Handler.loop tx 0 commands s0 = (Return e, sl) /\
                appended s sf = EvBegin :: evs ++ [EvRollback] /\
                (Handler.Batch handler commands s).1 = Some e)).
Proof.
  intros Hbegin s0 sf. subst sf. unfold Handler.Batch. rewrite Hbegin. fold s0.
  destruct (h_body_run tx commands s0 eq_refl) as (evs & sl & F & T & X & H).
  exists evs, sl. simpl in T. rewrite <- app_assoc in T. split_and!; [done|done| |].
  - destruct H as [[_ ->]|(e & _ & ->)]; simpl.
    + unfold call_Rollback. done.
    + unfold call_Rollback. rewrite X. by destruct (tx_Rollback tx (world sl)).
  - destruct H as [[Hl ->]|(e & Hl & ->)]; [left|right; exists e];
      (split; [done|]); simpl; (split; [|done]); apply appended_eq.
    + unfold call_Rollback. simpl. rewrite T. by rewrite <- !app_assoc.
    + unfold call_Rollback. rewrite X. destruct (tx_Rollback tx (world sl)). simpl.
      rewrite T. by rewrite <- !app_assoc.
Qed.

(** [Sqlbatch.Batch] only makes calls for its commands and closes
    cursors. *)
Lemma sql_Batch_frame tx (commands : list (Sqlbatch.Command V W)) s :
  let sf := (Sqlbatch.Batch tx commands s).2 in
  txs sf = txs s /\
  exists evs closes, appended s sf = evs ++ closes /\
    Forall (ev_of (fun j => j < length commands)%nat) evs /\ Forall is_close closes.
Proof.
  unfold Sqlbatch.Batch.
  destruct (within_sql_loop tx 0 commands (Sqlbatch.enter commands s)) as ([evs [T F]] & X & _).
  destruct (Sqlbatch.loop tx 0 commands (Sqlbatch.enter commands s)) as [o s1]. simpl in *.
  destruct (run_deferred_state s1) as (T' & _ & _ & X' & _). simpl in *.
  split; [congruence|]. exists evs, (map (fun p => EvClose p.1 : event) (deferred s1)).
  split_and!.
  - apply appended_eq. by rewrite T', T, app_assoc.
  - eapply Forall_impl; [exact F|]. intros ev. apply ev_of_mono. lia.
  - apply Forall_map, Forall_forall. intros p _. by exists p.1.
Qed.

Lemma p1_Batch_frame tx (commands : list (Part001.Command V W)) s :
  let sf := (Part001.Batch tx commands s).2 in
  txs sf = txs s /\
  exists evs, appended s sf = evs /\ Forall (ev_of (fun j => j < length commands)%nat) evs.
Proof.
  unfold Part001.Batch.
  destruct (within_p1_loop tx 0 commands (Part001.enter commands s)) as ([evs [T F]] & X & _).
  destruct (Part001.loop tx 0 commands (Part001.enter commands s)) as [o s1]. simpl in *.
  split; [done|]. exists evs. split; [by apply appended_eq|].
  eapply Forall_impl; [exact F|]. intros ev. apply ev_of_mono. lia.
Qed.

(** [Sqlbatch.Batch] leaves no cursor open, and none is open when a command
    begins. *)
Lemma Sqlbatch_releases_cursors tx (commands : list (Sqlbatch.Command V W)) s :
  opened (Sqlbatch.Batch tx commands s).2 = ∅ /\
  forall i s1, sql_begins tx commands s i s1 -> opened s1 = ∅.
Proof.
  split; [|intros i s1; apply sql_begins_opened].
  unfold Sqlbatch.Batch.
  pose proof (covered_loop tx 0 commands (Sqlbatch.enter commands s)) as Hcov.
  destruct (Sqlbatch.loop tx 0 commands (Sqlbatch.enter commands s)) as [o s1]. simpl in *.
  destruct (run_deferred_state s1) as (_ & -> & _).
  apply set_eq. intros j. rewrite elem_of_difference, elem_of_list_to_set.
  split; [|by intros ?%elem_of_empty].
  intros [Hj Hn]. destruct Hn. apply Hcov; [|done]. intros k. simpl. by intros ?%elem_of_empty.
Qed.

End Finalization.

(** * The message of the affected-rows error *)
Section Messages.

Lemma pretty_N_char_no_space n : pretty_N_char n ≠ Ascii.Space.
Proof. unfold pretty_N_char. repeat case_match; done. Qed.

Lemma pretty_N_go_no_space x s : no_space s -> no_space (pretty_N_go x s).
Proof.
  revert s. induction (N.lt_wf_0 x) as [x _ IH]. intros s Hs.
  destruct (decide (x = 0)%N) as [->|Hx]; [by rewrite pretty_N_go_0|].
  rewrite pretty_N_go_step by lia. apply IH.
  - apply N.div_lt; lia.
  - simpl. rewrite bool_decide_true by apply pretty_N_char_no_space. done.
Qed.

Lemma pretty_Z_no_space (z : Z) : no_space (pretty z).
Proof.
  assert (forall p : positive, no_space (pretty p)) as Hp.
  { intros p. unfold pretty, pretty_positive, pretty, pretty_N.
    rewrite decide_False by done. by apply pretty_N_go_no_space. }
  destruct z as [|p|p]; [done|apply Hp|]. 
  unfold pretty, pretty_Z. simpl. apply Hp.
Qed.

(** A string without space is delimited by the space that follows it. *)
Lemma append_space_inj x y s t :
  no_space x -> no_space y ->
  x +:+ String Ascii.Space s = y +:+ String Ascii.Space t -> x = y /\ s = t.
Proof.
  revert y. induction x as [|a x IH]; intros [|b y]; simpl.
  - intros _ _ [= ->]. done.
  - intros _ [Hb _]%andb_True [= <- _]. by apply bool_decide_unpack in Hb.
  - intros [Ha _]%andb_True _ [= -> _]. by apply bool_decide_unpack in Ha.
  - intros [_ Hx]%andb_True [_ Hy]%andb_True [= -> H].
    destruct (IH y Hx Hy H) as [-> ->]. done.
Qed.

Lemma append_char_inj x y (a : Ascii.ascii) :
  x +:+ String a "" = y +:+ String a "" -> x = y.
Proof.
  revert y. induction x as [|b x IH]; intros [|c y]; simpl; intros H.
  - done.
  - injection H as _ H. by destruct y.
  - injection H as _ H. by destruct x.
  - injection H as -> H. by rewrite (IH y H).
Qed.

(** The message carries the expected count, the affected count and the
    query: each can be read off it. *)
Lemma expectedDifferentAffectedRows_inj expected affected query expected' affected' query' :
  expectedDifferentAffectedRows expected affected query =
  expectedDifferentAffectedRows expected' affected' query' ->
  expected = expected' /\ affected = affected' /\ query = query'.
Proof.
  unfold expectedDifferentAffectedRows. intros H.
  apply (inj (String.append _)) in H.
  apply append_space_inj in H as [He H]; [|apply pretty_Z_no_space..].
  apply (inj pretty) in He.
  apply (inj (String.append "rows, but ")) in H.
  apply append_space_inj in H as [Ha H]; [|apply pretty_Z_no_space..].
  apply (inj pretty) in Ha.
  apply (inj (String.append "rows affected for query: `")) in H.
  by apply append_char_inj in H.
Qed.

End Messages.

(** * [Part001.Batch] next to [Sqlbatch.Batch] *)
Section Part001AsSqlbatch.
Context {V W : Type}.
Local Abbreviation iface := (iface V).
Local Abbreviation Row := (Row V).
Local Abbreviation Rows := (Rows V).
Local Abbreviation event := (event V).
Local Abbreviation state := (state V W).
Local Abbreviation Tx := (Tx V W).
Local Abbreviation M := (M V W).

Lemma forget_agree (s p : state) : forget s = forget p -> agree s p.
Proof.
  intros H. unfold agree.
  change (world (forget s) = world (forget p) /\ results (forget s) = results (forget p) /\
          txs (forget s) = txs (forget p) /\
          filter not_close (trace (forget s)) = filter not_close (trace (forget p))).
  by rewrite H.
Qed.

Lemma forget_set_deferred d (s : state) : forget (set_deferred d s) = forget s.
Proof. done. Qed.

Lemma set_deferred_forget (s : state) : set_deferred (deferred s) (forget s) = s.
Proof. by destruct s. Qed.

Lemma defer_free_alike {A} (m : M A) : defer_free m -> alike m m.
Proof.
  intros Hm s p H.
  rewrite <- (set_deferred_forget s), <- (set_deferred_forget p), !Hm, H. simpl.
  destruct (m (forget p)) as [[a|e] s']; simpl; [done|].
  split; [done|]. by apply forget_agree.
Qed.

Lemma alike_bind {A B} (m1 m2 : M A) (k1 k2 : A -> M B) :
  alike m1 m2 -> (forall a, alike (k1 a) (k2 a)) -> alike (bind m1 k1) (bind m2 k2).
Proof.
  intros Hm Hk s p H. specialize (Hm s p H). unfold bind.
  destruct (m1 s) as [[a|e1] s'], (m2 p) as [[b|e2] p']; simpl in *; try done.
  destruct Hm as [-> H']. by apply Hk.
Qed.

Lemma defer_free_bind {A B} (m : M A) (k : A -> M B) :
  defer_free m -> (forall a, defer_free (k a)) -> defer_free (bind m k).
Proof.
  intros Hm Hk d s. unfold bind. rewrite Hm.
  destruct (m s) as [[a|e] s']; simpl; [apply Hk|done].
Qed.

Lemma defer_free_ret {A} (a : A) : defer_free (ret a : M A).
Proof. done. Qed.

Lemma defer_free_return_err {A} e : defer_free (return_err e : M A).
Proof. done. Qed.

Lemma defer_free_check {A} (r : res A) : defer_free (check r : M A).
Proof. by destruct r. Qed.

Lemma defer_free_check_nil e : defer_free (check_nil e : M unit).
Proof. by destruct e. Qed.

Lemma defer_free_emit ev : defer_free (emit ev : M unit).
Proof. done. Qed.

Lemma defer_free_set_slot i v : defer_free (set_slot i v : M unit).
Proof. done. Qed.

Lemma defer_free_call_Exec (tx : Tx) i q args : defer_free (call_Exec tx i q args).
Proof.
  intros d s. unfold call_Exec. simpl.
  destruct (tx_Exec tx q args (world s)) as [[r|e] w]; done.
Qed.

Lemma defer_free_call_RowsAffected i (r : Result) : defer_free (call_RowsAffected i r : M Z).
Proof. intros d s. unfold call_RowsAffected. by destruct (RowsAffected r). Qed.

Lemma defer_free_call_Query (tx : Tx) i q args : defer_free (call_Query tx i q args).
Proof.
  intros d s. unfold call_Query. simpl.
  destruct (tx_Query tx q args (world s)) as [[r|e] w]; done.
Qed.

Lemma defer_free_call_Close i (rows : Rows) : defer_free (call_Close i rows : M (option error)).
Proof. intros d s. unfold call_Close. simpl. by case_decide. Qed.

Lemma defer_free_call_ArgsFunc i f : defer_free (Part001.call_ArgsFunc i f : M (list iface)).
Proof.
  intros d s. unfold Part001.call_ArgsFunc. simpl.
  by destruct (f (results s) (world s)).
Qed.

Lemma defer_free_call_ScanOnce i f row : defer_free (Part001.call_ScanOnce i f row : M iface).
Proof.
  intros d s. unfold Part001.call_ScanOnce. simpl.
  by destruct (f row (world s)) as [[r [e|]] w].
Qed.

Lemma defer_free_call_Scan i f memo row : defer_free (Part001.call_Scan i f memo row : M iface).
Proof.
  intros d s. unfold Part001.call_Scan. simpl.
  by destruct (f memo row (world s)) as [[r [e|]] w].
Qed.

Create HintDb defer_free.
#[local] Hint Resolve defer_free_ret defer_free_return_err defer_free_check defer_free_check_nil
  defer_free_emit defer_free_set_slot defer_free_call_Exec defer_free_call_RowsAffected
  defer_free_call_Query defer_free_call_Close defer_free_call_ArgsFunc
  defer_free_call_ScanOnce defer_free_call_Scan : defer_free.
#[local] Hint Extern 2 (defer_free (bind _ _)) => (apply defer_free_bind; [|intros ?]) : defer_free.

Lemma defer_free_scan_loop i f memo (rows : list Row) :
  defer_free (Part001.scan_loop i f memo rows : M iface).
Proof.
  revert memo. induction rows as [|row rest IH]; intros memo; simpl; auto 10 with defer_free.
Qed.

Lemma defer_free_p1_read_rows i (c : Part001.Command V W) (rows : Rows) :
  defer_free (Part001.read_rows i c rows).
Proof.
  pose proof defer_free_scan_loop.
  unfold Part001.read_rows.
  destruct (Part001.ScanOnce c), (Part001.Scan c), (rows_data rows);
    auto 10 with defer_free.
Qed.

Lemma defer_free_p1_resolve_args i (c : Part001.Command V W) :
  defer_free (Part001.resolve_args i c).
Proof. unfold Part001.resolve_args. destruct (Part001.ArgsFunc c); auto with defer_free. Qed.

Lemma defer_free_p1_write_check (tx : Tx) i (c : Part001.Command V W) args :
  defer_free (Part001.write_check tx i c args).
Proof.
  unfold Part001.write_check.
  apply defer_free_bind; [auto with defer_free|]. intros r.
  apply defer_free_bind; [auto with defer_free|]. intros a.
  case_decide; auto with defer_free.
Qed.

(** The loop over the rows is the same code in both files. *)
Lemma scan_loop_read_all_loop i f memo (rows : list Row) (s : state) :
  Part001.scan_loop i f memo rows s = Sqlbatch.read_all_loop i f memo rows s.
Proof.
  revert memo s. induction rows as [|row rest IH]; intros memo s; [done|].
  simpl. unfold bind. simpl.
  change (Part001.call_Scan i f memo row) with (Sqlbatch.call_ReadAll i f memo row).
  destruct (Sqlbatch.call_ReadAll i f memo row (log (EvNext i true) s)) as [[memo'|e] s'];
    [apply IH|done].
Qed.

Lemma p1_read_rows_to_sql i (c : Part001.Command V W) (rows : Rows) (s : state) :
  Part001.read_rows i c rows s = Sqlbatch.read_rows i (to_sql c) rows s.
Proof.
  unfold Part001.read_rows, Sqlbatch.read_rows. simpl.
  destruct (Part001.ScanOnce c); [done|].
  destruct (Part001.Scan c); [|done].
  unfold bind. by rewrite scan_loop_read_all_loop.
Qed.

Lemma alike_ext {A} (m1 m2 m2' : M A) :
  (forall s, m2 s = m2' s) -> alike m1 m2 -> alike m1 m2'.
Proof. intros E H s p Hf. rewrite <- E. by apply H. Qed.

Lemma alike_defer_Close {A} i (rows : Rows) (m1 m2 : M A) :
  alike m1 m2 -> alike m1 (defer_Close i rows;; m2).
Proof. intros H s p Hf. by apply (H s (set_deferred ((i, rows) :: deferred p) p)). Qed.

Lemma agree_close (s p : state) i o :
  agree s p -> agree (set_opened o (log (EvClose i) s)) p.
Proof.
  intros (Hw & Hr & Ht & Hc). unfold agree. simpl.
  split_and!; try done.
  rewrite filter_app, filter_cons_False, filter_nil, app_nil_r. done. by intros ?.
Qed.

Lemma agree_closes (s p : state) closes p' :
  agree s p -> world p' = world p -> results p' = results p -> txs p' = txs p ->
  trace p' = trace p ++ closes -> Forall is_close closes -> agree s p'.
Proof.
  intros (Hw & Hr & Ht & Hc) Hw' Hr' Ht' Hc' F. unfold agree.
  rewrite Hw', Hr', Ht', Hc', filter_app.
  replace (filter not_close closes) with (@nil event); [by rewrite app_nil_r|].
  clear Hc'. induction F as [|ev evs [j ->] F IH]; [done|].
  rewrite filter_cons_False; [done|]. by intros ?.
Qed.

Lemma alike_read (tx : Tx) i (c : Part001.Command V W) args :
  alike (Part001.read tx i c args) (Sqlbatch.read tx i (to_sql c) args).
Proof.
  unfold Part001.read, Sqlbatch.read.
  apply alike_bind; [apply defer_free_alike, defer_free_call_Query|]. intros rows.
  apply alike_defer_Close, alike_bind.
  { apply (alike_ext _ _ _ (p1_read_rows_to_sql i c rows)).
    apply defer_free_alike, defer_free_p1_read_rows. }
  intros lasterr.
  apply alike_bind; [apply defer_free_alike, defer_free_emit|]. intros [].
  destruct lasterr as [e|].
  - intros s p H. unfold bind, call_Close. simpl.
    case_decide; simpl; (split; [done|]); apply forget_agree in H.
    + by apply agree_close.
    + by apply (agree_close s p i (opened s)).
  - intros s p H.
    apply (defer_free_alike (do err <- call_Close i rows; check_nil err)); [|done].
    auto with defer_free.
Qed.

Lemma alike_command_body (tx : Tx) i (c : Part001.Command V W) :
  alike (Part001.command_body tx i c) (Sqlbatch.command_body tx i (to_sql c)).
Proof.
  unfold Part001.command_body, Sqlbatch.command_body.
  apply alike_bind.
  - apply (defer_free_alike (Part001.resolve_args i c)), defer_free_p1_resolve_args.
  - intros args. simpl. case_decide.
    + apply (defer_free_alike (Part001.write_check tx i c args)), defer_free_p1_write_check.
    + apply alike_read.
Qed.

Lemma alike_loop (tx : Tx) i (commands : list (Part001.Command V W)) :
  alike (Part001.loop tx i commands) (Sqlbatch.loop tx i (to_sql <$> commands)).
Proof.
  revert i. induction commands as [|c rest IH]; intros i.
  - apply (defer_free_alike (ret tt)), defer_free_ret.
  - apply alike_bind; [apply alike_command_body|]. intros _. apply IH.
Qed.

Lemma p1_Batch_to_sql (tx : Tx) (commands : list (Part001.Command V W)) (s : state) :
  (Part001.Batch tx commands s).1 = (Sqlbatch.Batch tx (to_sql <$> commands) s).1 /\
  agree (Part001.Batch tx commands s).2 (Sqlbatch.Batch tx (to_sql <$> commands) s).2.
Proof.
  unfold Part001.Batch, Sqlbatch.Batch.
  pose proof (alike_loop tx 0 commands (Part001.enter commands s)
                (Sqlbatch.enter (to_sql <$> commands) s)) as H.
  destruct (Part001.loop tx 0 commands (Part001.enter commands s)) as [o1 s1].
  destruct (Sqlbatch.loop tx 0 (to_sql <$> commands) (Sqlbatch.enter (to_sql <$> commands) s))
    as [o2 p1].
  destruct (run_deferred_state p1) as (T & _ & R & X & Wd & _). simpl in *.
  assert (agree s1 p1 /\ returned o1 = returned o2) as [Ha Ho].
  { destruct o1 as [[]|e1], o2 as [[]|e2]; try (exfalso; apply H);
      try (unfold Part001.enter, Sqlbatch.enter, forget; simpl; by rewrite length_fmap).
    - split; [|done]. apply forget_agree, H.
      unfold Part001.enter, Sqlbatch.enter, forget; simpl; by rewrite length_fmap.
    - destruct H as [-> H]; [|done].
      unfold Part001.enter, Sqlbatch.enter, forget; simpl; by rewrite length_fmap. }
  split.
  - rewrite R, Ho. by destruct Ha as (_ & -> & _).
  - eapply agree_closes; [done..|].
    clear. induction (deferred p1) as [|[j r] d IH]; constructor; [by exists j|done].
Qed.

(** The slot of a command that is reached, in the results [Batch] returns. *)
Lemma sql_reached_slot (tx : Tx) (commands : list (Sqlbatch.Command V W)) (s : state) i c s1 :
  commands !! i = Some c -> sql_begins tx commands s i s1 ->
  let slot := (Sqlbatch.Batch tx commands s).1.1 !! i in
  (Sqlbatch.Affect c ≠ 0 -> slot = Some None) /\
  (forall args sa, Sqlbatch.Affect c = 0 ->
     Sqlbatch.resolve_args i c s1 = (Done args, sa) ->
     match tx_Query tx (Sqlbatch.Query c) args (world sa) with
     | (Fail _, _) => slot = Some None
     | (Ok rows, w) =>
         slot = Some (default None (stored c rows w)) /\
         (is_Some (decode_error c rows w) -> slot = Some None)
     end).
Proof.
  intros Hc Hb slot. subst slot.
  assert (results s1 !! i = Some None) as Hi.
  { apply (sql_begins_results _ _ _ _ _ _ Hc Hb). apply lookup_lt_Some in Hc. lia. }
  destruct (Sqlbatch.command_body tx i c s1) as [o2 s2] eqn:E.
  rewrite (sql_Batch_slot _ _ _ _ _ _ _ _ Hc Hb E).
  split.
  - intros Ha. destruct (resolve_args_run i c s1) as (args & sa & _ & Hargs & _).
    destruct (tx_Exec tx (Sqlbatch.Query c) args (world sa)) as [r w] eqn:He.
    destruct (write_command_spec _ _ _ _ _ _ _ _ _ _ Ha Hargs He E) as (_ & _ & _ & -> & _).
    done.
  - intros args sa Ha Hargs.
    destruct (tx_Query tx (Sqlbatch.Query c) args (world sa)) as [[rows|e] w] eqn:Hq.
    + destruct (read_command_spec _ _ _ _ _ _ _ _ _ _ Ha Hargs Hq E) as (_ & _ & _ & _ & -> & _).
      assert (store i (stored c rows w) (results s1) !! i = Some (default None (stored c rows w)))
        as Hs.
      { destruct (stored c rows w) as [v|]; simpl; [|done].
        apply list_lookup_insert_eq. by eapply lookup_lt_Some. }
      split; [done|]. intros [e He]. rewrite Hs.
      by rewrite (decode_error_stored _ _ _ _ He).
    + rewrite (query_fail_spec _ _ _ _ _ _ _ _ Ha Hargs Hq) in E. injection E as _ <-.
      destruct (resolve_args_run i c s1) as (args' & sa' & _ & Hargs' & _ & _ & Rr & _).
      rewrite Hargs in Hargs'. injection Hargs' as _ <-. simpl. by rewrite Rr.
Qed.

Lemma p1_begins_to_sql (tx : Tx) (commands : list (Part001.Command V W)) (s : state) i s1 :
  p1_begins tx commands s i s1 ->
  exists p1, sql_begins tx (to_sql <$> commands) s i p1 /\ forget s1 = forget p1.
Proof.
  intros Hb. unfold p1_begins in Hb. unfold sql_begins.
  pose proof (alike_loop tx 0 (take i commands) (Part001.enter commands s)
                (Sqlbatch.enter (to_sql <$> commands) s)) as H.
  rewrite Hb, fmap_take in H.
  destruct (Sqlbatch.loop tx 0 (take i (to_sql <$> commands))
              (Sqlbatch.enter (to_sql <$> commands) s)) as [[[]|e] p1]; simpl in H.
  - exists p1. split; [done|]. apply H.
    unfold Part001.enter, Sqlbatch.enter, forget. simpl. by rewrite length_fmap.
  - destruct H. unfold Part001.enter, Sqlbatch.enter, forget. simpl. by rewrite length_fmap.
Qed.

Lemma p1_resolve_args_to_sql i (c : Part001.Command V W) (s1 p1 : state) args sa :
  forget s1 = forget p1 ->
  Part001.resolve_args i c s1 = (Done args, sa) ->
  exists pa, Sqlbatch.resolve_args i (to_sql c) p1 = (Done args, pa) /\ world pa = world sa.
Proof.
  intros Hf Hargs.
  change (Sqlbatch.resolve_args i (to_sql c) p1) with (Part001.resolve_args i c p1).
  pose proof (defer_free_p1_resolve_args i c) as D.
  rewrite <- (set_deferred_forget p1), <- Hf, D.
  rewrite <- (set_deferred_forget s1), D in Hargs.
  destruct (Part001.resolve_args i c (forget s1)) as [o x]. simpl in *.
  injection Hargs as -> <-. by eexists.
Qed.

Lemma p1_reached_slot (tx : Tx) (commands : list (Part001.Command V W)) (s : state) i c s1 :
  commands !! i = Some c -> p1_begins tx commands s i s1 ->
  let slot := (Part001.Batch tx commands s).1.1 !! i in
  (Part001.Affect c ≠ 0 -> slot = Some None) /\
  (forall args sa, Part001.Affect c = 0 ->
     Part001.resolve_args i c s1 = (Done args, sa) ->
     match tx_Query tx (Part001.Query c) args (world sa) with
     | (Fail _, _) => slot = Some None
     | (Ok rows, w) =>
         slot = Some (default None (stored (to_sql c) rows w)) /\
         (is_Some (decode_error (to_sql c) rows w) -> slot = Some None)
     end).
Proof.
  intros Hc Hb slot. subst slot.
  destruct (p1_begins_to_sql _ _ _ _ _ Hb) as (p1 & Hb' & Hf).
  destruct (p1_Batch_to_sql tx commands s) as [-> _].
  assert ((to_sql <$> commands) !! i = Some (to_sql c)) as Hc' by (by rewrite list_lookup_fmap, Hc).
  destruct (sql_reached_slot _ _ _ _ _ _ Hc' Hb') as [Hw Hr]. split; [done|].
  intros args sa Ha Hargs.
  destruct (p1_resolve_args_to_sql _ _ _ _ _ _ Hf Hargs) as (pa & Hargs' & <-).
  apply (Hr args pa Ha Hargs').
Qed.

End Part001AsSqlbatch.

(** * The claims *)

(** C1, as amended. When all the commands of a batch complete without
    error, [Handler.Batch] calls [Commit] on the transaction once, after the
    calls made for the commands (the deferred [Rollback] then finds the
    transaction finished), and returns nil when the commit succeeds. The
    results-returning [Batch] does not commit: it returns the results, one
    slot per command, with a nil error, performs neither commit nor rollback
    and leaves the transaction as it received it. *)
Theorem commit_after_success {V W : Type} :
  (forall (handler : Handler.Handler V W) commands (s : state V W) tx w,
     Handler.db_Begin (Handler.db handler) (world s) = (Ok tx, w) ->
     let ran := Handler.loop tx 0 commands (Handler.enter (set_world w (log EvBegin s))) in
     ran.1 = Done tt ->
     (exists evs,
        appended s (Handler.Batch handler commands s).2 = EvBegin :: evs ++ [EvCommit; EvTxDone] /\
        Forall (ev_of (fun _ => True)) evs) /\
     ((tx_Commit tx (world ran.2)).1 = None -> (Handler.Batch handler commands s).1 = None)) /\
  (forall (tx : Tx V W) (commands : list (Sqlbatch.Command V W)) (s : state V W),
     (Sqlbatch.loop tx 0 commands (Sqlbatch.enter commands s)).1 = Done tt ->
     let r := Sqlbatch.Batch tx commands s in
     r.1.2 = None /\ length r.1.1 = length commands /\
     filter finalizes (appended s r.2) = [] /\ txs r.2 = txs s).
Proof.
  split.
  - intros handler commands s tx w Hbegin ran Hran.
    destruct (h_Batch_run handler commands s tx w Hbegin) as (evs & sl & F & _ & _ & H).
    fold ran in H. destruct H as [(Hl & T & R)|(e & Hl & _)].
    + split; [by exists evs|]. done.
    + rewrite Hl in Hran. done.
  - intros tx commands s Hran r. subst r.
    destruct (sql_Batch_frame tx commands s) as (X & evs & closes & T & F & Fc).
    simpl in X, T. rewrite T, filter_app, (finalizes_ev_of _ _ F), (finalizes_close _ Fc).
    split_and!; try done.
    + unfold Sqlbatch.Batch.
      destruct (Sqlbatch.loop tx 0 commands (Sqlbatch.enter commands s)) as [o s1].
      simpl in *. by subst o.
    + pose proof (within_sql_loop tx 0 commands (Sqlbatch.enter commands s)) as (_ & _ & L & _).
      unfold Sqlbatch.Batch.
      destruct (Sqlbatch.loop tx 0 commands (Sqlbatch.enter commands s)) as [o s1]. simpl in *.
      destruct (run_deferred_state s1) as (_ & _ & -> & _). rewrite L. apply length_replicate.
Qed.

(** C1, as stated, fails. On a batch whose commands all succeed, the
    results-returning [Batch] returns the results with a nil error without
    any commit: the transaction it received open is still open. *)
Lemma commit_counterexample :
  let r := Sqlbatch.Batch (Examples.tx None) Examples.good_batch Examples.start in
  (Sqlbatch.loop (Examples.tx None) 0 Examples.good_batch
     (Sqlbatch.enter Examples.good_batch Examples.start)).1 = Done tt /\
  r.1 = ([Some 1; None; Some 3; None], None) /\
  filter finalizes (trace r.2) = [] /\ txs r.2 = TxOpen.
Proof. vm_compute. done. Qed.

(** What [Handler.Batch] does with the answer of [tx.Commit()]: on a batch
    whose commands all succeed and whose commit fails, it has committed and
    returns nil. *)
Example Handler_drops_commit_error :
  let r := Handler.Batch (Examples.handler (Some Examples.commit_fails))
             [Examples.h_read; Examples.h_write 1] Examples.start in
  filter finalizes (trace r.2) = [EvCommit] /\
  tx_Commit (Examples.tx (Some Examples.commit_fails)) tt = (Some Examples.commit_fails, tt) /\
  r.1 = None.
Proof. vm_compute. done. Qed.

(** C1, as amended, on a handler whose commit succeeds and on
    [Examples.good_batch]. *)
Lemma commit_after_success_witness :
  (let r := Handler.Batch (Examples.handler None)
              [Examples.h_read; Examples.h_write 1] Examples.start in
   (exists evs, appended Examples.start r.2 = EvBegin :: evs ++ [EvCommit; EvTxDone] /\
                Forall (ev_of (fun _ => True)) evs) /\
   r.1 = None) /\
  (let r := Sqlbatch.Batch (Examples.tx None) Examples.good_batch Examples.start in
   r.1.2 = None /\ length r.1.1 = length Examples.good_batch /\
   filter finalizes (appended Examples.start r.2) = [] /\ txs r.2 = txs Examples.start).
Proof.
  destruct (@commit_after_success Z unit) as [H1 H2]. split.
  - destruct (H1 (Examples.handler None) [Examples.h_read; Examples.h_write 1]
                Examples.start (Examples.tx None) tt eq_refl eq_refl) as [Ha Hb].
    split; [exact Ha|]. by apply Hb.
  - by apply (H2 (Examples.tx None) Examples.good_batch Examples.start).
Defined.

(** C2, as amended. Once [Begin] has delivered the transaction, every call
    of [Handler.Batch] finishes it before returning, and the driver performs
    exactly one commit or rollback for it. The [Batch] functions that
    receive the transaction (src/sqlbatch.go and src/unnamed/part_001)
    perform neither and return the transaction in the status they received
    it in. *)
Theorem transaction_finalized_once {V W : Type} :
  (forall (handler : Handler.Handler V W) commands (s : state V W) tx w,
     Handler.db_Begin (Handler.db handler) (world s) = (Ok tx, w) ->
     let sf := (Handler.Batch handler commands s).2 in
     txs sf = TxDone /\ length (filter finalizes (appended s sf)) = 1%nat) /\
  (forall (tx : Tx V W) (commands : list (Sqlbatch.Command V W)) (s : state V W),
     let sf := (Sqlbatch.Batch tx commands s).2 in
     txs sf = txs s /\ filter finalizes (appended s sf) = []) /\
  (forall (tx : Tx V W) (commands : list (Part001.Command V W)) (s : state V W),
     let sf := (Part001.Batch tx commands s).2 in
     txs sf = txs s /\ filter finalizes (appended s sf) = []).
Proof.
  split_and!.
  - intros handler commands s tx w Hbegin sf.
    destruct (h_Batch_run handler commands s tx w Hbegin) as (evs & sl & F & _ & X & H).
    split; [done|]. fold sf in H.
    destruct H as [(_ & -> & _)|(e & _ & -> & _)];
      rewrite filter_cons, filter_app, (finalizes_ev_of _ _ F); done.
  - intros tx commands s sf.
    destruct (sql_Batch_frame tx commands s) as (X & evs & closes & T & F & Fc).
    split; [done|]. fold sf in T.
    by rewrite T, filter_app, (finalizes_ev_of _ _ F), (finalizes_close _ Fc).
  - intros tx commands s sf.
    destruct (p1_Batch_frame tx commands s) as (X & evs & T & F).
    split; [done|]. fold sf in T. by rewrite T, (finalizes_ev_of _ _ F).
Qed.

(** C2, as stated, fails. [Batch(tx, commands)] returns, with or without an
    error, having performed neither commit nor rollback: the transaction it
    received open is still open. *)
Lemma finalization_counterexample :
  (let r := Part001.Batch (Examples.tx None) [Examples.p1_read] Examples.start in
   r.1 = ([Some 3], None) /\ filter finalizes (trace r.2) = [] /\ txs r.2 = TxOpen) /\
  (let r := Sqlbatch.Batch (Examples.tx None) Examples.batch Examples.start in
   r.1.2 = Some "Expected to affect 0 rows, but 1 rows affected for query: `delete`" /\
   filter finalizes (trace r.2) = [] /\ txs r.2 = TxOpen).
Proof. vm_compute. done. Qed.

(** C2, as amended, on a batch that [Handler.Batch] rolls back and on two
    batches that fail in [Batch(tx, commands)]. *)
Lemma transaction_finalized_once_witness :
  (let sf := (Handler.Batch (Examples.handler None)
                [Examples.h_read; Examples.h_write 2] Examples.start).2 in
   txs sf = TxDone /\ length (filter finalizes (appended Examples.start sf)) = 1%nat) /\
  (let sf := (Sqlbatch.Batch (Examples.tx None) Examples.batch Examples.start).2 in
   txs sf = txs Examples.start /\ filter finalizes (appended Examples.start sf) = []) /\
  (let sf := (Part001.Batch (Examples.tx None) [Examples.p1_rejecting] Examples.start).2 in
   txs sf = txs Examples.start /\ filter finalizes (appended Examples.start sf) = []).
Proof.
  destruct (@transaction_finalized_once Z unit) as (H1 & H2 & H3). split_and!.
  - exact (H1 (Examples.handler None) [Examples.h_read; Examples.h_write 2]
              Examples.start (Examples.tx None) tt eq_refl).
  - apply H2.
  - apply H3.
Defined.

(** C3 on src/unnamed/part_001. A read command whose [ScanOnce] returns an
    error on the row it is given: [Batch] returns that error and never calls
    [rows.Close()]; the cursor of the command is still open when the call
    returns. On the same command the [Batch] of src/sqlbatch.go closes the
    cursor before it returns. *)
Theorem Part001_callback_error_leaves_cursor_open :
  (let r := Part001.Batch (Examples.tx None) [Examples.p1_rejecting] Examples.start in
   r.1 = ([None], Some "decode failed") /\
   trace r.2 = [EvQuery 0 "select" []; EvNext 0 true; EvReadOne 0 [Some 1]] /\
   elements (opened r.2) = [0%nat]) /\
  (let r := Sqlbatch.Batch (Examples.tx None) [Examples.rejecting_one] Examples.start in
   r.1 = ([None], Some "decode failed") /\
   trace r.2 = [EvQuery 0 "select" []; EvNext 0 true; EvReadOne 0 [Some 1]; EvClose 0] /\
   elements (opened r.2) = []).
Proof. vm_compute. done. Qed.

(** A cursor that ends on a fault: [Sqlbatch.Batch] returns the fault after
    [ReadAll] has folded the rows delivered before it; the accumulator is
    already in the slot of the command, and the cursor is closed. *)
Example iteration_fault_keeps_accumulator :
  let r := Sqlbatch.Batch (Examples.tx None) [Examples.broken_sum; Examples.update]
             Examples.start in
  r.1 = ([Some 1; None], Some "connection lost") /\
  trace r.2 = [EvQuery 0 "broken" []; EvNext 0 true; EvReadAll 0 (Some 0) [Some 1];
               EvNext 0 false; EvErr 0; EvClose 0] /\
  elements (opened r.2) = [].
Proof. vm_compute. done. Qed.

(** C4. A command with non-zero [Affect] expects [max(Affect, 0)] affected
    rows (none when [Affect] is negative). Once the driver has reported the
    affected count, the command succeeds exactly when the count is the
    expected one; otherwise [Batch] fails with the message that spells out
    the expected count, the actual count and the query text, each of which
    can be read off the error. Either way the slot of the command is unset
    in the results that [Batch] returns. *)
Theorem affect_check {V W : Type} (tx : Tx V W)
    (commands : list (Sqlbatch.Command V W)) (s : state V W) i c s1
    args sa result w affected :
  commands !! i = Some c ->
  sql_begins tx commands s i s1 ->
  Sqlbatch.Affect c ≠ 0 ->
  Sqlbatch.resolve_args i c s1 = (Done args, sa) ->
  tx_Exec tx (Sqlbatch.Query c) args (world sa) = (Ok result, w) ->
  RowsAffected result = Ok affected ->
  let expected := Z.max (Sqlbatch.Affect c) 0 in
  (Sqlbatch.Affect c < 0 -> expected = 0) /\
  ((Sqlbatch.command_body tx i c s1).1 = Done tt <-> affected = expected) /\
  (affected ≠ expected ->
     (Sqlbatch.Batch tx commands s).1.2 =
       Some ("Expected to affect " +:+ pretty expected +:+ " rows, but " +:+ pretty affected
               +:+ " rows affected for query: `" +:+ Sqlbatch.Query c +:+ "`") /\
     forall expected' affected' query',
       (Sqlbatch.Batch tx commands s).1.2 =
         Some (expectedDifferentAffectedRows expected' affected' query') ->
       expected' = expected /\ affected' = affected /\ query' = Sqlbatch.Query c) /\
  (Sqlbatch.Batch tx commands s).1.1 !! i = Some None.
Proof.
  intros Hc Hb Ha Hargs He Hr expected.
  destruct (Sqlbatch.command_body tx i c s1) as [o2 s2] eqn:E.
  destruct (write_command_spec _ _ _ _ _ _ _ _ _ _ Ha Hargs He E) as (_ & _ & _ & R & ->).
  unfold write_error in E |- *. rewrite Hr in E |- *. fold expected in E |- *.
  split_and!.
  - lia.
  - simpl. by case_decide.
  - intros Hne. rewrite decide_False in E by done.
    destruct (sql_Batch_at _ _ _ _ _ _ _ _ Hc Hb E) as (o3 & s3 & -> & _ & -> & ->).
    split; [done|]. cbn [fst snd returned]. intros expected' affected' query' Hm.
    apply (inj Some) in Hm.
    by destruct (expectedDifferentAffectedRows_inj _ _ _ _ _ _ Hm) as (<- & <- & <-).
  - rewrite (sql_Batch_slot _ _ _ _ _ _ _ _ Hc Hb E), R.
    apply (sql_begins_results _ _ _ _ _ _ Hc Hb). apply lookup_lt_Some in Hc. lia.
Qed.

(** C4 on the last command of [Examples.batch]: no row expected, one
    reported. *)
Lemma affect_check_witness :
  let failure := (Sqlbatch.Batch (Examples.tx None) Examples.batch Examples.start).1.2 in
  (Sqlbatch.Affect Examples.untouched < 0 -> 0 = 0) /\
  ((Sqlbatch.command_body (Examples.tx None) 3 Examples.untouched
      (Examples.before None Examples.batch 3)).1 = Done tt <-> 1 = 0) /\
  (1 ≠ 0 ->
     failure = Some "Expected to affect 0 rows, but 1 rows affected for query: `delete`" /\
     forall expected' affected' query',
       failure = Some (expectedDifferentAffectedRows expected' affected' query') ->
       expected' = 0 /\ affected' = 1 /\ query' = "delete") /\
  (Sqlbatch.Batch (Examples.tx None) Examples.batch Examples.start).1.1 !! 3%nat = Some None.
Proof.
  apply (affect_check (Examples.tx None) Examples.batch Examples.start 3 Examples.untouched
           (Examples.before None Examples.batch 3) []
           (Examples.before None Examples.batch 3) {| RowsAffected := Ok 1 |} tt 1).
  - reflexivity.
  - unfold sql_begins. vm_compute. reflexivity.
  - vm_compute. discriminate.
  - vm_compute. reflexivity.
  - reflexivity.
  - reflexivity.
Defined.

(** C5. When an error arises while command [i] is processed (the statement
    fails, the affected rows differ from the expected number, a row callback
    fails, the cursor ends on a fault or cannot be released), the body of
    command [i] returns that error; [Batch] returns it together with the
    results as they are at that point; no call at all is made for a command
    of greater index, and all that follows the failing command in the trace
    are the deferred closes. *)
Theorem error_aborts_batch {V W : Type} (tx : Tx V W)
    (commands : list (Sqlbatch.Command V W)) (s : state V W) i c s1 e :
  commands !! i = Some c ->
  sql_begins tx commands s i s1 ->
  sql_fault tx i c s1 e ->
  exists s2,
    Sqlbatch.command_body tx i c s1 = (Return e, s2) /\
    (Sqlbatch.Batch tx commands s).1 = (results s2, Some e) /\
    Forall (ev_of (fun j => j <= i)%nat) (appended s (Sqlbatch.Batch tx commands s).2) /\
    exists closes,
      trace (Sqlbatch.Batch tx commands s).2 = trace s2 ++ closes /\ Forall is_close closes.
Proof.
  intros Hc Hb [s2 E]%sql_fault_returns. exists s2. split; [done|].
  destruct (sql_Batch_at _ _ _ _ _ _ _ _ Hc Hb E) as (o3 & s3 & HB & _ & -> & ->).
  destruct (sql_Batch_trace _ _ _ _ _ _ _ _ Hc Hb E)
    as (evs1 & evs2 & evs3 & T1 & T2 & T3 & F1 & F2 & F3 & Hcl).
  specialize (Hcl e eq_refl). rewrite HB in *. simpl in *.
  split; [done|]. split; [|exists evs3; by split].
  rewrite (appended_eq s (run_deferred s2) (evs1 ++ evs2 ++ evs3))
    by (by rewrite T3, T2, T1, <- !app_assoc).
  destruct (sql_begins_frame _ _ _ _ _ _ Hc Hb) as (_ & _ & _ & _ & [d1 [D1 G1]] & _).
  pose proof (within_sql_command_body (eq i) (eq i) tx i c eq_refl eq_refl s1) as F.
  rewrite E in F. destruct F as (_ & _ & _ & _ & [d2 [D2 G2]] & _). simpl in *.
  destruct (run_deferred_state s2) as (T4 & _). simpl in T4.
  rewrite T3 in T4. apply app_inv_head in T4. subst evs3.
  rewrite !Forall_app. split_and!.
  - eapply Forall_impl; [exact F1|]. intros ev. apply ev_of_mono. lia.
  - eapply Forall_impl; [exact F2|]. intros ev. apply ev_of_mono. lia.
  - rewrite D2, D1, app_nil_r. apply Forall_map, Forall_app. split.
    + eapply Forall_impl; [exact G2|]. intros p Hp. exists p.1. split; [done|]. simpl in *. lia.
    + eapply Forall_impl; [exact G1|]. intros p Hp. exists p.1. split; [done|]. simpl in *. lia.
Qed.

(** C5 on [Examples.batch], whose last command fails on the affected rows,
    and on a batch whose first command has a cursor that ends on a fault. *)
Lemma error_aborts_batch_witness :
  (let e := expectedDifferentAffectedRows 0 1 "delete" in
   let r := Sqlbatch.Batch (Examples.tx None) Examples.batch Examples.start in
   exists s2,
     Sqlbatch.command_body (Examples.tx None) 3 Examples.untouched
       (Examples.before None Examples.batch 3) = (Return e, s2) /\
     r.1 = (results s2, Some e) /\
     Forall (ev_of (fun j => j <= 3)%nat) (appended Examples.start r.2) /\
     exists closes, trace r.2 = trace s2 ++ closes /\ Forall is_close closes) /\
  (let commands := [Examples.broken_sum; Examples.update] in
   let r := Sqlbatch.Batch (Examples.tx None) commands Examples.start in
   exists s2,
     Sqlbatch.command_body (Examples.tx None) 0 Examples.broken_sum
       (Examples.before None commands 0) = (Return "connection lost", s2) /\
     r.1 = (results s2, Some "connection lost") /\
     Forall (ev_of (fun j => j <= 0)%nat) (appended Examples.start r.2) /\
     exists closes, trace r.2 = trace s2 ++ closes /\ Forall is_close closes).
Proof.
  split.
  - apply (error_aborts_batch (Examples.tx None) Examples.batch Examples.start 3
             Examples.untouched (Examples.before None Examples.batch 3)).
    + reflexivity.
    + unfold sql_begins. vm_compute. reflexivity.
    + apply (fault_mismatch (Examples.tx None) 3 Examples.untouched
               (Examples.before None Examples.batch 3) []
               (Examples.before None Examples.batch 3) {| RowsAffected := Ok 1 |} 1 tt).
      * vm_compute. reflexivity.
      * vm_compute. discriminate.
      * reflexivity.
      * reflexivity.
      * vm_compute. discriminate.
  - apply (error_aborts_batch (Examples.tx None) [Examples.broken_sum; Examples.update]
             Examples.start 0 Examples.broken_sum
             (Examples.before None [Examples.broken_sum; Examples.update] 0)).
    + reflexivity.
    + reflexivity.
    + apply (fault_iteration (Examples.tx None) 0 Examples.broken_sum
               (Examples.before None [Examples.broken_sum; Examples.update] 0) []
               (Examples.before None [Examples.broken_sum; Examples.update] 0)
               (Examples.rows_of "broken") "connection lost" tt); reflexivity.
Defined.

(** C6. A read command with [ReadAll] set and [ReadOne] unset calls
    [ReadAll] on the rows of its cursor in order, each time with the
    accumulator the previous call returned, starting from [Init], up to the
    first call that returns an error. When no call returns an error,
    [ReadAll] has been called exactly once per row, in cursor order, and the
    slot of the command holds the left fold of [ReadAll] over the rows from
    [Init]; with no rows it holds [Init]. *)
Theorem ReadAll_folds_rows {V W : Type} (tx : Tx V W)
    (commands : list (Sqlbatch.Command V W)) (s : state V W) i c s1
    f args sa rows w :
  commands !! i = Some c ->
  sql_begins tx commands s i s1 ->
  Sqlbatch.Affect c = 0 ->
  Sqlbatch.ReadOne c = None ->
  Sqlbatch.ReadAll c = Some f ->
  Sqlbatch.resolve_args i c s1 = (Done args, sa) ->
  tx_Query tx (Sqlbatch.Query c) args (world sa) = (Ok rows, w) ->
  let calls := readAll_calls i (appended s (Sqlbatch.Batch tx commands s).2) in
  let slot := (Sqlbatch.Batch tx commands s).1.1 !! i in
  calls = fold_calls f (Sqlbatch.Init c) (rows_data rows) w /\
  (fold_error f (Sqlbatch.Init c) (rows_data rows) w = None ->
     calls.*2 = rows_data rows /\
     slot = Some (fold_ReadAll f (Sqlbatch.Init c) (rows_data rows) w).1) /\
  (rows_data rows = [] -> slot = Some (Sqlbatch.Init c)).
Proof.
  intros Hc Hb Ha H1 HA Hargs Hq calls slot. subst calls slot.
  destruct (Sqlbatch.command_body tx i c s1) as [o2 s2] eqn:E.
  destruct (read_command_spec _ _ _ _ _ _ _ _ _ _ Ha Hargs Hq E) as (evs & T & _ & RA & R & _).
  destruct (sql_Batch_calls _ _ _ _ _ _ _ _ _ Hc Hb E T) as [_ ->].
  rewrite (sql_Batch_slot _ _ _ _ _ _ _ _ Hc Hb E), R, RA.
  unfold all_calls, stored. rewrite H1, HA.
  destruct (sql_begins_results _ _ _ _ _ _ Hc Hb) as [L _].
  assert (i < length (results s1))%nat as Hi by (rewrite L; by eapply lookup_lt_Some).
  split_and!; [done| |].
  - intros Hok. rewrite Hok. simpl. split; [by apply fold_calls_rows|].
    by apply list_lookup_insert_eq.
  - intros Hnil. rewrite Hnil. simpl. by apply list_lookup_insert_eq.
Qed.

(** C6 on the second command of [Examples.batch], which sums two rows. *)
Lemma ReadAll_folds_rows_witness :
  let r := Sqlbatch.Batch (Examples.tx None) Examples.batch Examples.start in
  let calls := readAll_calls 1 (appended Examples.start r.2) in
  let rows := [[Some 1]; [Some 2]] in
  calls = fold_calls Examples.add_column (Some 0) rows tt /\
  (fold_error Examples.add_column (Some 0) rows tt = None ->
     calls.*2 = rows /\
     r.1.1 !! 1%nat = Some (fold_ReadAll Examples.add_column (Some 0) rows tt).1) /\
  (rows = [] -> r.1.1 !! 1%nat = Some (Some 0)).
Proof.
  apply (ReadAll_folds_rows (Examples.tx None) Examples.batch Examples.start 1 Examples.sum
           (Examples.before None Examples.batch 1) Examples.add_column []
           (Examples.before None Examples.batch 1) (Examples.rows_of "select") tt).
  - reflexivity.
  - unfold sql_begins. vm_compute. reflexivity.
  - reflexivity.
  - reflexivity.
  - reflexivity.
  - vm_compute. reflexivity.
  - reflexivity.
Defined.

(** C7. However the batch runs, a command with [ReadOne] set has [ReadOne]
    called at most once and [ReadAll], set or not, never called. When the
    command is a read command that begins and whose query delivers a cursor,
    [ReadOne] is called on the first row of the cursor if there is one, and
    with no rows the slot of the command is left unset. *)
Theorem ReadOne_first_row_only {V W : Type} (tx : Tx V W)
    (commands : list (Sqlbatch.Command V W)) (s : state V W) i c f :
  commands !! i = Some c ->
  Sqlbatch.ReadOne c = Some f ->
  let calls := appended s (Sqlbatch.Batch tx commands s).2 in
  (length (readOne_calls i calls) <= 1)%nat /\
  readAll_calls i calls = [] /\
  forall s1 args sa rows w,
    sql_begins tx commands s i s1 ->
    Sqlbatch.Affect c = 0 ->
    Sqlbatch.resolve_args i c s1 = (Done args, sa) ->
    tx_Query tx (Sqlbatch.Query c) args (world sa) = (Ok rows, w) ->
    readOne_calls i calls = take 1 (rows_data rows) /\
    (rows_data rows = [] -> (Sqlbatch.Batch tx commands s).1.1 !! i = Some None).
Proof.
  intros Hc H1 calls.
  destruct (sql_calls_bound tx commands s i c Hc) as [Hle Hall]. fold calls in Hle, Hall.
  split_and!; [done|by apply Hall|].
  intros s1 args sa rows w Hb Ha Hargs Hq. subst calls.
  destruct (Sqlbatch.command_body tx i c s1) as [o2 s2] eqn:E.
  destruct (read_command_spec _ _ _ _ _ _ _ _ _ _ Ha Hargs Hq E) as (evs & T & RO & RA & R & _).
  destruct (sql_Batch_calls _ _ _ _ _ _ _ _ _ Hc Hb E T) as [-> _].
  rewrite (sql_Batch_slot _ _ _ _ _ _ _ _ Hc Hb E), R, RO.
  unfold one_calls, stored. rewrite H1. split; [done|].
  intros ->. simpl.
  apply (sql_begins_results _ _ _ _ _ _ Hc Hb). apply lookup_lt_Some in Hc. lia.
Qed.

(** C7 on the first two commands of [Examples.good_batch]: one with rows,
    one without. *)
Lemma ReadOne_first_row_only_witness :
  let r := Sqlbatch.Batch (Examples.tx None) Examples.good_batch Examples.start in
  let calls := appended Examples.start r.2 in
  ((length (readOne_calls 0 calls) <= 1)%nat /\ readAll_calls 0 calls = [] /\
   readOne_calls 0 calls = [[Some 1]]) /\
  ((length (readOne_calls 1 calls) <= 1)%nat /\ readAll_calls 1 calls = [] /\
   readOne_calls 1 calls = [] /\ r.1.1 !! 1%nat = Some None).
Proof.
  split.
  - destruct (ReadOne_first_row_only (Examples.tx None) Examples.good_batch Examples.start
                0 Examples.one Examples.first_column eq_refl eq_refl) as (Hle & Hall & H).
    split_and!; [exact Hle|exact Hall|].
    apply (H (Examples.before None Examples.good_batch 0) []
             (Examples.before None Examples.good_batch 0) (Examples.rows_of "select") tt);
      reflexivity.
  - destruct (ReadOne_first_row_only (Examples.tx None) Examples.good_batch Examples.start
                1 Examples.none_found Examples.first_column eq_refl eq_refl) as (Hle & Hall & H).
    destruct (H (Examples.before None Examples.good_batch 1) []
                (Examples.before None Examples.good_batch 1)
                (Examples.rows_of "select nothing") tt) as [Hone Hslot].
    + unfold sql_begins. vm_compute. reflexivity.
    + reflexivity.
    + vm_compute. reflexivity.
    + reflexivity.
    + split_and!; [exact Hle|exact Hall|exact Hone|by apply Hslot].
Defined.

(** C8. The [ArgsFunc] of command [i] is called right before the statement
    of command [i] is executed, after every call made for the commands
    before it; the statement is executed with what [ArgsFunc] returns, not
    with [Args]; the results [ArgsFunc] receives have one slot per command,
    and the slots of command [i] and of the commands after it are unset. *)
Theorem ArgsFunc_sees_prior_results {V W : Type} (tx : Tx V W)
    (commands : list (Sqlbatch.Command V W)) (s : state V W) i c s1 f :
  commands !! i = Some c ->
  sql_begins tx commands s i s1 ->
  Sqlbatch.ArgsFunc c = Some f ->
  let seen := results s1 in
  let args := (f seen (world s1)).1 in
  let execution := if decide (Sqlbatch.Affect c ≠ 0)
                   then EvExec i (Sqlbatch.Query c) args
                   else EvQuery i (Sqlbatch.Query c) args in
  (exists before after,
     appended s (Sqlbatch.Batch tx commands s).2 =
       before ++ EvArgsFunc i seen :: execution :: after /\
     Forall (ev_of (fun j => j < i)%nat) before) /\
  length seen = length commands /\
  (forall j, (i <= j < length commands)%nat -> seen !! j = Some None).
Proof.
  intros Hc Hb Hf seen args execution.
  split; [|by apply (sql_begins_results _ _ _ _ _ _ Hc Hb)].
  destruct (command_first_calls tx i c s1 f Hf) as [rest T].
  destruct (Sqlbatch.command_body tx i c s1) as [o2 s2] eqn:E. simpl in T.
  destruct (sql_Batch_trace _ _ _ _ _ _ _ _ Hc Hb E)
    as (evs1 & evs2 & evs3 & T1 & T2 & T3 & F1 & _).
  exists evs1, (rest ++ evs3). split; [|done].
  apply appended_eq. rewrite T3, T, T1, <- !app_assoc. done.
Qed.

(** C8 on the third command of [Examples.batch]. *)
Lemma ArgsFunc_sees_prior_results_witness :
  let r := Sqlbatch.Batch (Examples.tx None) Examples.batch Examples.start in
  let seen := [Some 1; Some 3; None; None] in
  (exists before after,
     appended Examples.start r.2 =
       before ++ EvArgsFunc 2 seen :: EvExec 2 "update" [Some 1; Some 3] :: after /\
     Forall (ev_of (fun j => j < 2)%nat) before) /\
  length seen = length Examples.batch /\
  (forall j, (2 <= j < length Examples.batch)%nat -> seen !! j = Some None).
Proof.
  apply (ArgsFunc_sees_prior_results (Examples.tx None) Examples.batch Examples.start 2
           Examples.update (Examples.before None Examples.batch 2)
           (fun results w => (take 2 results, w))).
  - reflexivity.
  - unfold sql_begins. vm_compute. reflexivity.
  - reflexivity.
Defined.

(** C9, as stated, fails. A read command whose cursor ends on a fault does
    not complete, yet its slot is not unset: [results[i] = memo] is executed
    before [rows.Err()] is consulted, so the accumulator [ReadAll] (or [Scan])
    returned is in the results that come back with the error. *)
Lemma unset_slot_counterexample :
  (let commands := [Examples.broken_sum; Examples.update] in
   let r := Sqlbatch.Batch (Examples.tx None) commands Examples.start in
   (Sqlbatch.command_body (Examples.tx None) 0 Examples.broken_sum
      (Sqlbatch.enter commands Examples.start)).1 = Return "connection lost" /\
   r.1.2 = Some "connection lost" /\ length r.1.1 = 2%nat /\
   r.1.1 !! 0%nat = Some (Some 1)) /\
  (let commands := [MoreExamples.p1_broken_sum] in
   let r := Part001.Batch (Examples.tx None) commands Examples.start in
   (Part001.command_body (Examples.tx None) 0 MoreExamples.p1_broken_sum
      (Part001.enter commands Examples.start)).1 = Return "connection lost" /\
   r.1.2 = Some "connection lost" /\ length r.1.1 = 1%nat /\
   r.1.1 !! 0%nat = Some (Some 1)).
Proof. vm_compute. done. Qed.

(** C9. Whatever way the results-returning [Batch] returns (with or without
    an error, be it raised by the very first command), the results it returns
    have one slot per input command. The slot of a command is unset when the
    command has not begun, when it is a write-check command, when its query
    fails and when its row callback returns an error. Otherwise the slot
    holds what the row callback has returned (nothing when the command has no
    row callback or [ReadOne] finds no row), and it does so as well when the
    command then fails on [rows.Err()] or on [rows.Close()]. This holds for
    the [Batch] of src/sqlbatch.go and for the one of src/unnamed/part_001. *)
Theorem Batch_results_length {V W : Type} (tx : Tx V W) (s : state V W) :
  (forall commands : list (Sqlbatch.Command V W),
     let r := Sqlbatch.Batch tx commands s in
     length r.1.1 = length commands /\
     (forall i c, commands !! i = Some c ->
        (forall s1, ~ sql_begins tx commands s i s1) ->
        r.1.1 !! i = Some None) /\
     (forall i c s1, commands !! i = Some c ->
        sql_begins tx commands s i s1 ->
        (Sqlbatch.Affect c ≠ 0 -> r.1.1 !! i = Some None) /\
        (forall args sa, Sqlbatch.Affect c = 0 ->
           Sqlbatch.resolve_args i c s1 = (Done args, sa) ->
           match tx_Query tx (Sqlbatch.Query c) args (world sa) with
           | (Fail _, _) => r.1.1 !! i = Some None
           | (Ok rows, w) =>
               r.1.1 !! i = Some (default None (stored c rows w)) /\
               (is_Some (decode_error c rows w) -> r.1.1 !! i = Some None)
           end))) /\
  (forall commands : list (Part001.Command V W),
     let r := Part001.Batch tx commands s in
     length r.1.1 = length commands /\
     (forall i c, commands !! i = Some c ->
        (forall s1, ~ p1_begins tx commands s i s1) ->
        r.1.1 !! i = Some None) /\
     (forall i c s1, commands !! i = Some c ->
        p1_begins tx commands s i s1 ->
        (Part001.Affect c ≠ 0 -> r.1.1 !! i = Some None) /\
        (forall args sa, Part001.Affect c = 0 ->
           Part001.resolve_args i c s1 = (Done args, sa) ->
           match tx_Query tx (Part001.Query c) args (world sa) with
           | (Fail _, _) => r.1.1 !! i = Some None
           | (Ok rows, w) =>
               r.1.1 !! i = Some (default None (stored (to_sql c) rows w)) /\
               (is_Some (decode_error (to_sql c) rows w) -> r.1.1 !! i = Some None)
           end))).
Proof.
  split; intros commands r; subst r; split_and!.
  - unfold Sqlbatch.Batch.
    destruct (within_sql_loop tx 0 commands (Sqlbatch.enter commands s)) as (_ & _ & L & _).
    destruct (Sqlbatch.loop tx 0 commands (Sqlbatch.enter commands s)) as [o s1]. simpl in *.
    destruct (run_deferred_state s1) as (_ & _ & R & _). simpl in R.
    rewrite R, L. apply length_replicate.
  - intros i c Hc Hn. destruct (sql_reach tx commands s i c Hc) as [[s1 Hb]|(_ & _ & R)].
    + by destruct (Hn s1).
    + apply R. apply lookup_lt_Some in Hc. lia.
  - intros i c s1 Hc Hb. by apply sql_reached_slot.
  - unfold Part001.Batch.
    destruct (within_p1_loop tx 0 commands (Part001.enter commands s)) as (_ & _ & L & _).
    destruct (Part001.loop tx 0 commands (Part001.enter commands s)) as [o s1]. simpl in *.
    rewrite L. apply length_replicate.
  - intros i c Hc Hn. destruct (p1_reach tx commands s i c Hc) as [[s1 Hb]|(_ & R)].
    + by destruct (Hn s1).
    + apply R. apply lookup_lt_Some in Hc. lia.
  - intros i c s1 Hc Hb. by apply p1_reached_slot.
Qed.

(** C9 on a batch whose second command has a failing row callback and whose
    last command never begins, on a batch whose first command fails on
    [rows.Err()] after [ReadAll] has returned, and on two batches of
    src/unnamed/part_001 of the same kinds. *)
Lemma Batch_results_length_witness :
  (let r := Sqlbatch.Batch (Examples.tx None) Examples.rejected_batch Examples.start in
   length r.1.1 = 3%nat /\ r.1.1 !! 2%nat = Some None /\ r.1.1 !! 1%nat = Some None) /\
  (let r := Sqlbatch.Batch (Examples.tx None) [Examples.broken_sum; Examples.update]
              Examples.start in
   r.1.1 !! 0%nat = Some (Some 1)) /\
  (let r := Part001.Batch (Examples.tx None) [Examples.p1_rejecting; Examples.p1_read]
              Examples.start in
   length r.1.1 = 2%nat /\ r.1.1 !! 1%nat = Some None /\ r.1.1 !! 0%nat = Some None) /\
  (let r := Part001.Batch (Examples.tx None) [MoreExamples.p1_broken_sum] Examples.start in
   r.1.1 !! 0%nat = Some (Some 1)).
Proof.
  destruct (@Batch_results_length Z unit (Examples.tx None) Examples.start) as [H1 H2].
  split_and!.
  - destruct (H1 Examples.rejected_batch) as (L & U & S). split_and!; [exact L| |].
    + apply (U 2%nat Examples.update); [reflexivity|].
      intros s1. unfold sql_begins. vm_compute. discriminate.
    + refine (proj2 (proj2 (S 1%nat Examples.rejecting_all
                (Examples.before None Examples.rejected_batch 1) _ _) []
                (Examples.before None Examples.rejected_batch 1) _ _) _).
      * reflexivity.
      * unfold sql_begins. vm_compute. reflexivity.
      * reflexivity.
      * vm_compute. reflexivity.
      * vm_compute. by eexists.
  - destruct (H1 [Examples.broken_sum; Examples.update]) as (_ & _ & S).
    refine (proj1 (proj2 (S 0%nat Examples.broken_sum
              (Sqlbatch.enter [Examples.broken_sum; Examples.update] Examples.start) _ _) []
              (Sqlbatch.enter [Examples.broken_sum; Examples.update] Examples.start) _ _)).
    + reflexivity.
    + reflexivity.
    + reflexivity.
    + reflexivity.
  - destruct (H2 [Examples.p1_rejecting; Examples.p1_read]) as (L & U & S).
    split_and!; [exact L| |].
    + apply (U 1%nat Examples.p1_read); [reflexivity|].
      intros s1. unfold p1_begins. vm_compute. discriminate.
    + refine (proj2 (proj2 (S 0%nat Examples.p1_rejecting
                (Part001.enter [Examples.p1_rejecting; Examples.p1_read] Examples.start) _ _) []
                (Part001.enter [Examples.p1_rejecting; Examples.p1_read] Examples.start) _ _) _).
      * reflexivity.
      * reflexivity.
      * reflexivity.
      * reflexivity.
      * vm_compute. by eexists.
  - destruct (H2 [MoreExamples.p1_broken_sum]) as (_ & _ & S).
    refine (proj1 (proj2 (S 0%nat MoreExamples.p1_broken_sum
              (Part001.enter [MoreExamples.p1_broken_sum] Examples.start) _ _) []
              (Part001.enter [MoreExamples.p1_broken_sum] Examples.start) _ _)).
    + reflexivity.
    + reflexivity.
    + reflexivity.
    + reflexivity.
Defined.

(** C10. When the row callback of a read command ([ReadOne] on the first
    row, or else [ReadAll] on some row) returns an error, [Batch] returns
    that error and the slot of the command is unset in the results it
    returns: the results are those the command began with. *)
Theorem callback_error_leaves_slot_unset {V W : Type} (tx : Tx V W)
    (commands : list (Sqlbatch.Command V W)) (s : state V W) i c s1
    args sa rows w e :
  commands !! i = Some c ->
  sql_begins tx commands s i s1 ->
  Sqlbatch.Affect c = 0 ->
  Sqlbatch.resolve_args i c s1 = (Done args, sa) ->
  tx_Query tx (Sqlbatch.Query c) args (world sa) = (Ok rows, w) ->
  decode_error c rows w = Some e ->
  (Sqlbatch.Batch tx commands s).1.2 = Some e /\
  (Sqlbatch.Batch tx commands s).1.1 !! i = Some None /\
  (Sqlbatch.Batch tx commands s).1.1 = results s1.
Proof.
  intros Hc Hb Ha Hargs Hq Hd.
  destruct (Sqlbatch.command_body tx i c s1) as [o2 s2] eqn:E.
  destruct (read_command_spec _ _ _ _ _ _ _ _ _ _ Ha Hargs Hq E) as (_ & _ & _ & _ & R & ->).
  unfold read_error in E. rewrite Hd in E. rewrite (decode_error_stored _ _ _ _ Hd) in R.
  destruct (sql_Batch_at _ _ _ _ _ _ _ _ Hc Hb E) as (o3 & s3 & -> & _ & -> & ->).
  simpl in *. rewrite R. split_and!; [done| |done].
  apply (sql_begins_results _ _ _ _ _ _ Hc Hb). apply lookup_lt_Some in Hc. lia.
Qed.

(** C10 on a failing [ReadAll] and on a failing [ReadOne]. *)
Lemma callback_error_leaves_slot_unset_witness :
  (let r := Sqlbatch.Batch (Examples.tx None) Examples.rejected_batch Examples.start in
   r.1.2 = Some "decode failed" /\ r.1.1 !! 1%nat = Some None /\
   r.1.1 = [Some 3; None; None]) /\
  (let r := Sqlbatch.Batch (Examples.tx None) [Examples.rejecting_one] Examples.start in
   r.1.2 = Some "decode failed" /\ r.1.1 !! 0%nat = Some None /\ r.1.1 = [None]).
Proof.
  split.
  - apply (callback_error_leaves_slot_unset (Examples.tx None) Examples.rejected_batch
             Examples.start 1 Examples.rejecting_all
             (Examples.before None Examples.rejected_batch 1) []
             (Examples.before None Examples.rejected_batch 1)
             (Examples.rows_of "select") tt "decode failed").
    + reflexivity.
    + unfold sql_begins. vm_compute. reflexivity.
    + reflexivity.
    + vm_compute. reflexivity.
    + reflexivity.
    + reflexivity.
  - apply (callback_error_leaves_slot_unset (Examples.tx None) [Examples.rejecting_one]
             Examples.start 0 Examples.rejecting_one
             (Examples.before None [Examples.rejecting_one] 0) []
             (Examples.before None [Examples.rejecting_one] 0)
             (Examples.rows_of "select") tt "decode failed"); reflexivity.
Defined.

(** * Further properties *)

(** ** The calls made for one command of [Sqlbatch.Batch] *)
Section SqlbatchCalls.
Context {V W : Type}.
Local Abbreviation iface := (iface V).
Local Abbreviation Row := (Row V).
Local Abbreviation Rows := (Rows V).
Local Abbreviation event := (event V).
Local Abbreviation Tx := (Tx V W).
Local Abbreviation state := (state V W).
Local Abbreviation Command := (Sqlbatch.Command V W).
Implicit Types (s : state) (tx : Tx) (c : Command) (commands : list Command).

Lemma calls_of_app i (evs1 evs2 : list event) :
  calls_of i (evs1 ++ evs2) = calls_of i evs1 ++ calls_of i evs2.
Proof. apply filter_app. Qed.

Lemma calls_of_own i (evs : list event) :
  Forall (ev_of (eq i)) evs -> calls_of i evs = evs.
Proof.
  induction 1 as [|ev evs (j & Hev & <-) _ IH]; [done|].
  unfold calls_of in *. rewrite filter_cons, IH. by rewrite decide_True.
Qed.

Lemma calls_of_other i (evs : list event) :
  Forall (ev_of (fun j => j ≠ i)) evs -> calls_of i evs = [].
Proof.
  induction 1 as [|ev evs (j & Hev & Hj) _ IH]; [done|].
  unfold calls_of in *. rewrite filter_cons, IH. rewrite decide_False; [done|].
  rewrite Hev. by intros [= ->].
Qed.

(** The deferred closes that are made for command [i]. *)
Lemma calls_of_closes i (d : list (nat * Rows)) :
  Forall (fun p => p.1 ≠ i) d ->
  calls_of i (map (fun p => EvClose p.1 : event) d) = [].
Proof.
  intros F. apply calls_of_other, Forall_map. eapply Forall_impl; [exact F|].
  intros p Hp. by exists p.1.
Qed.

Lemma resolve_args_exact i c s :
  exists sa,
    Sqlbatch.resolve_args i c s = (Done (args_of c (results s) (world s)), sa) /\
    trace sa = trace s ++ args_events i c (results s) /\
    results sa = results s /\ deferred sa = deferred s /\ opened sa = opened s.
Proof.
  unfold Sqlbatch.resolve_args, Sqlbatch.call_ArgsFunc, args_of, args_events.
  destruct (Sqlbatch.ArgsFunc c) as [f|].
  - destruct (f (results s) (world s)) as [args w]. by eexists.
  - exists s. by rewrite app_nil_r.
Qed.

Lemma read_all_loop_events i f memo (rows : list Row) s :
  trace (Sqlbatch.read_all_loop i f memo rows s).2 =
  trace s ++ fold_events i f memo rows (world s).
Proof.
  revert memo s. induction rows as [|row rest IH]; intros memo s; simpl; [done|].
  rewrite bind_unfold. unfold emit at 1. rewrite bind_unfold.
  unfold Sqlbatch.call_ReadAll at 1. simpl.
  destruct (f memo row (world s)) as [[memo' [e|]] w]; simpl.
  - by rewrite <- !app_assoc.
  - rewrite IH. simpl. by rewrite <- !app_assoc.
Qed.

Lemma read_rows_events i c (rows : Rows) s :
  trace (Sqlbatch.read_rows i c rows s).2 = trace s ++ rows_events i c rows (world s).
Proof.
  unfold Sqlbatch.read_rows, rows_events.
  destruct (Sqlbatch.ReadOne c) as [f|]; [|destruct (Sqlbatch.ReadAll c) as [f|]].
  - destruct (rows_data rows) as [|row rest]; [done|].
    rewrite bind_unfold. unfold emit at 1. rewrite bind_unfold.
    unfold Sqlbatch.call_ReadOne at 1. simpl.
    destruct (f row (world s)) as [[result [e|]] w]; simpl; by rewrite <- !app_assoc.
  - rewrite bind_unfold.
    pose proof (read_all_loop_events i f (Sqlbatch.Init c) (rows_data rows) s) as T.
    destruct (Sqlbatch.read_all_loop i f (Sqlbatch.Init c) (rows_data rows) s)
      as [[memo|e] s1]; simpl in *; done.
  - simpl. by rewrite app_nil_r.
Qed.

(** The end of a read, call by call. *)
Lemma read_end_exact i (rows : Rows) lasterr s o s' :
  i ∈ opened s ->
  bind (emit (EvErr i)) (fun _ => bind (check_nil lasterr) (fun _ =>
    bind (call_Close i rows) (fun err => check_nil err))) s = (o, s') ->
  trace s' = trace s ++ EvErr i :: match lasterr with
                                   | Some _ => []
                                   | None => [EvClose i]
                                   end /\
  deferred s' = deferred s.
Proof.
  intros Hi. rewrite bind_unfold. unfold emit at 1. rewrite bind_unfold.
  destruct lasterr as [e|]; simpl.
  - by intros [= <- <-].
  - rewrite bind_unfold. unfold call_Close. simpl. rewrite decide_True by done.
    destruct (rows_closeErr rows) as [e|]; simpl; intros [= <- <-]; simpl;
      by rewrite <- app_assoc.
Qed.

(** A read command whose query delivers a cursor, call by call. *)
Lemma read_body_exact tx i c s rows w o s' :
  Sqlbatch.Affect c = 0 ->
  let args := args_of c (results s) (world s) in
  (forall sa, Sqlbatch.resolve_args i c s = (Done args, sa) ->
     tx_Query tx (Sqlbatch.Query c) args (world sa) = (Ok rows, w)) ->
  Sqlbatch.command_body tx i c s = (o, s') ->
  trace s' = trace s ++ args_events i c (results s) ++
    EvQuery i (Sqlbatch.Query c) args :: rows_events i c rows w ++ end_events i c rows w /\
  deferred s' = (i, rows) :: deferred s.
Proof.
  intros Ha args Hq.
  destruct (resolve_args_exact i c s) as (sa & Hargs & T0 & R0 & D0 & O0).
  fold args in Hargs. specialize (Hq sa Hargs).
  unfold Sqlbatch.command_body.
  rewrite bind_unfold, Hargs, decide_False by (by intros []).
  unfold Sqlbatch.read. rewrite bind_unfold. unfold call_Query. rewrite Hq. simpl.
  rewrite bind_unfold. unfold defer_Close at 1. simpl. rewrite bind_unfold.
  match goal with |- context [Sqlbatch.read_rows i c rows ?s0] => set (s0' := s0) end.
  pose proof (within_sql_read_rows (eq i) none i c rows eq_refl s0') as F1.
  pose proof (read_rows_events i c rows s0') as T1.
  destruct (Sqlbatch.read_rows i c rows s0') as [o_r s_r] eqn:Er.
  apply frame_none in F1 as [O1 D1]. simpl in O1, D1, T1.
  destruct (read_rows_spec _ _ _ _ _ _ Er) as (_ & _ & _ & _ & _ & ->).
  simpl. unfold end_events. destruct (decode_error c rows w) as [e|].
  - intros [= <- <-]. rewrite T1, T0, D1, D0, app_nil_r, <- !app_assoc. done.
  - intros E2. apply read_end_exact in E2 as [T2 D2].
    2:{ rewrite O1. set_unfold. by left. }
    rewrite T2, T1, T0, D2, D1, D0, <- !app_assoc. done.
Qed.

(** A read command whose query fails, call by call. *)
Lemma query_fail_exact tx i c s e w o s' :
  Sqlbatch.Affect c = 0 ->
  let args := args_of c (results s) (world s) in
  (forall sa, Sqlbatch.resolve_args i c s = (Done args, sa) ->
     tx_Query tx (Sqlbatch.Query c) args (world sa) = (Fail e, w)) ->
  Sqlbatch.command_body tx i c s = (o, s') ->
  o = Return e /\
  trace s' = trace s ++ args_events i c (results s) ++ [EvQuery i (Sqlbatch.Query c) args] /\
  deferred s' = deferred s /\ results s' = results s.
Proof.
  intros Ha args Hq.
  destruct (resolve_args_exact i c s) as (sa & Hargs & T0 & R0 & D0 & O0).
  fold args in Hargs. specialize (Hq sa Hargs).
  rewrite (query_fail_spec _ _ _ _ _ _ _ _ Ha Hargs Hq). intros [= <- <-]. simpl.
  by rewrite T0, D0, R0, <- !app_assoc.
Qed.

(** A write-check command, call by call. *)
Lemma write_body_exact tx i c s r w o s' :
  Sqlbatch.Affect c ≠ 0 ->
  let args := args_of c (results s) (world s) in
  (forall sa, Sqlbatch.resolve_args i c s = (Done args, sa) ->
     tx_Exec tx (Sqlbatch.Query c) args (world sa) = (r, w)) ->
  Sqlbatch.command_body tx i c s = (o, s') ->
  trace s' = trace s ++ args_events i c (results s) ++
    EvExec i (Sqlbatch.Query c) args ::
    match r with Ok _ => [EvRowsAffected i] | Fail _ => [] end /\
  deferred s' = deferred s.
Proof.
  intros Ha args He.
  destruct (resolve_args_exact i c s) as (sa & Hargs & T0 & R0 & D0 & O0).
  fold args in Hargs. specialize (He sa Hargs).
  unfold Sqlbatch.command_body. rewrite bind_unfold, Hargs, decide_True by done.
  unfold Sqlbatch.write_check. rewrite bind_unfold. unfold call_Exec. rewrite He.
  destruct r as [result|e]; simpl.
  - rewrite bind_unfold. unfold call_RowsAffected.
    destruct (RowsAffected result) as [affected|e]; simpl.
    + case_decide; intros [= <- <-]; simpl; by rewrite T0, D0, <- !app_assoc.
    + intros [= <- <-]. simpl. by rewrite T0, D0, <- !app_assoc.
  - intros [= <- <-]. simpl. by rewrite T0, D0, <- !app_assoc.
Qed.

(** The calls made for command [i] in the whole run: those of its body,
    then, when the run returns, one deferred close per cursor it opened. *)
Lemma sql_Batch_calls_of tx commands s i c s1 o2 s2 evs d :
  commands !! i = Some c -> sql_begins tx commands s i s1 ->
  Sqlbatch.command_body tx i c s1 = (o2, s2) ->
  trace s2 = trace s1 ++ evs ->
  deferred s2 = d ++ deferred s1 ->
  Forall (fun p => p.1 = i) d ->
  calls_of i (appended s (Sqlbatch.Batch tx commands s).2) =
    evs ++ map (fun p => EvClose p.1 : event) d.
Proof.
  intros Hc Hb E T D Fd.
  destruct (sql_begins_frame _ _ _ _ _ _ Hc Hb) as ([evs1 [T1 F1]] & _ & _ & _ & [d1 [D1 G1]] & _).
  pose proof (within_sql_command_body (eq i) (eq i) tx i c eq_refl eq_refl s1) as F2.
  rewrite E in F2. destruct F2 as ([evs2 [T2 F2]] & _). simpl in *.
  rewrite T in T2. apply app_inv_head in T2. subst evs2.
  destruct (sql_Batch_at _ _ _ _ _ _ _ _ Hc Hb E)
    as (o3 & s3 & -> & ([evs3 [T3 F3]] & _ & _ & _ & [d3 [D3 G3]] & _) & _).
  destruct (run_deferred_state s3) as (T4 & _). simpl in *.
  rewrite (appended_eq s _ (evs1 ++ evs ++ evs3 ++ map (fun p => EvClose p.1 : event) (deferred s3)))
    by (by rewrite T4, T3, T, T1, <- !app_assoc).
  rewrite D3, D, D1, app_nil_r, !map_app, !calls_of_app.
  rewrite (calls_of_other i evs1), (calls_of_own i evs), (calls_of_other i evs3); try done.
  - rewrite (calls_of_closes i d3), (calls_of_closes i d1); simpl.
    + rewrite app_nil_r. f_equal. apply calls_of_own, Forall_map.
      eapply Forall_impl; [exact Fd|]. intros p Hp. by exists p.1.
    + eapply Forall_impl; [exact G1|]. simpl. lia.
    + eapply Forall_impl; [exact G3|]. simpl. lia.
  - eapply Forall_impl; [exact F3|]. intros ev. apply ev_of_mono. lia.
  - eapply Forall_impl; [exact F1|]. intros ev. apply ev_of_mono. lia.
Qed.

(** The calls made for a write-check command in the whole run. *)
Lemma write_calls_of tx commands s i c s1 args sa r w :
  commands !! i = Some c ->
  sql_begins tx commands s i s1 ->
  Sqlbatch.Affect c ≠ 0 ->
  Sqlbatch.resolve_args i c s1 = (Done args, sa) ->
  tx_Exec tx (Sqlbatch.Query c) args (world sa) = (r, w) ->
  calls_of i (appended s (Sqlbatch.Batch tx commands s).2) =
    args_events i c (results s1) ++
    EvExec i (Sqlbatch.Query c) args ::
    match r with Ok _ => [EvRowsAffected i] | Fail _ => [] end.
Proof.
  intros Hc Hb Ha Hargs He.
  destruct (resolve_args_exact i c s1) as (sa' & Hargs' & _).
  rewrite Hargs in Hargs'. injection Hargs' as -> <-.
  destruct (Sqlbatch.command_body tx i c s1) as [o2 s2] eqn:E.
  destruct (write_body_exact tx i c s1 r w o2 s2 Ha) as [T D]; [|done|].
  { intros sa' Hsa. rewrite Hargs in Hsa. by injection Hsa as <-. }
  rewrite (sql_Batch_calls_of _ _ _ _ _ _ _ _ _ [] Hc Hb E T); [|done|done].
  simpl. by rewrite app_nil_r.
Qed.

(** The calls made for a read command in the whole run. *)
Lemma read_calls_of tx commands s i c s1 args sa rows w :
  commands !! i = Some c ->
  sql_begins tx commands s i s1 ->
  Sqlbatch.Affect c = 0 ->
  Sqlbatch.resolve_args i c s1 = (Done args, sa) ->
  tx_Query tx (Sqlbatch.Query c) args (world sa) = (Ok rows, w) ->
  calls_of i (appended s (Sqlbatch.Batch tx commands s).2) =
    args_events i c (results s1) ++
    EvQuery i (Sqlbatch.Query c) args ::
    rows_events i c rows w ++ end_events i c rows w ++ [EvClose i].
Proof.
  intros Hc Hb Ha Hargs Hq.
  destruct (resolve_args_exact i c s1) as (sa' & Hargs' & _).
  rewrite Hargs in Hargs'. injection Hargs' as -> <-.
  destruct (Sqlbatch.command_body tx i c s1) as [o2 s2] eqn:E.
  destruct (read_body_exact tx i c s1 rows w o2 s2 Ha) as [T D]; [|done|].
  { intros sa' Hsa. rewrite Hargs in Hsa. by injection Hsa as <-. }
  rewrite (sql_Batch_calls_of _ _ _ _ _ _ _ _ _ [(i, rows)] Hc Hb E T); [|done|by repeat constructor].
  simpl. repeat (rewrite <- app_assoc; simpl). done.
Qed.

(** The calls made for a read command whose query fails, and what [Batch]
    returns. *)
Lemma query_fail_calls_of tx commands s i c s1 args sa e w :
  commands !! i = Some c ->
  sql_begins tx commands s i s1 ->
  Sqlbatch.Affect c = 0 ->
  Sqlbatch.resolve_args i c s1 = (Done args, sa) ->
  tx_Query tx (Sqlbatch.Query c) args (world sa) = (Fail e, w) ->
  (Sqlbatch.Batch tx commands s).1 = (results s1, Some e) /\
  calls_of i (appended s (Sqlbatch.Batch tx commands s).2) =
    args_events i c (results s1) ++ [EvQuery i (Sqlbatch.Query c) args].
Proof.
  intros Hc Hb Ha Hargs Hq.
  destruct (resolve_args_exact i c s1) as (sa' & Hargs' & _).
  rewrite Hargs in Hargs'. injection Hargs' as -> <-.
  destruct (Sqlbatch.command_body tx i c s1) as [o2 s2] eqn:E.
  destruct (query_fail_exact tx i c s1 e w o2 s2 Ha) as (-> & T & D & R); [|done|].
  { intros sa' Hsa. rewrite Hargs in Hsa. by injection Hsa as <-. }
  split.
  - destruct (sql_Batch_at _ _ _ _ _ _ _ _ Hc Hb E) as (o3 & s3 & -> & _ & -> & ->).
    simpl. by rewrite R.
  - rewrite (sql_Batch_calls_of _ _ _ _ _ _ _ _ _ [] Hc Hb E T); [|done|done].
    simpl. by rewrite app_nil_r.
Qed.

Lemma next_calls_app i (evs1 evs2 : list event) :
  next_calls i (evs1 ++ evs2) = next_calls i evs1 ++ next_calls i evs2.
Proof. apply omap_app. Qed.

(** The answers of [Next] to command [i] are read off the calls made for
    command [i]. *)
Lemma next_calls_of i (evs : list event) : next_calls i (calls_of i evs) = next_calls i evs.
Proof.
  unfold next_calls, calls_of.
  induction evs as [|ev evs IH]; [done|].
  rewrite filter_cons. case_decide as Hev.
  - cbn [omap list_omap]. by rewrite IH.
  - rewrite IH. cbn [omap list_omap].
    destruct ev; try done. simpl in Hev.
    rewrite decide_False; [done|]. by intros ->.
Qed.

Lemma next_calls_args i c (rs : list iface) : next_calls i (args_events i c rs) = [].
Proof. unfold args_events. by destruct (Sqlbatch.ArgsFunc c). Qed.

End SqlbatchCalls.

(** ** What [Sqlbatch.Batch] calls, and what it never calls *)

(** X1. For a command with non-zero [Affect] that begins, the calls made in
    the whole run of [Batch] are [ArgsFunc] (if set), [tx.Exec] and, when
    [Exec] succeeded, [RowsAffected]: no query is run, no cursor call is
    made, and [ReadOne] and [ReadAll] are never called, set or not. *)
Theorem write_check_calls {V W : Type} (tx : Tx V W)
    (commands : list (Sqlbatch.Command V W)) (s : state V W) i c s1 args sa r w :
  commands !! i = Some c ->
  sql_begins tx commands s i s1 ->
  Sqlbatch.Affect c ≠ 0 ->
  Sqlbatch.resolve_args i c s1 = (Done args, sa) ->
  tx_Exec tx (Sqlbatch.Query c) args (world sa) = (r, w) ->
  calls_of i (appended s (Sqlbatch.Batch tx commands s).2) =
    args_events i c (results s1) ++
    EvExec i (Sqlbatch.Query c) args ::
    match r with Ok _ => [EvRowsAffected i] | Fail _ => [] end.
Proof. apply write_calls_of. Qed.

(** X1 on the second command of [MoreExamples.batch], which has both row
    callbacks. *)
Lemma write_check_calls_witness :
  calls_of 1 (appended Examples.start
                (Sqlbatch.Batch MoreExamples.tx MoreExamples.batch Examples.start).2) =
    [EvExec 1 "update" [Some 5]; EvRowsAffected 1].
Proof.
  apply (write_check_calls MoreExamples.tx MoreExamples.batch Examples.start 1
           MoreExamples.checked (MoreExamples.before 1) [Some 5] (MoreExamples.before 1)
           (Ok {| RowsAffected := Ok 1 |}) tt).
  - reflexivity.
  - unfold sql_begins. vm_compute. reflexivity.
  - vm_compute. discriminate.
  - vm_compute. reflexivity.
  - reflexivity.
Defined.

(** X2. For a read command that begins and whose query delivers a cursor,
    the calls made in the whole run of [Batch] are, in order: [ArgsFunc] (if
    set), [tx.Query], the calls of [Next] and of the row callback, then
    [rows.Err()] unless a callback failed, then [rows.Close()] unless the
    cursor ended on a fault, and last the deferred [rows.Close()] when
    [Batch] returns. Every such cursor is thus closed, and closed a second
    time when the command had closed it itself. *)
Theorem read_calls {V W : Type} (tx : Tx V W)
    (commands : list (Sqlbatch.Command V W)) (s : state V W) i c s1 args sa rows w :
  commands !! i = Some c ->
  sql_begins tx commands s i s1 ->
  Sqlbatch.Affect c = 0 ->
  Sqlbatch.resolve_args i c s1 = (Done args, sa) ->
  tx_Query tx (Sqlbatch.Query c) args (world sa) = (Ok rows, w) ->
  calls_of i (appended s (Sqlbatch.Batch tx commands s).2) =
    args_events i c (results s1) ++
    EvQuery i (Sqlbatch.Query c) args ::
    rows_events i c rows w ++ end_events i c rows w ++ [EvClose i].
Proof. apply read_calls_of. Qed.

(** X2 on the first command of [Examples.rejected_batch], which closes its
    cursor, and on the second, whose [ReadAll] fails on the second row. *)
Lemma read_calls_witness :
  let calls := appended Examples.start
    (Sqlbatch.Batch (Examples.tx None) Examples.rejected_batch Examples.start).2 in
  calls_of 0 calls =
    [EvQuery 0 "select" []; EvNext 0 true; EvReadAll 0 (Some 0) [Some 1];
     EvNext 0 true; EvReadAll 0 (Some 1) [Some 2]; EvNext 0 false;
     EvErr 0; EvClose 0; EvClose 0] /\
  calls_of 1 calls =
    [EvQuery 1 "select" []; EvNext 1 true; EvReadAll 1 (Some 0) [Some 1];
     EvNext 1 true; EvReadAll 1 (Some 1) [Some 2]; EvClose 1].
Proof.
  split.
  - apply (read_calls (Examples.tx None) Examples.rejected_batch Examples.start 0
             Examples.sum (Examples.before None Examples.rejected_batch 0) []
             (Examples.before None Examples.rejected_batch 0)
             (Examples.rows_of "select") tt); reflexivity.
  - apply (read_calls (Examples.tx None) Examples.rejected_batch Examples.start 1
             Examples.rejecting_all (Examples.before None Examples.rejected_batch 1) []
             (Examples.before None Examples.rejected_batch 1)
             (Examples.rows_of "select") tt).
    + reflexivity.
    + unfold sql_begins. vm_compute. reflexivity.
    + reflexivity.
    + vm_compute. reflexivity.
    + reflexivity.
Defined.

(** X3. When [tx.Query] fails for a read command, [Batch] returns that error
    with the results as they were when the command began, and the only calls
    made for the command are [ArgsFunc] (if set) and [tx.Query]: nothing is
    deferred and no call is made on the cursor that was not delivered. *)
Theorem query_failure {V W : Type} (tx : Tx V W)
    (commands : list (Sqlbatch.Command V W)) (s : state V W) i c s1 args sa e w :
  commands !! i = Some c ->
  sql_begins tx commands s i s1 ->
  Sqlbatch.Affect c = 0 ->
  Sqlbatch.resolve_args i c s1 = (Done args, sa) ->
  tx_Query tx (Sqlbatch.Query c) args (world sa) = (Fail e, w) ->
  (Sqlbatch.Batch tx commands s).1 = (results s1, Some e) /\
  calls_of i (appended s (Sqlbatch.Batch tx commands s).2) =
    args_events i c (results s1) ++ [EvQuery i (Sqlbatch.Query c) args].
Proof. apply query_fail_calls_of. Qed.

(** X3 on the fifth command of [MoreExamples.batch]. *)
Lemma query_failure_witness :
  let r := Sqlbatch.Batch MoreExamples.tx MoreExamples.batch Examples.start in
  r.1 = ([Some 3; None; None; Some 1; None; None], Some "no such table") /\
  calls_of 4 (appended Examples.start r.2) = [EvQuery 4 "missing" []].
Proof.
  apply (query_failure MoreExamples.tx MoreExamples.batch Examples.start 4
           MoreExamples.lost (MoreExamples.before 4) [] (MoreExamples.before 4)
           "no such table" tt).
  - reflexivity.
  - unfold sql_begins. vm_compute. reflexivity.
  - reflexivity.
  - vm_compute. reflexivity.
  - reflexivity.
Defined.

(** X4. A read command with neither [ReadOne] nor [ReadAll] runs its query
    and closes the cursor without ever calling [Next]: no row is visited and
    a fault of the cursor is never seen; its slot stays unset, and its body
    fails exactly when [rows.Close()] does. *)
Theorem read_without_callbacks {V W : Type} (tx : Tx V W)
    (commands : list (Sqlbatch.Command V W)) (s : state V W) i c s1 args sa rows w :
  commands !! i = Some c ->
  sql_begins tx commands s i s1 ->
  Sqlbatch.Affect c = 0 ->
  Sqlbatch.ReadOne c = None ->
  Sqlbatch.ReadAll c = None ->
  Sqlbatch.resolve_args i c s1 = (Done args, sa) ->
  tx_Query tx (Sqlbatch.Query c) args (world sa) = (Ok rows, w) ->
  calls_of i (appended s (Sqlbatch.Batch tx commands s).2) =
    args_events i c (results s1) ++
    [EvQuery i (Sqlbatch.Query c) args; EvErr i; EvClose i; EvClose i] /\
  (Sqlbatch.Batch tx commands s).1.1 !! i = Some None /\
  (Sqlbatch.command_body tx i c s1).1 = ended (rows_closeErr rows).
Proof.
  intros Hc Hb Ha H1 HA Hargs Hq.
  rewrite (read_calls_of _ _ _ _ _ _ _ _ _ _ Hc Hb Ha Hargs Hq).
  destruct (Sqlbatch.command_body tx i c s1) as [o2 s2] eqn:E.
  destruct (read_command_spec _ _ _ _ _ _ _ _ _ _ Ha Hargs Hq E) as (_ & _ & _ & _ & R & ->).
  rewrite (sql_Batch_slot _ _ _ _ _ _ _ _ Hc Hb E), R.
  unfold rows_events, end_events, read_error, decode_error, cursor_error, stored.
  rewrite H1, HA. simpl. split_and!; try done.
  apply (sql_begins_results _ _ _ _ _ _ Hc Hb). apply lookup_lt_Some in Hc. lia.
Qed.

(** X4 on the third command of [MoreExamples.batch], whose cursor would end
    on a fault. *)
Lemma read_without_callbacks_witness :
  let r := Sqlbatch.Batch MoreExamples.tx MoreExamples.batch Examples.start in
  calls_of 2 (appended Examples.start r.2) =
    [EvQuery 2 "broken" []; EvErr 2; EvClose 2; EvClose 2] /\
  r.1.1 !! 2%nat = Some None /\
  (Sqlbatch.command_body MoreExamples.tx 2 MoreExamples.touch (MoreExamples.before 2)).1
    = Done tt.
Proof.
  apply (read_without_callbacks MoreExamples.tx MoreExamples.batch Examples.start 2
           MoreExamples.touch (MoreExamples.before 2) [] (MoreExamples.before 2)
           (Examples.rows_of "broken") tt).
  - reflexivity.
  - unfold sql_begins. vm_compute. reflexivity.
  - reflexivity.
  - reflexivity.
  - reflexivity.
  - vm_compute. reflexivity.
  - reflexivity.
Defined.

(** X5. When [ReadOne] succeeds on the first row of the cursor, the value it
    returns is in the slot of the command in the results that [Batch]
    returns, whatever happens afterwards; [Next] is called once only, so the
    other rows and a fault of the cursor are never seen, and the body of the
    command fails exactly when [rows.Close()] does. *)
Theorem ReadOne_stores {V W : Type} (tx : Tx V W)
    (commands : list (Sqlbatch.Command V W)) (s : state V W) i c s1 f args sa
    rows w row rest result w' :
  commands !! i = Some c ->
  sql_begins tx commands s i s1 ->
  Sqlbatch.Affect c = 0 ->
  Sqlbatch.ReadOne c = Some f ->
  Sqlbatch.resolve_args i c s1 = (Done args, sa) ->
  tx_Query tx (Sqlbatch.Query c) args (world sa) = (Ok rows, w) ->
  rows_data rows = row :: rest ->
  f row w = ((result, None), w') ->
  (Sqlbatch.Batch tx commands s).1.1 !! i = Some result /\
  next_calls i (appended s (Sqlbatch.Batch tx commands s).2) = [true] /\
  (Sqlbatch.command_body tx i c s1).1 = ended (rows_closeErr rows).
Proof.
  intros Hc Hb Ha H1 Hargs Hq Hrows Hf.
  rewrite <- next_calls_of, (read_calls_of _ _ _ _ _ _ _ _ _ _ Hc Hb Ha Hargs Hq).
  destruct (Sqlbatch.command_body tx i c s1) as [o2 s2] eqn:E.
  destruct (read_command_spec _ _ _ _ _ _ _ _ _ _ Ha Hargs Hq E) as (_ & _ & _ & _ & R & ->).
  rewrite (sql_Batch_slot _ _ _ _ _ _ _ _ Hc Hb E), R.
  rewrite next_calls_app, next_calls_args.
  unfold rows_events, end_events, read_error, decode_error, cursor_error, stored.
  rewrite H1, Hrows, Hf. simpl. unfold next_calls. simpl. rewrite decide_True by done.
  split_and!; try done.
  apply list_lookup_insert_eq.
  destruct (sql_begins_results _ _ _ _ _ _ Hc Hb) as [-> _]. by eapply lookup_lt_Some.
Qed.

(** X5 on the fourth command of [MoreExamples.batch]: the cursor has one
    row and then a fault, and the batch fails on the next command. *)
Lemma ReadOne_stores_witness :
  let r := Sqlbatch.Batch MoreExamples.tx MoreExamples.batch Examples.start in
  r.1.1 !! 3%nat = Some (Some 1) /\
  next_calls 3 (appended Examples.start r.2) = [true] /\
  (Sqlbatch.command_body MoreExamples.tx 3 MoreExamples.first_of_broken
     (MoreExamples.before 3)).1 = Done tt.
Proof.
  apply (ReadOne_stores MoreExamples.tx MoreExamples.batch Examples.start 3
           MoreExamples.first_of_broken (MoreExamples.before 3) Examples.first_column []
           (MoreExamples.before 3) (Examples.rows_of "broken") tt [Some 1] [] (Some 1) tt).
  - reflexivity.
  - unfold sql_begins. vm_compute. reflexivity.
  - reflexivity.
  - reflexivity.
  - vm_compute. reflexivity.
  - reflexivity.
  - reflexivity.
  - reflexivity.
Defined.

(** * The outcome of [Sqlbatch.Batch] *)
Section SqlbatchOutcome.
Context {V W : Type}.
Local Abbreviation iface := (iface V).
Local Abbreviation Row := (Row V).
Local Abbreviation Rows := (Rows V).
Local Abbreviation event := (event V).
Local Abbreviation state := (state V W).
Local Abbreviation Tx := (Tx V W).
Local Abbreviation M := (M V W).

Lemma argsFunc_calls_app i (evs1 evs2 : list event) :
  argsFunc_calls i (evs1 ++ evs2) = argsFunc_calls i evs1 ++ argsFunc_calls i evs2.
Proof. apply omap_app. Qed.

Lemma argsFunc_calls_of i (evs : list event) :
  argsFunc_calls i (calls_of i evs) = argsFunc_calls i evs.
Proof.
  unfold argsFunc_calls, calls_of.
  induction evs as [|ev evs IH]; [done|].
  rewrite filter_cons. case_decide as Hev.
  - cbn [omap list_omap]. by rewrite IH.
  - rewrite IH. cbn [omap list_omap].
    destruct ev; try done. simpl in Hev.
    rewrite decide_False; [done|]. by intros ->.
Qed.

Lemma argsFunc_calls_fold i f memo (rows : list Row) (w : W) :
  argsFunc_calls i (fold_events i f memo rows w) = [].
Proof.
  revert memo w. induction rows as [|row rest IH]; intros memo w; [done|].
  simpl. destruct (f memo row w) as [[memo' [e|]] w']; [done|].
  unfold argsFunc_calls in *. simpl. apply IH.
Qed.

Lemma argsFunc_calls_rows i (c : Sqlbatch.Command V W) (rows : Rows) (w : W) :
  argsFunc_calls i (rows_events i c rows w ++ end_events i c rows w ++ [EvClose i]) = [].
Proof.
  rewrite !argsFunc_calls_app. unfold rows_events, end_events.
  destruct (Sqlbatch.ReadOne c), (Sqlbatch.ReadAll c), (rows_data rows) eqn:?;
    rewrite ?argsFunc_calls_fold;
    destruct (decode_error c rows w), (cursor_error c rows); done.
Qed.

Lemma command_calls_head tx commands (s : state) i c s1 :
  commands !! i = Some c ->
  sql_begins tx commands s i s1 ->
  exists rest,
    calls_of i (appended s (Sqlbatch.Batch tx commands s).2) =
      args_events i c (results s1) ++
      execution i c (args_of c (results s1) (world s1)) :: rest /\
    argsFunc_calls i rest = [].
Proof.
  intros Hc Hb. destruct (resolve_args_exact i c s1) as (sa & Hargs & _).
  unfold execution. case_decide as Ha.
  - destruct (tx_Exec tx (Sqlbatch.Query c) (args_of c (results s1) (world s1)) (world sa))
      as [r w] eqn:He.
    eexists. split; [by eapply write_calls_of|]. by destruct r.
  - destruct (tx_Query tx (Sqlbatch.Query c) (args_of c (results s1) (world s1)) (world sa))
      as [[rows|e] w] eqn:Hq.
    + eexists. split; [by eapply read_calls_of|]. apply argsFunc_calls_rows.
    + exists []. split; [|done]. by eapply query_fail_calls_of.
Qed.

Lemma argsFunc_calls_run tx commands (s : state) i c :
  commands !! i = Some c ->
  let calls := appended s (Sqlbatch.Batch tx commands s).2 in
  argsFunc_calls i calls = [] \/
  exists s1, sql_begins tx commands s i s1 /\
    argsFunc_calls i calls = argsFunc_calls i (args_events i c (results s1)).
Proof.
  intros Hc calls. subst calls.
  destruct (sql_reach tx commands s i c Hc) as [[s1 Hb]|(_ & F & _)].
  { right. exists s1. split; [done|].
    destruct (command_calls_head _ _ _ _ _ _ Hc Hb) as (rest & E & Hr).
    rewrite <- argsFunc_calls_of, E, argsFunc_calls_app.
    replace (argsFunc_calls i (execution _ _ _ :: rest)) with (@nil (list iface));
      [by rewrite app_nil_r|].
    unfold execution. by case_decide. }
  left. induction F as [|ev evs Hev F IH]; [done|].
  unfold argsFunc_calls in *. cbn [omap list_omap]. rewrite IH.
  destruct ev; try done. rewrite decide_False; [done|]. intros ->.
  destruct Hev as [(j & Hj & Hlt)|[j Hj]]; [|done]. simpl in Hj. injection Hj as ->. lia.
Qed.


(** One of the commands fails, or all of the first [n] run to their end. *)
Lemma sql_loop_prefix tx commands (s : state) n :
  (n <= length commands)%nat ->
  (exists s1, sql_begins tx commands s n s1) \/
  (exists i c s1 e s2, (i < n)%nat /\ commands !! i = Some c /\
     sql_begins tx commands s i s1 /\
     Sqlbatch.command_body tx i c s1 = (Return e, s2)).
Proof.
  induction n as [|n IH]; intros Hn.
  { left. by exists (Sqlbatch.enter commands s). }
  destruct IH as [[s1 Hb]|(i & c & s1 & e & s2 & Hi & Hc & Hb & E)]; [lia| |].
  - destruct (lookup_lt_is_Some_2 commands n) as [c Hc]; [lia|].
    destruct (Sqlbatch.command_body tx n c s1) as [[[]|e] s2] eqn:E.
    + left. exists s2. by eapply sql_begins_next.
    + right. exists n, c, s1, e, s2. split_and!; [lia|done..].
  - right. exists i, c, s1, e, s2. split_and!; [lia|done..].
Qed.

Lemma sql_Batch_error tx commands (s : state) e :
  (Sqlbatch.Batch tx commands s).1.2 = Some e <->
  exists i c s1, commands !! i = Some c /\ sql_begins tx commands s i s1 /\
    sql_fault tx i c s1 e.
Proof.
  split.
  - intros He.
    destruct (sql_loop_prefix tx commands s (length commands)) as
      [[s1 Hb]|(i & c & s1 & e' & s2 & _ & Hc & Hb & E)]; [done| |].
    + unfold sql_begins in Hb. rewrite firstn_all in Hb.
      unfold Sqlbatch.Batch in He. by rewrite Hb in He.
    + destruct (sql_Batch_at _ _ _ _ _ _ _ _ Hc Hb E) as (o3 & s3 & HB & _ & -> & _).
      rewrite HB in He. simpl in He. injection He as ->.
      exists i, c, s1. split_and!; [done..|]. apply sql_fault_returns. by exists s2.
  - intros (i & c & s1 & Hc & Hb & [s2 E]%sql_fault_returns).
    destruct (sql_Batch_at _ _ _ _ _ _ _ _ Hc Hb E) as (o3 & s3 & -> & _ & -> & _). done.
Qed.

Lemma sql_Batch_suffix tx commands commands' (s : state) i c s1 e :
  commands !! i = Some c ->
  sql_begins tx commands s i s1 ->
  sql_fault tx i c s1 e ->
  take (S i) commands' = take (S i) commands ->
  length commands' = length commands ->
  Sqlbatch.Batch tx commands' s = Sqlbatch.Batch tx commands s.
Proof.
  intros Hc Hb [s2 E]%sql_fault_returns Ht Hl.
  assert (commands' !! i = Some c) as Hc'.
  { rewrite <- (lookup_take_lt commands' (S i) i), Ht, lookup_take_lt by lia. done. }
  assert (sql_begins tx commands' s i s1) as Hb'.
  { unfold sql_begins in *.
    replace (take i commands') with (take i commands).
    - unfold Sqlbatch.enter in *. by rewrite Hl.
    - assert (forall l : list (Sqlbatch.Command V W), take i l = take i (take (S i) l)) as Hk.
      { intros l. rewrite take_take. f_equal. lia. }
      by rewrite (Hk commands), (Hk commands'), Ht. }
  destruct (sql_Batch_at _ _ _ _ _ _ _ _ Hc Hb E) as (o3 & s3 & -> & _ & -> & ->).
  destruct (sql_Batch_at _ _ _ _ _ _ _ _ Hc' Hb' E) as (o3 & s3 & -> & _ & -> & ->).
  done.
Qed.

End SqlbatchOutcome.

(** X6. [ArgsFunc] is called at most once for a command. A command without
    [ArgsFunc] has no such call made for it, and its statement, the first
    call made for it, is executed with its static [Args]. *)
Theorem Args_without_ArgsFunc {V W : Type} (tx : Tx V W)
    (commands : list (Sqlbatch.Command V W)) (s : state V W) i c :
  commands !! i = Some c ->
  let calls := appended s (Sqlbatch.Batch tx commands s).2 in
  (length (argsFunc_calls i calls) <= 1)%nat /\
  (Sqlbatch.ArgsFunc c = None ->
     argsFunc_calls i calls = [] /\
     forall s1, sql_begins tx commands s i s1 ->
       exists rest, calls_of i calls = execution i c (Sqlbatch.Args c) :: rest).
Proof.
  intros Hc calls. subst calls. split.
  - destruct (argsFunc_calls_run tx commands s i c Hc) as [->|(s1 & _ & ->)]; [simpl; lia|].
    unfold args_events. destruct (Sqlbatch.ArgsFunc c); simpl; [|lia].
    rewrite decide_True by done. simpl. lia.
  - intros Hf. split.
    + destruct (argsFunc_calls_run tx commands s i c Hc) as [->|(s1 & _ & ->)]; [done|].
      unfold args_events. by rewrite Hf.
    + intros s1 Hb. destruct (command_calls_head _ _ _ _ _ _ Hc Hb) as (rest & E & _).
      exists rest. rewrite E. unfold args_events, args_of. by rewrite Hf.
Qed.

(** X6 on the second command of [MoreExamples.batch]. *)
Lemma Args_without_ArgsFunc_witness :
  let calls := appended Examples.start
                 (Sqlbatch.Batch MoreExamples.tx MoreExamples.batch Examples.start).2 in
  (length (argsFunc_calls 1 calls) <= 1)%nat /\
  (Sqlbatch.ArgsFunc MoreExamples.checked = None ->
     argsFunc_calls 1 calls = [] /\
     forall s1, sql_begins MoreExamples.tx MoreExamples.batch Examples.start 1 s1 ->
       exists rest, calls_of 1 calls = EvExec 1 "update" [Some 5] :: rest).
Proof.
  apply (Args_without_ArgsFunc MoreExamples.tx MoreExamples.batch Examples.start 1
           MoreExamples.checked).
  reflexivity.
Defined.

(** X7. [Batch] returns the error [e] exactly when one of the commands,
    begun after all the commands before it have run to their end, runs into
    [e]: its statement fails, the affected rows cannot be had or are not the
    expected number, a row callback fails, the cursor ends on a fault, or its
    release fails. There is no other source of an error, and no such error
    is dropped. *)
Theorem Batch_error_iff_fault {V W : Type} (tx : Tx V W)
    (commands : list (Sqlbatch.Command V W)) (s : state V W) (e : error) :
  (Sqlbatch.Batch tx commands s).1.2 = Some e <->
  exists i c s1, commands !! i = Some c /\ sql_begins tx commands s i s1 /\
    sql_fault tx i c s1 e.
Proof. apply sql_Batch_error. Qed.

(** X8. [Batch] of src/sqlbatch.go leaves no cursor open, however it ends,
    and no [rows.Close()] still deferred; and no cursor is open when a
    command begins, so that at most one is open at a time. *)
Theorem Batch_closes_every_cursor {V W : Type} (tx : Tx V W)
    (commands : list (Sqlbatch.Command V W)) (s : state V W) :
  opened (Sqlbatch.Batch tx commands s).2 = ∅ /\
  deferred (Sqlbatch.Batch tx commands s).2 = [] /\
  forall i s1, sql_begins tx commands s i s1 -> opened s1 = ∅.
Proof.
  destruct (Sqlbatch_releases_cursors tx commands s) as [Ho Hb]. split_and!; [done| |done].
  unfold Sqlbatch.Batch.
  destruct (Sqlbatch.loop tx 0 commands (Sqlbatch.enter commands s)) as [o s1]. simpl.
  by destruct (run_deferred_state s1) as (_ & _ & _ & _ & _ & ->).
Qed.

(** X9. Once a command fails, the commands after it are not consulted:
    [Batch] returns the same results and error, and leaves the same state,
    whatever commands follow the failing one, as long as there are as many
    of them. *)
Theorem later_commands_not_consulted {V W : Type} (tx : Tx V W)
    (commands commands' : list (Sqlbatch.Command V W)) (s : state V W) i c s1 e :
  commands !! i = Some c ->
  sql_begins tx commands s i s1 ->
  sql_fault tx i c s1 e ->
  take (S i) commands' = take (S i) commands ->
  length commands' = length commands ->
  Sqlbatch.Batch tx commands' s = Sqlbatch.Batch tx commands s.
Proof. apply sql_Batch_suffix. Qed.

(** X9 on [Examples.rejected_batch], whose second command has a failing row
    callback: the third command is replaced. *)
Lemma later_commands_not_consulted_witness :
  Sqlbatch.Batch (Examples.tx None)
    [Examples.sum; Examples.rejecting_all; Examples.untouched] Examples.start =
  Sqlbatch.Batch (Examples.tx None) Examples.rejected_batch Examples.start.
Proof.
  apply (later_commands_not_consulted (Examples.tx None) Examples.rejected_batch
           [Examples.sum; Examples.rejecting_all; Examples.untouched] Examples.start 1
           Examples.rejecting_all (Examples.before None Examples.rejected_batch 1)
           "decode failed").
  - reflexivity.
  - unfold sql_begins. vm_compute. reflexivity.
  - apply (fault_decode (Examples.tx None) 1 Examples.rejecting_all
             (Examples.before None Examples.rejected_batch 1) []
             (Examples.before None Examples.rejected_batch 1)
             (Examples.rows_of "select") "decode failed" tt).
    + vm_compute. reflexivity.
    + reflexivity.
    + reflexivity.
    + reflexivity.
  - reflexivity.
  - reflexivity.
Defined.

(** * The cursors [Part001.Batch] leaves open *)
Section Part001Cursors.
Context {V W : Type}.
Local Abbreviation iface := (iface V).
Local Abbreviation Row := (Row V).
Local Abbreviation Rows := (Rows V).
Local Abbreviation event := (event V).
Local Abbreviation state := (state V W).
Local Abbreviation Tx := (Tx V W).
Local Abbreviation M := (M V W).

Lemma within_none_opened P {A} (m : M A) s : within P none m -> opened (m s).2 = opened s.
Proof.
  intros H. destruct (H s) as (_ & _ & _ & _ & _ & Ho).
  apply set_eq. intros j. apply Ho. by intros [].
Qed.

Lemma p1_read_opened (tx : Tx) i (c : Part001.Command V W) args s o s' :
  opened s = ∅ ->
  Part001.read tx i c args s = (o, s') ->
  match tx_Query tx (Part001.Query c) args (world s) with
  | (Ok rows, w) =>
      match decode_error (to_sql c) rows w with
      | Some e => o = Return e /\ opened s' = {[i]}
      | None => opened s' = ∅
      end
  | (Fail e, _) => o = Return e /\ opened s' = ∅
  end.
Proof.
  intros Ho. unfold Part001.read. rewrite bind_unfold. unfold call_Query.
  destruct (tx_Query tx (Part001.Query c) args (world s)) as [[rows|e] w].
  2:{ intros [= <- <-]. done. }
  set (sq := set_opened _ _). rewrite bind_unfold.
  assert (opened sq = {[i]}) as Hq.
  { subst sq. simpl. rewrite Ho. apply set_eq. intros j. set_unfold. tauto. }
  pose proof (within_none_opened (eq i) (Part001.read_rows i c rows) sq
                (within_p1_read_rows _ _ _ _ _ eq_refl)) as Hr.
  rewrite Hq in Hr. clear Hq.
  destruct (Part001.read_rows i c rows sq) as [o1 s1] eqn:E.
  rewrite p1_read_rows_to_sql in E.
  destruct (read_rows_spec _ _ _ _ _ _ E) as (_ & _ & _ & _ & _ & ->).
  change (world sq) with w. cbn [snd] in Hr.
  destruct (decode_error (to_sql c) rows w) as [e|]; [by intros [= <- <-]|].
  rewrite bind_unfold. unfold emit.
  assert (forall (k : option error -> M unit) o2 s2,
    (forall a, within (eq i) none (k a)) ->
    bind (call_Close i rows) k (log (EvErr i) s1) = (o2, s2) -> opened s2 = ∅) as Hk.
  { intros k o2 s2 Wk. rewrite bind_unfold. unfold call_Close. simpl. rewrite Hr.
    rewrite decide_True by (by apply elem_of_singleton). intros E2.
    pose proof (within_none_opened (eq i) (k (rows_closeErr rows))
                  (set_opened ({[i]} ∖ {[i]}) (log (EvClose i) (log (EvErr i) s1))) (Wk _)) as Hk.
    rewrite E2 in Hk. simpl in Hk. rewrite Hk. apply set_eq. intros j. set_unfold. tauto. }
  destruct (cursor_error (to_sql c) rows) as [e|]; apply Hk; intros a; auto with frames.
Qed.


Lemma p1_body_opened (tx : Tx) i (c : Part001.Command V W) s o s' :
  opened s = ∅ ->
  Part001.command_body tx i c s = (o, s') ->
  (opened s' = ∅ /\ forall e, ~ p1_leak tx i c s e) \/
  (exists e, o = Return e /\ opened s' = {[i]} /\ p1_leak tx i c s e).
Proof.
  intros Ho. unfold Part001.command_body. rewrite bind_unfold.
  destruct (resolve_args_exact i (to_sql c) s) as (sa & Hargs & _ & _ & _ & Hoa).
  change (Sqlbatch.resolve_args i (to_sql c) s) with (Part001.resolve_args i c s) in Hargs.
  rewrite Hargs. case_decide as Ha.
  - intros E. left. split.
    + pose proof (within_none_opened (eq i)
        (Part001.write_check tx i c (args_of (to_sql c) (results s) (world s))) sa) as Hw.
      rewrite E in Hw. cbn [snd] in Hw. rewrite Hw, Hoa; [done|].
      unfold Part001.write_check. apply within_bind; [auto with frames|]. intros r.
      apply within_bind; [auto with frames|]. intros a. case_decide; auto with frames.
    + intros e (args' & sa' & rows & w & Ha' & _). done.
  - intros E. rewrite Ho in Hoa. pose proof (p1_read_opened _ _ _ _ _ _ _ Hoa E) as H.
    destruct (tx_Query tx (Part001.Query c) _ (world sa)) as [[rows|e] w] eqn:Hq.
    + destruct (decode_error (to_sql c) rows w) as [e|] eqn:Hd.
      * right. exists e. destruct H as [-> H]. split_and!; [done..|].
        exists (args_of (to_sql c) (results s) (world s)), sa, rows, w.
        split_and!; [|done..]. by destruct (decide (Part001.Affect c = 0)); [|destruct Ha].
      * left. split; [done|]. intros e (args' & sa' & rows' & w' & _ & Hr' & Hq' & Hd').
        rewrite Hargs in Hr'. injection Hr' as <- <-. rewrite Hq in Hq'.
        injection Hq' as <- <-. by rewrite Hd in Hd'.
    + left. destruct H as [-> H]. split; [done|].
      intros e' (args' & sa' & rows' & w' & _ & Hr' & Hq' & _).
      rewrite Hargs in Hr'. injection Hr' as <- <-. by rewrite Hq in Hq'.
Qed.

Lemma p1_loop_done_opened (tx : Tx) i (commands : list (Part001.Command V W)) s s' :
  Part001.loop tx i commands s = (Done tt, s') -> opened s = ∅ -> opened s' = ∅.
Proof.
  revert i s. induction commands as [|c rest IH]; intros i s; simpl.
  { by intros [= <-]. }
  rewrite bind_unfold. destruct (Part001.command_body tx i c s) as [[[]|e] s1] eqn:E; [|done].
  intros El Ho. apply (IH _ _ El).
  destruct (p1_body_opened _ _ _ _ _ _ Ho E) as [[H _]|(e & He & _)]; done.
Qed.

Lemma p1_begins_opened (tx : Tx) commands (s : state) i s1 :
  p1_begins tx commands s i s1 -> opened s1 = ∅.
Proof. intros Hb. by apply (p1_loop_done_opened _ _ _ _ _ Hb). Qed.

(** One of the commands fails, or all of the first [n] run to their end. *)
Lemma p1_loop_prefix (tx : Tx) commands (s : state) n :
  (n <= length commands)%nat ->
  (exists s1, p1_begins tx commands s n s1) \/
  (exists i c s1 e s2, (i < n)%nat /\ commands !! i = Some c /\
     p1_begins tx commands s i s1 /\
     Part001.command_body tx i c s1 = (Return e, s2)).
Proof.
  induction n as [|n IH]; intros Hn.
  { left. by exists (Part001.enter commands s). }
  destruct IH as [[s1 Hb]|(i & c & s1 & e & s2 & Hi & Hc & Hb & E)]; [lia| |].
  - destruct (lookup_lt_is_Some_2 commands n) as [c Hc]; [lia|].
    destruct (Part001.command_body tx n c s1) as [[[]|e] s2] eqn:E.
    + left. exists s2. by eapply p1_begins_next.
    + right. exists n, c, s1, e, s2. split_and!; [lia|done..].
  - right. exists i, c, s1, e, s2. split_and!; [lia|done..].
Qed.

Lemma p1_begins_unique (tx : Tx) commands (s : state) i s1 s1' :
  p1_begins tx commands s i s1 -> p1_begins tx commands s i s1' -> s1 = s1'.
Proof. unfold p1_begins. intros -> [= ->]. done. Qed.

(** No command begins after one that fails. *)
Lemma p1_return_last (tx : Tx) commands (s : state) j c s1 e s2 k s' :
  commands !! j = Some c -> p1_begins tx commands s j s1 ->
  Part001.command_body tx j c s1 = (Return e, s2) ->
  (j < k)%nat -> ~ p1_begins tx commands s k s'.
Proof.
  intros Hc Hb E Hk. unfold p1_begins in *.
  assert (take k commands !! j = Some c) as Hc' by (by rewrite lookup_take_lt).
  rewrite <- (take_drop_middle _ _ _ Hc'), take_take, Nat.min_l by lia.
  rewrite p1_loop_app, bind_unfold, Hb. simpl.
  rewrite length_take_le by (apply lookup_lt_Some in Hc; lia).
  by rewrite bind_unfold, E.
Qed.

Lemma p1_Batch_opened (tx : Tx) (commands : list (Part001.Command V W)) (s : state) :
  let r := Part001.Batch tx commands s in
  (r.1.2 = None -> opened r.2 = ∅) /\
  forall i, i ∈ opened r.2 <->
    exists c s1 e, commands !! i = Some c /\ p1_begins tx commands s i s1 /\
      p1_leak tx i c s1 e /\ r.1.2 = Some e.
Proof.
  intros r. subst r.
  destruct (p1_loop_prefix tx commands s (length commands)) as
    [[s1 Hb]|(i & c & s1 & e & s2 & _ & Hc & Hb & E)]; [done| |].
  - pose proof (p1_begins_opened _ _ _ _ _ Hb) as Ho.
    unfold p1_begins in Hb. rewrite firstn_all in Hb.
    unfold Part001.Batch. rewrite Hb. simpl. split; [done|].
    intros j. rewrite Ho. split; [by intros ?%elem_of_empty|]. by intros (? & ? & ? & _ & _ & _ & ?).
  - rewrite (p1_Batch_return _ _ _ _ _ _ _ _ Hc Hb E). simpl. split; [done|].
    pose proof (p1_begins_opened _ _ _ _ _ Hb) as Ho.
    intros j. split.
    + intros Hj. destruct (p1_body_opened _ _ _ _ _ _ Ho E) as [[H _]|(e' & [= <-] & H & Hl)].
      { rewrite H in Hj. by apply elem_of_empty in Hj. }
      rewrite H in Hj. apply elem_of_singleton in Hj. subst j. by exists c, s1, e.
    + intros (c' & s1' & e' & Hc' & Hb' & Hl & _).
      destruct (decide (j = i)) as [->|Hne].
      * rewrite Hc in Hc'. injection Hc' as <-.
        rewrite <- (p1_begins_unique _ _ _ _ _ _ Hb Hb') in Hl.
        destruct (p1_body_opened _ _ _ _ _ _ Ho E) as [[_ H]|(_ & _ & -> & _)].
        { by destruct (H e'). } by apply elem_of_singleton.
      * exfalso. destruct Hl as (args & sa & rows & w & Hl).
        destruct (decide (j < i)%nat) as [Hlt|Hge].
        -- destruct (Part001.command_body tx j c' s1') as [o' s2'] eqn:E'.
           pose proof (p1_begins_opened _ _ _ _ _ Hb') as Ho'.
           destruct (p1_body_opened _ _ _ _ _ _ Ho' E') as [[_ H]|(e2 & -> & _ & _)].
           { destruct (H e'). by exists args, sa, rows, w. }
           by apply (p1_return_last _ _ _ _ _ _ _ _ i s1 Hc' Hb' E').
        -- apply (p1_return_last _ _ _ _ _ _ _ _ j s1' Hc Hb E); [lia|done].
Qed.

End Part001Cursors.

(** X10. [Batch] of src/unnamed/part_001 and [Batch] of src/sqlbatch.go,
    given the same commands field by field ([Memo] as [Init], [Scan] as
    [ReadAll], [ScanOnce] as [ReadOne]), return the same results and the same
    error, and leave the same world; both make the same calls in the same
    order, apart from [rows.Close()]. *)
Theorem Part001_Batch_as_Sqlbatch {V W : Type} (tx : Tx V W)
    (commands : list (Part001.Command V W)) (s : state V W) :
  (Part001.Batch tx commands s).1 = (Sqlbatch.Batch tx (to_sql <$> commands) s).1 /\
  agree (Part001.Batch tx commands s).2 (Sqlbatch.Batch tx (to_sql <$> commands) s).2.
Proof. apply p1_Batch_to_sql. Qed.

(** X11. [Batch] of src/unnamed/part_001 leaves the cursor of command [i]
    open exactly when that command is reached, is a read command whose query
    delivered a cursor, and its row callback returned an error, which is
    then the error [Batch] returns. In particular no cursor is left open
    when [Batch] returns no error. *)
Theorem Part001_open_cursors {V W : Type} (tx : Tx V W)
    (commands : list (Part001.Command V W)) (s : state V W) :
  let r := Part001.Batch tx commands s in
  (r.1.2 = None -> opened r.2 = ∅) /\
  forall i, i ∈ opened r.2 <->
    exists c s1 e, commands !! i = Some c /\ p1_begins tx commands s i s1 /\
      p1_leak tx i c s1 e /\ r.1.2 = Some e.
Proof. apply p1_Batch_opened. Qed.

(** * [Handler.Batch] next to [Part001.Batch] *)
Section HandlerAsPart001.
Context {V W : Type}.
Local Abbreviation iface := (iface V).
Local Abbreviation Row := (Row V).
Local Abbreviation Rows := (Rows V).
Local Abbreviation event := (event V).
Local Abbreviation state := (state V W).
Local Abbreviation Tx := (Tx V W).
Local Abbreviation M := (M V W).
Variable base : list event.

Lemma paired_runs_bind {A B A' B'} (R : A -> B -> Prop) (R' : A' -> B' -> Prop)
    (m1 : M A) (m2 : M B) (k1 : A -> M A') (k2 : B -> M B') :
  paired_runs base R m1 m2 ->
  (forall a b, R a b -> paired_runs base R' (k1 a) (k2 b)) ->
  paired_runs base R' (bind m1 k1) (bind m2 k2).
Proof.
  intros Hm Hk s p H. specialize (Hm s p H). unfold bind.
  destruct (m1 s) as [[a|e1] s'], (m2 p) as [[b|e2] p']; simpl in *; try done.
  destruct Hm as [Hab H']. by apply Hk.
Qed.

Lemma paired_log (s p : state) ev1 ev2 :
  erase ev2 = ev1 -> paired base s p -> paired base (log ev1 s) (log ev2 p).
Proof.
  intros He (Hw & Ho & evs & Tp & Ts). split_and!; [done..|].
  exists (evs ++ [ev2]). simpl. rewrite Tp, Ts, fmap_app, !app_assoc. simpl. by rewrite He.
Qed.

Lemma paired_set_world (s p : state) w :
  paired base s p -> paired base (set_world w s) (set_world w p).
Proof. intros (Hw & Ho & H). by split_and!. Qed.

Lemma paired_set_opened (s p : state) o :
  paired base s p -> paired base (set_opened o s) (set_opened o p).
Proof. intros (Hw & Ho & H). by split_and!. Qed.

Lemma paired_set_results (s p : state) r :
  paired base s p -> paired base s (set_results r p).
Proof. intros (Hw & Ho & H). by split_and!. Qed.

Lemma paired_runs_ret {A B} (R : A -> B -> Prop) a b :
  R a b -> paired_runs base R (ret a : M A) (ret b : M B).
Proof. intros Hab s p H. done. Qed.

Lemma paired_runs_return_err {A B} (R : A -> B -> Prop) e :
  paired_runs base R (return_err e : M A) (return_err e : M B).
Proof. intros s p H. done. Qed.

Lemma paired_runs_check_nil e :
  paired_runs base eq (check_nil e : M unit) (check_nil e : M unit).
Proof. intros s p H. by destruct e. Qed.

Lemma paired_runs_emit ev :
  erase ev = ev -> paired_runs base eq (emit ev : M unit) (emit ev : M unit).
Proof. intros He s p H. simpl. split; [done|]. by apply paired_log. Qed.

Lemma paired_runs_call_Exec (tx : Tx) i q args :
  paired_runs base eq (call_Exec tx i q args) (call_Exec tx i q args).
Proof.
  intros s p H. unfold call_Exec. pose proof H as (Hw & _). rewrite Hw.
  destruct (tx_Exec tx q args (world p)) as [[r|e] w]; simpl;
    (split; [done|]); apply paired_set_world, paired_log; done.
Qed.

Lemma paired_runs_call_RowsAffected i (r : Result) :
  paired_runs base eq (call_RowsAffected i r : M Z) (call_RowsAffected i r : M Z).
Proof.
  intros s p H. unfold call_RowsAffected.
  destruct (RowsAffected r); simpl; (split; [done|]); by apply paired_log.
Qed.

Lemma paired_runs_call_Query (tx : Tx) i q args :
  paired_runs base eq (call_Query tx i q args) (call_Query tx i q args).
Proof.
  intros s p H. unfold call_Query. pose proof H as (Hw & Ho & _). rewrite Hw.
  destruct (tx_Query tx q args (world p)) as [[r|e] w]; simpl; (split; [done|]).
  - rewrite Ho. apply paired_set_opened, paired_set_world, paired_log; done.
  - apply paired_set_world, paired_log; done.
Qed.

Lemma paired_runs_call_Close i (rows : Rows) :
  paired_runs base eq (call_Close i rows : M (option error)) (call_Close i rows).
Proof.
  intros s p H. unfold call_Close. pose proof H as (Hw & Ho & _). rewrite Ho.
  case_decide; simpl; (split; [done|]).
  - apply paired_set_opened, paired_log; done.
  - apply paired_log; done.
Qed.

Lemma paired_runs_set_slot {A B} (R : A -> B -> Prop) i v (m1 : M A) (m2 : M B) :
  paired_runs base R m1 m2 -> paired_runs base R m1 (set_slot i v;; m2).
Proof. intros Hm s p H. apply (Hm s (set_results (<[i:=v]> (results p)) p)). by apply paired_set_results. Qed.

Lemma paired_runs_ArgsFunc i f :
  paired_runs base eq (Handler.call_ArgsFunc i f : M (list iface))
    (Part001.call_ArgsFunc i (fun _ w => f w)).
Proof.
  intros s p H. unfold Handler.call_ArgsFunc, Part001.call_ArgsFunc.
  pose proof H as (Hw & _). rewrite Hw. destruct (f (world p)) as [args w]. simpl.
  split; [done|]. apply paired_set_world, paired_log; done.
Qed.

Lemma paired_runs_ScanOnce i f row :
  paired_runs base (fun _ _ => True) (Handler.call_ScanOnce i f row : M unit)
    (Part001.call_ScanOnce i (fun row w => valueless (f row w)) row).
Proof.
  intros s p H. unfold Handler.call_ScanOnce, Part001.call_ScanOnce, valueless.
  pose proof H as (Hw & _). rewrite Hw. destruct (f row (world p)) as [[e|] w]; simpl;
    (split; [done|]); apply paired_set_world, paired_log; done.
Qed.

Lemma paired_runs_Scan i f row :
  paired_runs base (fun _ memo => memo = None) (Handler.call_Scan i f row : M unit)
    (Part001.call_Scan i (fun _ row w => valueless (f row w)) None row).
Proof.
  intros s p H. unfold Handler.call_Scan, Part001.call_Scan, valueless.
  pose proof H as (Hw & _). rewrite Hw. destruct (f row (world p)) as [[e|] w]; simpl;
    (split; [done|]); apply paired_set_world, paired_log; done.
Qed.

Lemma paired_runs_scan_loop i f (rows : list Row) :
  paired_runs base (fun _ _ => True) (Handler.scan_loop i f rows : M unit)
    (Part001.scan_loop i (fun _ row w => valueless (f row w)) None rows).
Proof.
  induction rows as [|row rest IH].
  - intros s p H. simpl. split; [done|]. by apply paired_log.
  - cbn [Handler.scan_loop Part001.scan_loop].
    apply (paired_runs_bind eq); [by apply paired_runs_emit|]. intros _ _ _.
    apply (paired_runs_bind (fun _ memo => memo = None)); [apply paired_runs_Scan|].
    intros _ memo ->. apply IH.
Qed.

Lemma paired_runs_read_rows i (c : Handler.Command V W) (rows : Rows) :
  paired_runs base eq (Handler.read_rows i c rows) (Part001.read_rows i (to_p1 c) rows).
Proof.
  unfold Handler.read_rows, Part001.read_rows. simpl.
  destruct (Handler.ScanOnce c) as [f|]; simpl.
  - destruct (rows_data rows) as [|row rest].
    + apply (paired_runs_bind eq); [by apply paired_runs_emit|]. intros _ _ _.
      by apply paired_runs_ret.
    + apply (paired_runs_bind eq); [by apply paired_runs_emit|]. intros _ _ _.
      apply (paired_runs_bind (fun _ _ => True)); [apply paired_runs_ScanOnce|].
      intros _ result _. apply paired_runs_set_slot. by apply paired_runs_ret.
  - destruct (Handler.Scan c) as [f|]; simpl; [|by apply paired_runs_ret].
    apply (paired_runs_bind (fun _ _ => True)); [apply paired_runs_scan_loop|].
    intros _ memo _. apply paired_runs_set_slot. by apply paired_runs_ret.
Qed.

Lemma paired_runs_resolve_args i (c : Handler.Command V W) :
  paired_runs base eq (Handler.resolve_args i c) (Part001.resolve_args i (to_p1 c)).
Proof.
  unfold Handler.resolve_args, Part001.resolve_args. simpl.
  destruct (Handler.ArgsFunc c) as [f|]; simpl;
    [apply paired_runs_ArgsFunc|by apply paired_runs_ret].
Qed.

Lemma paired_runs_write_check (tx : Tx) i (c : Handler.Command V W) args :
  paired_runs base eq (Handler.write_check tx i c args) (Part001.write_check tx i (to_p1 c) args).
Proof.
  unfold Handler.write_check, Part001.write_check. simpl.
  apply (paired_runs_bind eq); [apply paired_runs_call_Exec|]. intros r _ <-.
  apply (paired_runs_bind eq); [apply paired_runs_call_RowsAffected|]. intros a _ <-.
  case_decide; [apply paired_runs_return_err|by apply paired_runs_ret].
Qed.

Lemma paired_runs_read (tx : Tx) i (c : Handler.Command V W) args :
  paired_runs base eq (Handler.read tx i c args) (Part001.read tx i (to_p1 c) args).
Proof.
  unfold Handler.read, Part001.read. simpl.
  apply (paired_runs_bind eq); [apply paired_runs_call_Query|]. intros rows _ <-.
  apply (paired_runs_bind eq); [apply paired_runs_read_rows|]. intros lasterr _ <-.
  apply (paired_runs_bind eq); [by apply paired_runs_emit|]. intros _ _ _.
  destruct lasterr as [e|].
  - apply (paired_runs_bind eq); [apply paired_runs_call_Close|]. intros _ _ _.
    apply paired_runs_return_err.
  - apply (paired_runs_bind eq); [apply paired_runs_call_Close|]. intros err _ <-.
    apply paired_runs_check_nil.
Qed.

Lemma paired_runs_command_body (tx : Tx) i (c : Handler.Command V W) :
  paired_runs base eq (Handler.command_body tx i c) (Part001.command_body tx i (to_p1 c)).
Proof.
  unfold Handler.command_body, Part001.command_body.
  apply (paired_runs_bind eq); [apply paired_runs_resolve_args|]. intros args _ <-.
  simpl. case_decide; [apply paired_runs_write_check|apply paired_runs_read].
Qed.

Lemma paired_runs_loop (tx : Tx) i (commands : list (Handler.Command V W)) :
  paired_runs base eq (Handler.loop tx i commands) (Part001.loop tx i (to_p1 <$> commands)).
Proof.
  revert i. induction commands as [|c rest IH]; intros i.
  - by apply paired_runs_ret.
  - apply (paired_runs_bind eq); [apply paired_runs_command_body|]. intros _ _ _. apply IH.
Qed.

End HandlerAsPart001.

Section HandlerBatch.
Context {V W : Type}.
Local Abbreviation iface := (iface V).
Local Abbreviation event := (event V).
Local Abbreviation state := (state V W).
Local Abbreviation Tx := (Tx V W).

Lemma h_Batch_to_p1 (handler : Handler.Handler V W) commands (s : state) tx w :
  Handler.db_Begin (Handler.db handler) (world s) = (Ok tx, w) ->
  let s0 := set_world w (log EvBegin s) in
  let r := Handler.Batch handler commands s in
  let q := Part001.Batch tx (to_p1 <$> commands) s0 in
  r.1 = q.1.2 /\
  appended s r.2 = EvBegin :: (erase <$> appended s0 q.2) ++
    match q.1.2 with
    | None => [EvCommit; EvTxDone]
    | Some _ => [EvRollback]
    end /\
  world r.2 = match q.1.2 with
              | None => (tx_Commit tx (world q.2)).2
              | Some _ => (tx_Rollback tx (world q.2)).2
              end /\
  opened r.2 = opened q.2.
Proof.
  intros HB s0 r q. subst r q. unfold Handler.Batch, Part001.Batch. rewrite HB. fold s0.
  pose proof (paired_runs_loop (trace s0) tx 0 commands (Handler.enter s0)
                (Part001.enter (to_p1 <$> commands) s0)) as H.
  pose proof (within_h_loop tx 0 commands (Handler.enter s0)) as (_ & Ht & _).
  unfold Handler.body. rewrite bind_unfold.
  destruct (Handler.loop tx 0 commands (Handler.enter s0)) as [o sl].
  destruct (Part001.loop tx 0 (to_p1 <$> commands) (Part001.enter (to_p1 <$> commands) s0))
    as [o' pl].
  simpl in Ht.
  assert (paired (trace s0) (Handler.enter s0) (Part001.enter (to_p1 <$> commands) s0)) as H0.
  { split_and!; [done..|]. exists []. simpl. by rewrite app_nil_r. }
  specialize (H H0). simpl in H.
  assert (returned o = returned o' /\ paired (trace s0) sl pl) as [Ho (Hw & Hop & evs & Tp & Ts)].
  { destruct o as [[]|e], o' as [[]|e']; try done; destruct H as [He H]; (split; [|done]);
      [done|by rewrite He]. }
  assert (appended s0 pl = evs) as Hap.
  { unfold appended. by rewrite Tp, drop_app_length. }
  cbn [fst snd]. rewrite Hap, <- Ho. clear Hap.
  assert (forall tl : list event, drop (length (trace s)) ((trace s0 ++ (erase <$> evs)) ++ tl)
                     = EvBegin :: (erase <$> evs) ++ tl) as Hd.
  { intros tl. change (trace s0) with (trace s ++ [EvBegin]).
    rewrite <- !(app_assoc (trace s)), drop_app_length. done. }
  destruct o as [[]|e]; cbn [returned].
  - rewrite bind_unfold. unfold call_Commit, call_Rollback. rewrite Ht. simpl.
    rewrite Hw. destruct (tx_Commit tx (world pl)) as [ce w']. simpl.
    split_and!; try done. unfold appended. simpl. rewrite Ts.
    rewrite <- (app_assoc _ [EvCommit] [EvTxDone]). apply Hd.
  - unfold call_Rollback. rewrite Ht, Hw. destruct (tx_Rollback tx (world pl)) as [re w'].
    simpl. split_and!; try done. unfold appended. simpl. rewrite Ts.
    apply Hd.
Qed.

End HandlerBatch.

(** X12. [Handler.Batch] is [Begin], then the loop of [Batch] of
    src/unnamed/part_001 on the same commands (with callbacks that take no
    results and return no value), then [Commit] if the loop returned no
    error and [Rollback] if it did. When [Begin] fails its error is
    returned and nothing else is called. Otherwise the error returned is the
    one of the loop, never the one of [Commit] or [Rollback]; the calls are
    those of the loop between [Begin] and the finalization; and the cursors
    left open are those the loop leaves open. *)
Theorem Handler_Batch_as_Part001 {V W : Type} (handler : Handler.Handler V W)
    (commands : list (Handler.Command V W)) (s : state V W) :
  let r := Handler.Batch handler commands s in
  match Handler.db_Begin (Handler.db handler) (world s) with
  | (Fail e, w) =>
      r.1 = Some e /\ appended s r.2 = [EvBegin] /\ world r.2 = w /\ txs r.2 = txs s
  | (Ok tx, w) =>
      let s0 := set_world w (log EvBegin s) in
      let q := Part001.Batch tx (to_p1 <$> commands) s0 in
      r.1 = q.1.2 /\
      appended s r.2 = EvBegin :: (erase <$> appended s0 q.2) ++
        match q.1.2 with
        | None => [EvCommit; EvTxDone]
        | Some _ => [EvRollback]
        end /\
      world r.2 = match q.1.2 with
                  | None => (tx_Commit tx (world q.2)).2
                  | Some _ => (tx_Rollback tx (world q.2)).2
                  end /\
      opened r.2 = opened q.2
  end.
Proof.
  intros r. destruct (Handler.db_Begin (Handler.db handler) (world s)) as [[tx|e] w] eqn:HB.
  - by apply h_Batch_to_p1.
  - subst r. unfold Handler.Batch. rewrite HB. simpl. split_and!; try done.
    unfold appended. simpl. by rewrite drop_app_length.
Qed.
